(** * togo: the todo service and its JSON file storage

    A shallow embedding of [internal/todo/todo.go] (package [todo]) and of
    the JSON repository of package [storage], with the properties of the
    design document proved about them; and of the commands of package
    [cli] that take an identifier or a description, and of the global flag
    of [main], with what the code shows of them.

    Conventions of the embedding:
    - Go's [int] is the 64-bit two's-complement integer of a 64-bit build;
      it is a [Z] and every [+ 1] of the source is written with its
      wrap-around ([wrap_int]).
    - A Go [string] and a [[]byte] are byte sequences: [string].
    - A slice [[]Todo] is a [list Todo]; [nil] and the empty slice are both
      [[]].
    - A method with a pointer receiver takes the receiver's state and
      returns the new one; [error] results are [option error], and
      [(T, error)] results are [result T].
    - [time.Now()] is an input of the operation that reads the clock. *)

From Stdlib Require Import ZArith Lia Sorting.Sorted.
From Stdlib Require Import Floats.PrimFloat Floats.SpecFloat Floats.FloatOps.
From Stdlib Require Import Ascii String.
From stdpp Require Import base option list strings gmap.

Open Scope Z_scope.

(** ** Go's [int] *)

Definition int_bits : Z := 64.
Definition min_int : Z := - 2 ^ (int_bits - 1).
Definition max_int : Z := 2 ^ (int_bits - 1) - 1.

(** Two's-complement wrap-around of an arithmetic result. *)
Definition wrap_int (z : Z) : Z :=
  (z - min_int) mod 2 ^ int_bits + min_int.

Definition is_int (z : Z) : Prop := min_int <= z <= max_int.

#[global] Instance is_int_dec z : Decision (is_int z).
Proof. unfold is_int. apply _. Defined.

(** [float64(n)] for an [int] n: the nearest binary64, ties to even. *)
Definition float64_of_int (z : Z) : float :=
  SF2Prim (binary_normalize 53 1024 z 0 false).

(** ** [time.Time]

    A time as [time.Date(year, month, day, hour, min, sec, nsec, loc)]
    builds it: what the clock shows in the location of the value, and
    [Offset], the seconds that this location is east of UTC at that time
    (0 for [time.UTC]).  The name of the location and the reading of the
    monotonic clock are not kept: two values of [time.Time] that show the
    same clock at the same offset are the same [Time] here; they [Equal]
    each other and are written alike. *)
Record Time := Date {
  Year : Z; Month : Z; Day : Z;
  Hour : Z; Minute : Z; Second : Z; Nanosecond : Z;
  Offset : Z }.

#[global] Instance Time_eq_dec : EqDecision Time.
Proof. solve_decision. Defined.

(** ** Errors

    One constructor for each place where the source builds an error; the
    comment gives the message of the source. *)
Inductive error :=
| ErrEmptyDescription                 (* "description cannot be empty" *)
| ErrNotFound (id : Z)                (* "todo with ID %d not found" *)
| ErrAlreadyCompleted (id : Z)        (* "todo with ID %d is already completed" *)
| ErrAlreadyIncomplete (id : Z)       (* "todo with ID %d is already incomplete" *)
| ErrSaveTodo (cause : error)         (* "failed to save todo: %w" *)
| ErrMarshal (cause : error)          (* "failed to marshal todos: %w" *)
| ErrWriteFile (cause : error)        (* "failed to write file: %w" *)
| ErrReadFile (cause : error)         (* "failed to read file: %w" *)
| ErrUnmarshal (cause : error)        (* "failed to unmarshal todos: %w" *)
| ErrOS (msg : string)                (* an error of package os *)
| ErrJSON (msg : string)              (* an error of package encoding/json *)
| ErrOther (msg : string).            (* an error a test double is set up with *)

#[global] Instance error_eq_dec : EqDecision error.
Proof. solve_decision. Defined.

Inductive result (A : Type) :=
| Ok (a : A)
| Err (e : error).
Arguments Ok {A} a.
Arguments Err {A} e.

#[global] Instance result_eq_dec `{EqDecision A} : EqDecision (result A).
Proof. solve_decision. Defined.

(** * Package todo *)
Module todo.

(** [type Todo struct] *)
Record Todo := mkTodo {
  ID : Z;
  Description : string;
  Completed : bool;
  CreatedAt : Time;
  CompletedAt : option Time }.

#[global] Instance Todo_eq_dec : EqDecision Todo.
Proof. solve_decision. Defined.

(** Assignments to the fields [Completed] and [CompletedAt] of an item. *)
Definition set_Completed (todo : Todo) (completed : bool) : Todo :=
  mkTodo (ID todo) (Description todo) completed (CreatedAt todo)
         (CompletedAt todo).
Definition set_CompletedAt (todo : Todo) (at_ : option Time) : Todo :=
  mkTodo (ID todo) (Description todo) (Completed todo) (CreatedAt todo) at_.

(** [type Stats struct]; its field [Completed] is [Completed_] here, next
    to the field of the same name of [Todo]. *)
Record Stats := mkStats {
  Total : Z;
  Completed_ : Z;
  Pending : Z }.

(** [func (s Stats) CompletionRate() float64] *)
Definition CompletionRate (s : Stats) : float :=
  if Total s =? 0 then 0%float
  else (float64_of_int (Completed_ s) / float64_of_int (Total s) * 100)%float.

(** [type Repository interface]: an implementation with state [R]. *)
Record Repository (R : Type) := mkRepository {
  Save : R → list Todo → R * option error;
  Load : R → R * result (list Todo) }.
Arguments Save {R} _ _ _.
Arguments Load {R} _ _.

(** [type Service struct].  The [repo] field is the state of the
    repository the service was built on. *)
Record Service (R : Type) := mkService {
  repo : R;
  todos : list Todo;
  nextID : Z }.
Arguments mkService {R} _ _ _.
Arguments repo {R} _.
Arguments todos {R} _.
Arguments nextID {R} _.

Section Service.
Context {R : Type} (impl : Repository R).

Definition with_todos (s : Service R) (ts : list Todo) : Service R :=
  mkService (repo s) ts (nextID s).
Definition with_nextID (s : Service R) (n : Z) : Service R :=
  mkService (repo s) (todos s) n.
Definition with_repo (s : Service R) (r : R) : Service R :=
  mkService r (todos s) (nextID s).

(** [func (s *Service) save() error] *)
Definition save (s : Service R) : Service R * option error :=
  let (r, err) := Save impl (repo s) (todos s) in
  (with_repo s r, err).

(** The body of the loop of [loadTodos], for one item. *)
Definition bump_nextID (n : Z) (todo : Todo) : Z :=
  if ID todo >=? n then wrap_int (ID todo + 1) else n.

(** [func (s *Service) loadTodos() error] *)
Definition loadTodos (s : Service R) : Service R * option error :=
  let (r, res) := Load impl (repo s) in
  match res with
  | Err err => (with_repo s r, Some err)
  | Ok ts => (mkService r ts (fold_left bump_nextID ts (nextID s)), None)
  end.

(** [func NewService(repo Repository) *Service].  The second component is
    the error of the warning that is printed, if any. *)
Definition NewService (r : R) : Service R * option error :=
  loadTodos (mkService r [] 1).

(** [func (s *Service) Add(description string)], returning [*Todo, error] *)
Definition Add (s : Service R) (now : Time) (description : string)
  : Service R * result Todo :=
  if decide (description = "") then (s, Err ErrEmptyDescription)
  else
    let todo := mkTodo (nextID s) description false now None in
    let s := with_todos s (todos s ++ [todo]) in
    let s := with_nextID s (wrap_int (nextID s + 1)) in
    match save s with
    | (s, Some err) => (s, Err (ErrSaveTodo err))
    | (s, None) => (s, Ok todo)
    end.

(** [func (s *Service) GetAll() []Todo] *)
Definition GetAll (s : Service R) : list Todo := todos s.

(** [func (s *Service) GetByStatus(completed bool) []Todo] *)
Definition GetByStatus (s : Service R) (completed : bool) : list Todo :=
  filter (λ todo, Completed todo = completed) (todos s).

(** [func (s *Service) GetByID(id int)], returning [*Todo, error].  The pointer
    [&s.todos[i]] is the index [i], paired with the item it points to. *)
Definition GetByID (s : Service R) (id : Z) : result (nat * Todo) :=
  match list_find (λ todo, ID todo = id) (todos s) with
  | Some p => Ok p
  | None => Err (ErrNotFound id)
  end.

(** [func (s *Service) Complete(id int) error] *)
Definition Complete (s : Service R) (now : Time) (id : Z)
  : Service R * option error :=
  match GetByID s id with
  | Err err => (s, Some err)
  | Ok (i, todo) =>
    if Completed todo then (s, Some (ErrAlreadyCompleted id))
    else
      let todo := set_Completed todo true in
      let todo := set_CompletedAt todo (Some now) in
      save (with_todos s (<[i := todo]> (todos s)))
  end.

(** [func (s *Service) Incomplete(id int) error] *)
Definition Incomplete (s : Service R) (id : Z) : Service R * option error :=
  match GetByID s id with
  | Err err => (s, Some err)
  | Ok (i, todo) =>
    if negb (Completed todo) then (s, Some (ErrAlreadyIncomplete id))
    else
      let todo := set_Completed todo false in
      let todo := set_CompletedAt todo None in
      save (with_todos s (<[i := todo]> (todos s)))
  end.

(** [func (s *Service) Delete(id int) error] *)
Definition Delete (s : Service R) (id : Z) : Service R * option error :=
  match list_find (λ todo, ID todo = id) (todos s) with
  | Some (i, _) =>
    save (with_todos s (take i (todos s) ++ drop (S i) (todos s)))
  | None => (s, Some (ErrNotFound id))
  end.

(** The body of the loop of [GetStats], for one item. *)
Definition tally (stats : Stats) (todo : Todo) : Stats :=
  if Completed todo
  then mkStats (Total stats) (wrap_int (Completed_ stats + 1)) (Pending stats)
  else mkStats (Total stats) (Completed_ stats) (wrap_int (Pending stats + 1)).

(** [func (s *Service) GetStats() Stats] *)
Definition GetStats (s : Service R) : Stats :=
  fold_left tally (todos s) (mkStats (Z.of_nat (length (todos s))) 0 0).

End Service.

(** [type MockRepository struct] of the package's tests: an in-memory
    repository that fails every call once [err] is set. *)
Record MockRepository := mkMock {
  mock_todos : list Todo;
  mock_err : option error }.

Definition Mock_Save (m : MockRepository) (ts : list Todo)
  : MockRepository * option error :=
  match mock_err m with
  | Some err => (m, Some err)
  | None => (mkMock ts (mock_err m), None)
  end.

Definition Mock_Load (m : MockRepository)
  : MockRepository * result (list Todo) :=
  match mock_err m with
  | Some err => (m, Err err)
  | None => (m, Ok (mock_todos m))
  end.

Definition Mock : Repository MockRepository := mkRepository _ Mock_Save Mock_Load.

End todo.

(** * Package os, on one file system

    What [os.Stat], [os.ReadFile] and [os.WriteFile] do with a path: the
    path is absent, a directory (which can be neither read nor written as a
    file, the failure the tests of the repository provoke), or a regular
    file that the process may read and overwrite.

    The model stops there.  A write can also fail on a file that may not
    be written, in a directory that is missing, or on a full disk, and may
    then leave the file cut short; and two names can be names of one file.
    So the properties below take the success of a write as a premise where
    they need it, say nothing of the file after a write that failed, and
    say nothing of other paths than the one written. *)
Module os.

Inductive node :=
| Directory
| Regular (data : string).

(** Path to node; a path without entry does not exist. *)
Abbreviation FileSystem := (gmap string node).

Definition ErrNotExist : error := ErrOS "no such file or directory".
Definition EISDIR : error := ErrOS "is a directory".

(** [os.Stat(name)], its error only. *)
Definition Stat (fs : FileSystem) (name : string) : option error :=
  match fs !! name with
  | None => Some ErrNotExist
  | Some _ => None
  end.

(** [os.IsNotExist(err)] *)
Definition IsNotExist (err : option error) : bool :=
  bool_decide (err = Some ErrNotExist).

(** [os.ReadFile(name)] *)
Definition ReadFile (fs : FileSystem) (name : string) : result string :=
  match fs !! name with
  | None => Err ErrNotExist
  | Some Directory => Err EISDIR
  | Some (Regular data) => Ok data
  end.

(** [os.WriteFile(name, data, perm)]: creates or truncates the file. *)
Definition WriteFile (fs : FileSystem) (name : string) (data : string)
  : FileSystem * option error :=
  match fs !! name with
  | Some Directory => (fs, Some EISDIR)
  | _ => (<[name := Regular data]> fs, None)
  end.

End os.

(** * Package encoding/json, at type [[]Todo]

    The two functions of the library that the repository calls. *)
Module json.

Record Codec := mkCodec {
  (** [json.MarshalIndent(todos, "", "  ")] *)
  MarshalIndent : list todo.Todo → result string;
  (** [json.Unmarshal(data, &todos)] with [todos] a nil slice *)
  Unmarshal : string → result (list todo.Todo) }.

End json.

(** * Package storage *)
Module storage.

(** [type JSONRepository struct] *)
Record JSONRepository := mkJSONRepository {
  filename : string }.

(** [func NewJSONRepository(filename string) *JSONRepository] *)
Definition NewJSONRepository (filename : string) : JSONRepository :=
  mkJSONRepository filename.

Section JSONRepository.
Variable codec : json.Codec.

(** [func (r *JSONRepository) Save(todos []todo.Todo) error] *)
Definition Save (r : JSONRepository) (fs : os.FileSystem)
  (todos : list todo.Todo) : os.FileSystem * option error :=
  match json.MarshalIndent codec todos with
  | Err err => (fs, Some (ErrMarshal err))
  | Ok data =>
    match os.WriteFile fs (filename r) data with
    | (fs, Some err) => (fs, Some (ErrWriteFile err))
    | (fs, None) => (fs, None)
    end
  end.

(** [func (r *JSONRepository) Load() ([]todo.Todo, error)] *)
Definition Load (r : JSONRepository) (fs : os.FileSystem)
  : result (list todo.Todo) :=
  if os.IsNotExist (os.Stat fs (filename r)) then
    (* File does not exist, start with empty todos. *)
    Ok []
  else
    match os.ReadFile fs (filename r) with
    | Err err => Err (ErrReadFile err)
    | Ok data =>
      if (String.length data =? 0)%nat then
        (* Empty file. *)
        Ok []
      else
        match json.Unmarshal codec data with
        | Err err => Err (ErrUnmarshal err)
        | Ok todos => Ok todos
        end
    end.

(** The repository as an implementation of [todo.Repository]; its state
    is the file system. *)
Definition Repository (r : JSONRepository) : todo.Repository os.FileSystem :=
  todo.mkRepository _ (Save r) (λ fs, (fs, Load r fs)).

End JSONRepository.
End storage.

(** * A model of encoding/json at type [[]Todo]

    What [json.MarshalIndent] writes for a slice of [Todo] and what
    [json.Unmarshal] reads into one, after the documentation of the
    library (Go 1.24): the text layout, the escapes of strings and their
    coercion to valid UTF-8, RFC 3339 timestamps, field names matched
    without regard to case, unknown fields skipped.  It stands in for the
    library where the repository is run on concrete files and where a
    property of the repository is one of the library. *)
Module GoJSON.
Import todo.

Local Open Scope N_scope.

Definition chars (s : string) : list ascii := list_ascii_of_string s.
Definition text (l : list ascii) : string := string_of_list_ascii l.
Definition code (c : ascii) : N := N_of_ascii c.
Definition char (n : N) : ascii := ascii_of_N n.

Definition quote : ascii := char 34.
Definition backslash : ascii := char 92.

Definition between (lo hi n : N) : bool := (lo <=? n) && (n <=? hi).

(** *** UTF-8 *)

Definition is_continuation (c : ascii) : bool := between 0x80 0xBF (code c).

(** Length of the well-formed UTF-8 sequence at the head of the input. *)
Definition utf8_prefix (l : list ascii) : option nat :=
  match l with
  | [] => None
  | c0 :: l =>
    let b0 := code c0 in
    if b0 <? 0x80 then Some 1%nat
    else if between 0xC2 0xDF b0 then
      match l with
      | c1 :: _ => if is_continuation c1 then Some 2%nat else None
      | _ => None
      end
    else if between 0xE0 0xEF b0 then
      match l with
      | c1 :: c2 :: _ =>
        let lo := if b0 =? 0xE0 then 0xA0 else 0x80 in
        let hi := if b0 =? 0xED then 0x9F else 0xBF in
        if between lo hi (code c1) && is_continuation c2
        then Some 3%nat else None
      | _ => None
      end
    else if between 0xF0 0xF4 b0 then
      match l with
      | c1 :: c2 :: c3 :: _ =>
        let lo := if b0 =? 0xF0 then 0x90 else 0x80 in
        let hi := if b0 =? 0xF4 then 0x8F else 0xBF in
        if between lo hi (code c1) && is_continuation c2 && is_continuation c3
        then Some 4%nat else None
      | _ => None
      end
    else None
  end.

(** [utf8.AppendRune] *)
Definition utf8_encode (r : N) : list ascii :=
  if r <? 0x80 then [char r]
  else if r <? 0x800 then
    [char (0xC0 + r / 64); char (0x80 + r mod 64)]
  else if r <? 0x10000 then
    [char (0xE0 + r / 4096); char (0x80 + r / 64 mod 64);
     char (0x80 + r mod 64)]
  else
    [char (0xF0 + r / 262144); char (0x80 + r / 4096 mod 64);
     char (0x80 + r / 64 mod 64); char (0x80 + r mod 64)].

(** U+FFFD, the replacement character. *)
Definition replacement : list ascii := utf8_encode 0xFFFD.

(** *** Encoding *)

Definition hex_digit (n : N) : ascii :=
  if n <? 10 then char (48 + n) else char (87 + n).

(** [\u00XX] for a byte. *)
Definition escape_byte (b : N) : list ascii :=
  [backslash; "u"%char; "0"%char; "0"%char; hex_digit (b / 16);
   hex_digit (b mod 16)].

(** One ASCII byte of a string, with HTML escaping on as in [Marshal]. *)
Definition encode_ascii (c : ascii) : list ascii :=
  let b := code c in
  if (b =? 34) || (b =? 92) then [backslash; c]
  else if b =? 8 then [backslash; "b"%char]
  else if b =? 12 then [backslash; "f"%char]
  else if b =? 10 then [backslash; "n"%char]
  else if b =? 13 then [backslash; "r"%char]
  else if b =? 9 then [backslash; "t"%char]
  else if (b <? 0x20) || (b =? 60) || (b =? 62) || (b =? 38) then escape_byte b
  else [c].

Definition line_separator : list ascii := utf8_encode 0x2028.
Definition paragraph_separator : list ascii := utf8_encode 0x2029.

Fixpoint encode_bytes (fuel : nat) (l : list ascii) : list ascii :=
  match fuel, l with
  | S fuel, c :: rest =>
    if code c <? 0x80 then encode_ascii c ++ encode_bytes fuel rest
    else
      match utf8_prefix l with
      | Some n =>
        let rune := take n l in
        (if bool_decide (rune = line_separator) then backslash :: chars "u2028"
         else if bool_decide (rune = paragraph_separator) then backslash :: chars "u2029"
         else rune) ++ encode_bytes fuel (drop n l)
      | None => backslash :: chars "ufffd" ++ encode_bytes fuel rest
      end
  | _, _ => []
  end.

Definition encode_string (s : string) : list ascii :=
  [quote] ++ encode_bytes (String.length s) (chars s) ++ [quote].

Definition digit (d : Z) : ascii := char (Z.to_N (48 + d)).

(** A number in a fixed count of decimal digits. *)
Fixpoint digits (width : nat) (n : Z) : list ascii :=
  match width with
  | O => []
  | S width => digits width (n / 10)%Z ++ [digit (n mod 10)%Z]
  end.

(** A natural number in decimal, by repeated division as in
    [strconv.FormatInt]; twenty digits hold every [int]. *)
Fixpoint decimal_go (fuel : nat) (n : Z) (acc : list ascii) : list ascii :=
  match fuel with
  | O => acc
  | S fuel =>
    let acc := digit (n mod 10)%Z :: acc in
    if (n / 10 =? 0)%Z then acc else decimal_go fuel (n / 10)%Z acc
  end.

Definition decimal (n : Z) : list ascii := decimal_go 20 n [].

Definition encode_int (z : Z) : list ascii :=
  if (z <? 0)%Z then "-"%char :: decimal (- z) else decimal z.

Fixpoint strip_zeros (rev_digits : list ascii) : list ascii :=
  match rev_digits with
  | c :: l => if bool_decide (c = "0"%char) then strip_zeros l else rev_digits
  | [] => []
  end.

(** The fraction of a second of an RFC 3339 timestamp, cut after its last
    digit that is not zero. *)
Definition encode_fraction (nsec : Z) : list ascii :=
  if (nsec =? 0)%Z then []
  else "."%char :: rev (strip_zeros (rev (digits 9 nsec))).

(** The zone of an RFC 3339 timestamp: [Z] for the offset 0, else the
    offset in hours and minutes; [offset / 60] drops the seconds of the
    offset. *)
Definition encode_zone (offset : Z) : list ascii :=
  if (offset =? 0)%Z then ["Z"%char]
  else
    let zone := (offset ÷ 60)%Z in
    (if (zone <? 0)%Z then "-"%char else "+"%char)
    :: digits 2 (Z.abs zone / 60)%Z ++ ":"%char :: digits 2 (Z.abs zone mod 60)%Z.

(** [t.appendFormatRFC3339(b, true)]: the clock of the value's own
    location, then its zone. *)
Definition format_time (t : Time) : list ascii :=
  digits 4 (Year t) ++ "-"%char :: digits 2 (Month t)
  ++ "-"%char :: digits 2 (Day t) ++ "T"%char :: digits 2 (Hour t)
  ++ ":"%char :: digits 2 (Minute t) ++ ":"%char :: digits 2 (Second t)
  ++ encode_fraction (Nanosecond t) ++ encode_zone (Offset t).

(** [Time.MarshalJSON]: RFC 3339 with nanoseconds, for a year of four
    digits and a zone of less than 24 hours. *)
Definition encode_time (t : Time) : result (list ascii) :=
  if bool_decide (0 ≤ Year t ≤ 9999)%Z then
    if bool_decide (Z.abs (Offset t ÷ 60) / 60 < 24)%Z then
      Ok (quote :: format_time t ++ [quote])
    else
      Err (ErrJSON "Time.MarshalJSON: timezone hour outside of range [0,23]")
  else Err (ErrJSON "Time.MarshalJSON: year outside of range [0,9999]").

Definition newline : ascii := char 10.

(** One member of an object, on its line. *)
Definition encode_member (member : string * list ascii) : list ascii :=
  chars "    " ++ quote :: chars member.1 ++ quote :: chars ": " ++ member.2.

(** The lines of a list of members or items: a comma after each but the
    last. *)
Fixpoint encode_lines (lines : list (list ascii)) : list ascii :=
  match lines with
  | [] => []
  | [line] => line ++ [newline]
  | line :: lines => line ++ ","%char :: newline :: encode_lines lines
  end.

(** The members of an item: [completed_at] is left out when absent. *)
Definition encode_members (todo : Todo) : result (list (string * list ascii)) :=
  match encode_time (CreatedAt todo) with
  | Err err => Err err
  | Ok created =>
    let members :=
      [ ("id"%string, encode_int (ID todo));
        ("description"%string, encode_string (Description todo));
        ("completed"%string,
         chars (if Completed todo then "true" else "false"));
        ("created_at"%string, created) ] in
    match CompletedAt todo with
    | None => Ok members
    | Some t =>
      match encode_time t with
      | Err err => Err err
      | Ok completed => Ok (members ++ [("completed_at"%string, completed)])
      end
    end
  end.

Definition encode_todo (todo : Todo) : result (list ascii) :=
  match encode_members todo with
  | Err err => Err err
  | Ok members =>
    Ok (chars "  {" ++ newline :: encode_lines (encode_member <$> members)
        ++ chars "  }")
  end.

Fixpoint encode_todos (ts : list Todo) : result (list (list ascii)) :=
  match ts with
  | [] => Ok []
  | todo :: ts =>
    match encode_todo todo, encode_todos ts with
    | Ok item, Ok items => Ok (item :: items)
    | Err err, _ => Err err
    | _, Err err => Err err
    end
  end.

(** [json.MarshalIndent(todos, prefix, indent)] with no prefix and an
    indent of two spaces. *)
Definition MarshalIndent (ts : list Todo) : result string :=
  match ts with
  | [] => Ok "[]"%string
  | _ =>
    match encode_todos ts with
    | Ok items => Ok (text ("["%char :: newline :: encode_lines items ++ ["]"%char]))
    | Err err => Err err
    end
  end.

(** *** Decoding: JSON texts *)

#[local] Unset Elimination Schemes.
Inductive value :=
| Null
| Bool (b : bool)
| Number (literal : list ascii)
| String_ (raw : list ascii) (s : list ascii)
| Array (elements : list value)
| Object (members : list (list ascii * value)).
#[local] Set Elimination Schemes.

(** The errors of the decoder; the message texts are abridged. *)
Definition SyntaxEnd : error := ErrJSON "unexpected end of JSON input".
Definition SyntaxChar : error := ErrJSON "invalid character".
Definition TypeError : error := ErrJSON "cannot unmarshal into Go value".
Definition TimeError : error := ErrJSON "parsing time: cannot parse".

Inductive parsed (A : Type) :=
| Parsed (a : A) (rest : list ascii)
| Rejected (err : error).
Arguments Parsed {A} a rest.
Arguments Rejected {A} err.

Definition is_space (c : ascii) : bool :=
  let b := code c in (b =? 32) || (b =? 9) || (b =? 10) || (b =? 13).

Fixpoint skip_space (l : list ascii) : list ascii :=
  match l with
  | c :: rest => if is_space c then skip_space rest else l
  | [] => []
  end.

Definition is_digit (c : ascii) : bool := between 48 57 (code c).

Fixpoint span_digits (l : list ascii) : list ascii * list ascii :=
  match l with
  | c :: rest =>
    if is_digit c then let (ds, rest) := span_digits rest in (c :: ds, rest)
    else ([], l)
  | [] => ([], [])
  end.

Definition hex_value (c : ascii) : option N :=
  let b := code c in
  if between 48 57 b then Some (b - 48)
  else if between 97 102 b then Some (b - 87)
  else if between 65 70 b then Some (b - 55)
  else None.

(** Four hexadecimal digits. *)
Fixpoint hex4 (n : nat) (acc : N) (l : list ascii) : parsed N :=
  match n with
  | O => Parsed acc l
  | S n =>
    match l with
    | [] => Rejected SyntaxEnd
    | c :: rest =>
      match hex_value c with
      | Some h => hex4 n (16 * acc + h) rest
      | None => Rejected SyntaxChar
      end
    end
  end.

Definition simple_escape (c : ascii) : option ascii :=
  let b := code c in
  if (b =? 34) || (b =? 92) || (b =? 47) then Some c
  else if b =? 98 then Some (char 8)
  else if b =? 102 then Some (char 12)
  else if b =? 110 then Some (char 10)
  else if b =? 114 then Some (char 13)
  else if b =? 116 then Some (char 9)
  else None.

(** The low surrogate escape that completes a pair, if it is next. *)
Definition low_surrogate (l : list ascii) : option (N * list ascii) :=
  match l with
  | c :: u :: rest =>
    if (code c =? 92) && (code u =? 117) then
      match hex4 4 0 rest with
      | Parsed r rest => if between 0xDC00 0xDFFF r then Some (r, rest) else None
      | Rejected _ => None
      end
    else None
  | _ => None
  end.

(** A string after its opening quote; [acc] is the output so far, in
    reverse.  Invalid UTF-8 and unpaired surrogates become U+FFFD. *)
Fixpoint parse_string (fuel : nat) (l acc : list ascii)
  : parsed (list ascii) :=
  match fuel, l with
  | S fuel, c :: rest =>
    let b := code c in
    if b =? 34 then Parsed (rev acc) rest
    else if b =? 92 then
      match rest with
      | [] => Rejected SyntaxEnd
      | e :: rest =>
        match simple_escape e with
        | Some x => parse_string fuel rest (x :: acc)
        | None =>
          if code e =? 117 then
            match hex4 4 0 rest with
            | Rejected err => Rejected err
            | Parsed r rest =>
              if between 0xD800 0xDBFF r then
                match low_surrogate rest with
                | Some (r2, rest2) =>
                  let rune := 0x10000 + (r - 0xD800) * 0x400 + (r2 - 0xDC00) in
                  parse_string fuel rest2 (rev (utf8_encode rune) ++ acc)
                | None => parse_string fuel rest (rev replacement ++ acc)
                end
              else if between 0xDC00 0xDFFF r then
                parse_string fuel rest (rev replacement ++ acc)
              else parse_string fuel rest (rev (utf8_encode r) ++ acc)
            end
          else Rejected SyntaxChar
        end
      end
    else if b <? 0x20 then Rejected SyntaxChar
    else if b <? 0x80 then parse_string fuel rest (c :: acc)
    else
      match utf8_prefix l with
      | Some n => parse_string fuel (drop n l) (rev (take n l) ++ acc)
      | None => parse_string fuel rest (rev replacement ++ acc)
      end
  | _, _ => Rejected SyntaxEnd
  end.

(** A string after its opening quote, with the bytes between the quotes
    as they stand in the text. *)
Definition parse_quoted (l : list ascii) : parsed (list ascii * list ascii) :=
  match parse_string (length l) l [] with
  | Parsed s rest => Parsed (take (length l - length rest - 1) l, s) rest
  | Rejected err => Rejected err
  end.

Definition missing_digits {A} (rest : list ascii) : parsed A :=
  match rest with [] => Rejected SyntaxEnd | _ => Rejected SyntaxChar end.

Definition parse_exponent (lit l : list ascii) : parsed (list ascii) :=
  match l with
  | e :: rest =>
    if (code e =? 101) || (code e =? 69) then
      let (sign, rest) :=
        match rest with
        | c :: rest' =>
          if (code c =? 43) || (code c =? 45) then ([c], rest') else ([], rest)
        | [] => ([], rest)
        end in
      let (ds, rest) := span_digits rest in
      match ds with
      | [] => missing_digits rest
      | _ => Parsed (lit ++ e :: sign ++ ds) rest
      end
    else Parsed lit l
  | [] => Parsed lit l
  end.

Definition parse_fraction (lit l : list ascii) : parsed (list ascii) :=
  match l with
  | c :: rest =>
    if code c =? 46 then
      let (ds, rest) := span_digits rest in
      match ds with
      | [] => missing_digits rest
      | _ => parse_exponent (lit ++ c :: ds) rest
      end
    else parse_exponent lit l
  | [] => Parsed lit l
  end.

Definition parse_number (l : list ascii) : parsed (list ascii) :=
  let (sign, l) :=
    match l with
    | c :: rest => if code c =? 45 then ([c], rest) else ([], l)
    | [] => ([], l)
    end in
  match l with
  | c :: rest =>
    if code c =? 48 then parse_fraction (sign ++ [c]) rest
    else if between 49 57 (code c) then
      let (ds, rest) := span_digits rest in
      parse_fraction (sign ++ c :: ds) rest
    else Rejected SyntaxChar
  | [] => Rejected SyntaxEnd
  end.

(** The rest of a literal name. *)
Fixpoint parse_word (w l : list ascii) : parsed unit :=
  match w, l with
  | [], _ => Parsed () l
  | _, [] => Rejected SyntaxEnd
  | a :: w, c :: l =>
    if bool_decide (a = c) then parse_word w l else Rejected SyntaxChar
  end.

Definition parse_literal (w : string) (v : value) (l : list ascii)
  : parsed value :=
  match parse_word (chars w) l with
  | Parsed _ rest => Parsed v rest
  | Rejected err => Rejected err
  end.

Fixpoint parse_value (fuel : nat) (l : list ascii) : parsed value :=
  match fuel with
  | O => Rejected SyntaxEnd
  | S fuel =>
    match skip_space l with
    | [] => Rejected SyntaxEnd
    | c :: rest =>
      let b := code c in
      if b =? 123 then
        match skip_space rest with
        | c' :: rest' =>
          if code c' =? 125 then Parsed (Object []) rest'
          else parse_members fuel (c' :: rest') []
        | [] => Rejected SyntaxEnd
        end
      else if b =? 91 then
        match skip_space rest with
        | c' :: rest' =>
          if code c' =? 93 then Parsed (Array []) rest'
          else parse_elements fuel (c' :: rest') []
        | [] => Rejected SyntaxEnd
        end
      else if b =? 34 then
        match parse_quoted rest with
        | Parsed (raw, s) rest => Parsed (String_ raw s) rest
        | Rejected err => Rejected err
        end
      else if b =? 110 then parse_literal "ull" Null rest
      else if b =? 116 then parse_literal "rue" (Bool true) rest
      else if b =? 102 then parse_literal "alse" (Bool false) rest
      else if (b =? 45) || is_digit c then
        match parse_number (c :: rest) with
        | Parsed lit rest => Parsed (Number lit) rest
        | Rejected err => Rejected err
        end
      else Rejected SyntaxChar
    end
  end

with parse_elements (fuel : nat) (l : list ascii) (acc : list value)
  : parsed value :=
  match fuel with
  | O => Rejected SyntaxEnd
  | S fuel =>
    match parse_value fuel l with
    | Rejected err => Rejected err
    | Parsed v rest =>
      match skip_space rest with
      | [] => Rejected SyntaxEnd
      | c :: rest =>
        if code c =? 44 then parse_elements fuel rest (v :: acc)
        else if code c =? 93 then Parsed (Array (rev (v :: acc))) rest
        else Rejected SyntaxChar
      end
    end
  end

with parse_members (fuel : nat) (l : list ascii)
  (acc : list (list ascii * value)) : parsed value :=
  match fuel with
  | O => Rejected SyntaxEnd
  | S fuel =>
    match skip_space l with
    | [] => Rejected SyntaxEnd
    | q :: rest =>
      if code q =? 34 then
        match parse_quoted rest with
        | Rejected err => Rejected err
        | Parsed (_, key) rest =>
          match skip_space rest with
          | [] => Rejected SyntaxEnd
          | colon :: rest =>
            if code colon =? 58 then
              match parse_value fuel rest with
              | Rejected err => Rejected err
              | Parsed v rest =>
                match skip_space rest with
                | [] => Rejected SyntaxEnd
                | c :: rest =>
                  if code c =? 44 then parse_members fuel rest ((key, v) :: acc)
                  else if code c =? 125
                  then Parsed (Object (rev ((key, v) :: acc))) rest
                  else Rejected SyntaxChar
                end
              end
            else Rejected SyntaxChar
          end
        end
      else Rejected SyntaxChar
    end
  end.

(** A whole JSON text. *)
Definition parse (data : string) : result value :=
  let l := chars data in
  match parse_value (2 * length l + 1) l with
  | Rejected err => Err err
  | Parsed v rest =>
    match skip_space rest with
    | [] => Ok v
    | _ => Err SyntaxChar
    end
  end.

(** *** Decoding: timestamps *)

Local Open Scope Z_scope.

Definition leap_year (y : Z) : bool :=
  (y mod 4 =? 0) && (negb (y mod 100 =? 0) || (y mod 400 =? 0)).

Definition days_in (month year : Z) : Z :=
  if month =? 2 then (if leap_year year then 29 else 28)
  else if (month =? 4) || (month =? 6) || (month =? 9) || (month =? 11)
  then 30 else 31.

(** The number that a sequence of decimal digits denotes. *)
Definition number (ds : list ascii) : Z :=
  fold_left (λ x c, 10 * x + Z.of_N (code c - 48)) ds 0.

(** An unsigned decimal number within a range. *)
Definition parse_uint (l : list ascii) (lo hi : Z) : option Z :=
  if forallb is_digit l then
    let x := number l in
    if (lo <=? x) && (x <=? hi) then Some x else None
  else None.

Definition is_char (l : list ascii) (i : nat) (c : ascii) : bool :=
  bool_decide (l !! i = Some c).

Definition slice (l : list ascii) (i j : nat) : list ascii :=
  take (j - i) (drop i l).

(** The fractional second: up to nine digits count. *)
Definition parse_nanoseconds (ds : list ascii) : Z :=
  let ds := take 9 ds in
  number ds * 10 ^ Z.of_nat (9 - length ds).

(** A numeric zone of an RFC 3339 timestamp: its offset in seconds. *)
Definition parse_offset (l : list ascii) : option Z :=
  if (length l =? 6)%nat then
    match parse_uint (slice l 1 3) 0 23, parse_uint (slice l 4 6) 0 59 with
    | Some hr, Some mm =>
      if (is_char l 0 "-"%char || is_char l 0 "+"%char) && is_char l 3 ":"%char
      then Some ((if is_char l 0 "-"%char then -1 else 1) * (hr * 60 + mm) * 60)
      else None
    | _, _ => None
    end
  else None.

(** [parseRFC3339]: the timestamps of the strict form.  The clock that
    the text shows is the clock of the value, in a location of the offset
    that the text gives. *)
Definition parseRFC3339 (l : list ascii) : option Time :=
  if (length l <? 19)%nat then None
  else
    match parse_uint (slice l 0 4) 0 9999, parse_uint (slice l 5 7) 1 12 with
    | Some year, Some month =>
      match parse_uint (slice l 8 10) 1 (days_in month year),
            parse_uint (slice l 11 13) 0 23,
            parse_uint (slice l 14 16) 0 59,
            parse_uint (slice l 17 19) 0 59 with
      | Some day, Some hour, Some min, Some sec =>
        if is_char l 4 "-"%char && is_char l 7 "-"%char
           && is_char l 10 "T"%char && is_char l 13 ":"%char
           && is_char l 16 ":"%char
        then
          let l := drop 19 l in
          let '(nsec, l) :=
            match l with
            | dot :: d :: _ =>
              if bool_decide (dot = "."%char) && is_digit d then
                let (ds, l) := span_digits (drop 1 l) in
                (parse_nanoseconds ds, l)
              else (0, l)
            | _ => (0, l)
            end in
          if bool_decide (l = ["Z"%char])
          then Some (Date year month day hour min sec nsec 0)
          else
            match parse_offset l with
            | Some offset => Some (Date year month day hour min sec nsec offset)
            | None => None
            end
        else None
      | _, _, _, _ => None
      end
    | _, _ => None
    end.

(** [getnum(s, fixed)] of package time: a number of two digits, or of one
    digit when [fixed] is false and no second digit follows. *)
Definition getnum (l : list ascii) (fixed : bool) : option (Z * list ascii) :=
  match l with
  | c0 :: rest =>
    if is_digit c0 then
      match rest with
      | c1 :: rest1 =>
        if is_digit c1 then Some (number [c0; c1], rest1)
        else if fixed then None else Some (number [c0], rest)
      | [] => if fixed then None else Some (number [c0], rest)
      end
    else None
  | [] => None
  end.

(** [skip(value, prefix)] for a prefix of one character. *)
Definition skip (l : list ascii) (c : ascii) : option (list ascii) :=
  match l with
  | c' :: rest => if bool_decide (c' = c) then Some rest else None
  | [] => None
  end.

(** The fraction of a second that [time.Parse] reads after the seconds,
    behind a period or a comma, where the layout has none. *)
Definition parse_fraction_layout (l : list ascii) : Z * list ascii :=
  match l with
  | sep :: d :: _ =>
    if (bool_decide (sep = "."%char) || bool_decide (sep = ","%char))
       && is_digit d
    then let (ds, l) := span_digits (drop 1 l) in (parse_nanoseconds ds, l)
    else (0, l)
  | _ => (0, l)
  end.

(** The zone [Z07:00] of the layout: [Z], or a sign, two digits of hours,
    a colon and two digits of minutes; hours up to 24 and minutes up to
    60 pass. *)
Definition parse_zone_layout (l : list ascii) : option (Z * list ascii) :=
  match l with
  | z :: rest =>
    if bool_decide (z = "Z"%char) then Some (0, rest)
    else if (length l <? 6)%nat then None
    else if negb (is_char l 3 ":"%char) then None
    else
      match getnum (slice l 1 3) true, getnum (slice l 4 6) true with
      | Some (hr, _), Some (mm, _) =>
        if (24 <? hr) || (60 <? mm) then None
        else if is_char l 0 "+"%char then Some ((hr * 60 + mm) * 60, drop 6 l)
        else if is_char l 0 "-"%char then Some (- ((hr * 60 + mm) * 60), drop 6 l)
        else None
      | _, _ => None
      end
  | [] => None
  end.

(** [time.Parse(time.RFC3339, s)], the layout [2006-01-02T15:04:05Z07:00]
    taken piece by piece: it reads an hour of one digit and a comma before
    the fraction of a second, which the strict form does not have. *)
Definition parse_layout (l : list ascii) : option Time :=
  if (length l <? 4)%nat then None
  else
    match parse_uint (take 4 l) 0 9999 with
    | None => None
    | Some year =>
      l ← skip (drop 4 l) "-"%char;
      '(month, l) ← getnum l true;
      if (month <=? 0) || (12 <? month) then None else
      l ← skip l "-"%char;
      '(day, l) ← getnum l true;
      l ← skip l "T"%char;
      '(hour, l) ← getnum l false;
      if 24 <=? hour then None else
      l ← skip l ":"%char;
      '(min, l) ← getnum l true;
      if 60 <=? min then None else
      l ← skip l ":"%char;
      '(sec, l) ← getnum l true;
      if 60 <=? sec then None else
      let (nsec, l) := parse_fraction_layout l in
      '(offset, l) ← parse_zone_layout l;
      if negb (bool_decide (l = [])) then None
      else if (day <? 1) || (days_in month year <? day) then None
      else Some (Date year month day hour min sec nsec offset)
    end.

(** [parseStrictRFC3339] as [Time.UnmarshalJSON] uses it: the strict
    form, and when that fails [time.Parse] with the layout, whose result
    is taken as it is. *)
Definition parse_time (l : list ascii) : option Time :=
  match parseRFC3339 l with
  | Some t => Some t
  | None => parse_layout l
  end.

(** [Time.UnmarshalJSON] on a value that is not [null]; a string is taken
    as it stands in the text, escapes are not resolved. *)
Definition decode_time (v : value) : result Time :=
  match v with
  | String_ raw _ =>
    match parse_time raw with
    | Some t => Ok t
    | None => Err TimeError
    end
  | _ => Err (ErrJSON "Time.UnmarshalJSON: input is not a JSON string")
  end.

(** *** Decoding: items *)

(** A key with the case folded: ASCII letters, the long s (U+017F) and the
    Kelvin sign (U+212A). *)
Fixpoint fold_case (l : list ascii) : list ascii :=
  match l with
  | [] => []
  | c :: rest =>
    let b := code c in
    if between 65 90 b then char (b + 32)%N :: fold_case rest
    else
      match rest with
      | c1 :: rest1 =>
        if (b =? 0xC5)%N && (code c1 =? 0xBF)%N then "s"%char :: fold_case rest1
        else
          match rest1 with
          | c2 :: rest2 =>
            if (b =? 0xE2)%N && (code c1 =? 0x84)%N && (code c2 =? 0xAA)%N
            then "k"%char :: fold_case rest2
            else c :: fold_case rest
          | [] => c :: fold_case rest
          end
      | [] => [c]
      end
  end.

(** [strconv.ParseInt(literal, 10, 64)] *)
Definition decode_int (lit : list ascii) : result Z :=
  let (negative, ds) :=
    match lit with
    | c :: rest => if (code c =? 45)%N then (true, rest) else (false, lit)
    | [] => (false, lit)
    end in
  if forallb is_digit ds && negb (bool_decide (ds = [])) then
    let z := if negative then - number ds else number ds in
    if bool_decide (min_int ≤ z ≤ max_int) then Ok z else Err TypeError
  else Err TypeError.

(** The zero values. *)
Definition zero_time : Time := Date 1 1 1 0 0 0 0 0.
Definition zero_todo : Todo := mkTodo 0 "" false zero_time None.

(** One member of an object, stored into the item. *)
Definition decode_member (todo : Todo) (member : list ascii * value)
  : result Todo :=
  let (key, v) := member in
  let name := text (fold_case key) in
  if bool_decide (name = "id") then
    match v with
    | Null => Ok todo
    | Number lit =>
      match decode_int lit with
      | Ok id =>
        Ok (mkTodo id (Description todo) (Completed todo) (CreatedAt todo)
                   (CompletedAt todo))
      | Err err => Err err
      end
    | _ => Err TypeError
    end
  else if bool_decide (name = "description") then
    match v with
    | Null => Ok todo
    | String_ _ s =>
      Ok (mkTodo (ID todo) (text s) (Completed todo) (CreatedAt todo)
                 (CompletedAt todo))
    | _ => Err TypeError
    end
  else if bool_decide (name = "completed") then
    match v with
    | Null => Ok todo
    | Bool b => Ok (set_Completed todo b)
    | _ => Err TypeError
    end
  else if bool_decide (name = "created_at") then
    match v with
    | Null => Ok todo
    | _ =>
      match decode_time v with
      | Ok t =>
        Ok (mkTodo (ID todo) (Description todo) (Completed todo) t
                   (CompletedAt todo))
      | Err err => Err err
      end
    end
  else if bool_decide (name = "completed_at") then
    match v with
    | Null => Ok (set_CompletedAt todo None)
    | _ =>
      match decode_time v with
      | Ok t => Ok (set_CompletedAt todo (Some t))
      | Err err => Err err
      end
    end
  else Ok todo.

Fixpoint decode_members (todo : Todo) (members : list (list ascii * value))
  : result Todo :=
  match members with
  | [] => Ok todo
  | member :: members =>
    match decode_member todo member with
    | Ok todo => decode_members todo members
    | Err err => Err err
    end
  end.

Definition decode_todo (v : value) : result Todo :=
  match v with
  | Null => Ok zero_todo
  | Object members => decode_members zero_todo members
  | _ => Err TypeError
  end.

Fixpoint decode_todos (vs : list value) : result (list Todo) :=
  match vs with
  | [] => Ok []
  | v :: vs =>
    match decode_todo v, decode_todos vs with
    | Ok todo, Ok ts => Ok (todo :: ts)
    | Err err, _ => Err err
    | _, Err err => Err err
    end
  end.

(** [json.Unmarshal(data, &todos)] *)
Definition Unmarshal (data : string) : result (list Todo) :=
  match parse data with
  | Err err => Err err
  | Ok Null => Ok []
  | Ok (Array vs) => decode_todos vs
  | Ok _ => Err TypeError
  end.

Definition codec : json.Codec := json.mkCodec MarshalIndent Unmarshal.

(** *** What the encoder writes, as the decoder reads it *)

(** [utf8.Valid] *)
Fixpoint well_formed_utf8 (fuel : nat) (l : list ascii) : bool :=
  match l with
  | [] => true
  | _ =>
    match fuel with
    | O => false
    | S fuel =>
      match utf8_prefix l with
      | Some n => well_formed_utf8 fuel (drop n l)
      | None => false
      end
    end
  end.

(** The characters that stand for themselves in a string. *)
Definition is_plain (c : ascii) : bool :=
  between 0x20 0x7F (code c) && negb (code c =? 34)%N && negb (code c =? 92)%N.

(** A decimal numeral: digits, at least one, no leading zero. *)
Definition numeral (ds : list ascii) : Prop :=
  forallb is_digit ds = true ∧
  ∃ c ds', ds = c :: ds' ∧ (c = "0"%char → ds' = []).

(** Where a number literal starts. *)
Definition number_head (lit : list ascii) : Prop :=
  ∃ c tl, lit = c :: tl ∧ (c = "-"%char ∨ is_digit c = true).

(** The values of [time.Time] that [Time.MarshalJSON] writes in full: a
    time of the calendar in the years 0 to 9999, in a zone whose offset is
    a whole number of minutes, less than 24 hours. *)
Definition valid_time (t : Time) : Prop :=
  0 ≤ Year t ≤ 9999 ∧ 1 ≤ Month t ≤ 12 ∧
  1 ≤ Day t ≤ days_in (Month t) (Year t) ∧
  0 ≤ Hour t ≤ 23 ∧ 0 ≤ Minute t ≤ 59 ∧ 0 ≤ Second t ≤ 59 ∧
  0 ≤ Nanosecond t ≤ 999999999 ∧
  Offset t mod 60 = 0 ∧ -86400 < Offset t < 86400.

(** What follows a value in the output of the encoder. *)
Definition terminator (t : ascii) : Prop := t = ","%char ∨ t = newline.

(** A text that the parser reads as the value [v], after the space that
    follows the colon and before a comma or the end of the line. *)
Definition renders (text : list ascii) (v : value) : Prop :=
  ∀ fuel t rest, terminator t →
    parse_value (S fuel) (" "%char :: text ++ t :: rest) = Parsed v (t :: rest).

(** A member as the encoder writes it and as the parser reads it. *)
Definition member_renders (m : string * list ascii)
  (kv : list ascii * value) : Prop :=
  kv.1 = chars m.1 ∧ forallb is_plain (chars m.1) = true ∧ renders m.2 kv.2.

(** An item, or any text that the parser reads as the value [v] whatever
    follows. *)
Definition item_renders (item : list ascii) (v : value) : Prop :=
  (7 ≤ length item)%nat ∧ (∃ tail, item = chars "  {" ++ tail) ∧
  ∀ fuel rest, (6 < fuel)%nat → parse_value fuel (item ++ rest) = Parsed v rest.

(** The items that the file holds as they are: an identifier that is an
    [int], a description that is UTF-8 text, and times of the calendar,
    years 0 to 9999, in zones of whole minutes. *)
Definition storable (todo : Todo) : Prop :=
  is_int (ID todo) ∧
  well_formed_utf8 (String.length (Description todo))
    (chars (Description todo)) = true ∧
  valid_time (CreatedAt todo) ∧
  from_option valid_time True (CompletedAt todo).

End GoJSON.

(** * Packages strings and strconv, as the commands use them *)

Module strings.

(** [strings.Join(elems, sep)] *)
Fixpoint Join (elems : list string) (sep : string) : string :=
  match elems with
  | [] => ""
  | [elem] => elem
  | elem :: elems => elem +:+ sep +:+ Join elems sep
  end.

End strings.

Module strconv.
Import GoJSON.

(** [strconv.Itoa(i)]; the verb [%d] of [fmt.Printf] writes an [int] the
    same way. *)
Definition Itoa (i : Z) : string := text (encode_int i).

(** The two errors of [strconv.Atoi]. *)
Inductive NumError := ErrSyntax | ErrRange.

(** [strconv.Atoi(s)]: an optional sign, then decimal digits, at least
    one of them; the number has to be an [int]. *)
Definition Atoi (s : string) : Z + NumError :=
  let (negative, ds) :=
    match chars s with
    | c :: rest =>
      if (code c =? 45)%N then (true, rest)
      else if (code c =? 43)%N then (false, rest)
      else (false, c :: rest)
    | [] => (false, [])
    end in
  if forallb is_digit ds && negb (bool_decide (ds = [])) then
    let n := if negative then - number ds else number ds in
    if bool_decide (min_int ≤ n ≤ max_int) then inl n else inr ErrRange
  else inr ErrSyntax.

End strconv.

(** * Package cli

    A command takes the service and its arguments, changes the service,
    and either prints a text on standard output and returns nil, or
    returns an error. *)
Module cli.
Import todo strconv.

(** The errors the commands build, and the errors of the service, which
    the commands return as they are. *)
Inductive failure :=
| DescriptionRequired             (* "description is required" *)
| IDRequired                      (* "todo ID is required" *)
| InvalidID (arg : string)        (* "invalid todo ID: %s" *)
| FromService (err : error).

Inductive outcome :=
| Printed (out : string)
| Returned (err : failure).

Definition line_break : string := String (ascii_of_N 10) EmptyString.

(** The array under [s.todos], on the places of the slice, after the
    statement [s.todos = append(s.todos[:i], s.todos[i+1:]...)] of
    [Delete]: the slice [s.todos[:i]] has the capacity of [s.todos], so
    [append] writes into the same array; it copies the items after place
    [i] one place down and leaves the last place as it was. *)
Definition array_after_Delete (array : list Todo) (i : nat) : list Todo :=
  take i array ++ drop (S i) array ++ drop (length array - 1) array.

Section Commands.
Context {R : Type} (impl : Repository R).

(** [func AddCommand(service *todo.Service, args []string) error] *)
Definition AddCommand (s : Service R) (now : Time) (args : list string)
  : Service R * outcome :=
  match args with
  | [] => (s, Returned DescriptionRequired)
  | _ =>
    let description := strings.Join args " " in
    match Add impl s now description with
    | (s, Err err) => (s, Returned (FromService err))
    | (s, Ok todoItem) =>
      (s, Printed ("Added todo #" +:+ Itoa (ID todoItem) +:+ ": "
                   +:+ Description todoItem +:+ line_break))
    end
  end.

(** [func CompleteCommand(service *todo.Service, args []string) error] *)
Definition CompleteCommand (s : Service R) (now : Time) (args : list string)
  : Service R * outcome :=
  match args with
  | [] => (s, Returned IDRequired)
  | arg :: _ =>
    match Atoi arg with
    | inr _ => (s, Returned (InvalidID arg))
    | inl id =>
      match Complete impl s now id with
      | (s, Some err) => (s, Returned (FromService err))
      | (s, None) =>
        (s, Printed ("Marked todo #" +:+ Itoa id +:+ " as completed"
                     +:+ line_break))
      end
    end
  end.

(** [func IncompleteCommand(service *todo.Service, args []string) error] *)
Definition IncompleteCommand (s : Service R) (args : list string)
  : Service R * outcome :=
  match args with
  | [] => (s, Returned IDRequired)
  | arg :: _ =>
    match Atoi arg with
    | inr _ => (s, Returned (InvalidID arg))
    | inl id =>
      match Incomplete impl s id with
      | (s, Some err) => (s, Returned (FromService err))
      | (s, None) =>
        (s, Printed ("Marked todo #" +:+ Itoa id +:+ " as incomplete"
                     +:+ line_break))
      end
    end
  end.

(** [func DeleteCommand(service *todo.Service, args []string) error].
    [todoItem] is the pointer [&s.todos[i]] that [GetByID] returns; it is
    read after [Delete], in the array as [Delete] left it. *)
Definition DeleteCommand (s : Service R) (args : list string)
  : Service R * outcome :=
  match args with
  | [] => (s, Returned IDRequired)
  | arg :: _ =>
    match Atoi arg with
    | inr _ => (s, Returned (InvalidID arg))
    | inl id =>
      match GetByID s id with
      | Err err => (s, Returned (FromService err))
      | Ok (i, _) =>
        let array := todos s in
        match Delete impl s id with
        | (s, Some err) => (s, Returned (FromService err))
        | (s, None) =>
          let todoItem := array_after_Delete array i !! i in
          (s, Printed ("Deleted todo #" +:+ Itoa id +:+ ": "
                       +:+ from_option Description "" todoItem +:+ line_break))
        end
      end
    end
  end.

End Commands.
End cli.

(** * Package main: the global flag *)
Module main.

Definition defaultFilename : string := "data/todos.json".

(** The loop of [main] over the arguments that follow the command: the
    first [-file] that has an argument after it gives the file name, and
    the two are taken out of the arguments. *)
Fixpoint global_flags (filename : string) (args : list string)
  : string * list string :=
  match args with
  | arg :: (value :: rest) as tail =>
    if decide (arg = "-file") then (value, rest)
    else let (filename, args) := global_flags filename tail in
         (filename, arg :: args)
  | _ => (filename, args)
  end.

End main.

(** * Vocabulary of the design document *)

Import todo.

(** ** Calls of the mutating operations

    A caller's view of the service: a call, the clock reading during it,
    and what comes back. *)
Inductive call :=
| CallAdd (description : string)
| CallComplete (id : Z)
| CallIncomplete (id : Z)
| CallDelete (id : Z).

Inductive reply :=
| Created (todo : Todo)
| Done
| Failed (err : error).

Definition reply_of (err : option error) : reply :=
  match err with Some e => Failed e | None => Done end.

Definition exec {R} (impl : Repository R) (s : Service R) (now : Time)
  (c : call) : Service R * reply :=
  match c with
  | CallAdd description =>
    match Add impl s now description with
    | (s, Ok todo) => (s, Created todo)
    | (s, Err err) => (s, Failed err)
    end
  | CallComplete id => let (s, err) := Complete impl s now id in (s, reply_of err)
  | CallIncomplete id => let (s, err) := Incomplete impl s id in (s, reply_of err)
  | CallDelete id => let (s, err) := Delete impl s id in (s, reply_of err)
  end.

Fixpoint run {R} (impl : Repository R) (s : Service R)
  (cs : list (Time * call))
  : Service R * list reply :=
  match cs with
  | [] => (s, [])
  | (now, c) :: cs =>
    let (s, r) := exec impl s now c in
    let (s, rs) := run impl s cs in
    (s, r :: rs)
  end.

(** The identifiers the successful [Add]s of a run handed out, in order. *)
Definition assigned (rs : list reply) : list Z :=
  omap (λ r, match r with Created todo => Some (ID todo) | _ => None end) rs.

(** The invariant of an item: a pending item has no completion timestamp,
    a completed item has one. *)
Definition well_timed (todo : Todo) : Prop :=
  (Completed todo = false → CompletedAt todo = None) ∧
  (Completed todo = true → is_Some (CompletedAt todo)).

#[global] Instance well_timed_dec todo : Decision (well_timed todo).
Proof. unfold well_timed. apply _. Defined.

(** The calls that take an identifier from the counter: [Add] with a
    non-empty description. *)
Definition advances (c : call) : bool :=
  match c with
  | CallAdd description => bool_decide (description ≠ "")
  | _ => false
  end.

Definition advancing (cs : list (Time * call)) : nat :=
  length (filter (λ nc, advances nc.2 = true) cs).

(** The largest identifier of a collection of positive identifiers, 0 for
    the empty collection. *)
Definition max_ID (ts : list Todo) : Z := foldr Z.max 0 (ID <$> ts).

(** Number of items with a given completion flag. *)
Definition count_status (completed : bool) (ts : list Todo) : Z :=
  Z.of_nat (length (filter (λ todo, Completed todo = completed) ts)).

(** What the repository relies on from encoding/json: the decoder reads
    back what the encoder wrote for a collection, and the empty input is
    not a JSON text. *)
Definition decodes_own_output (codec : json.Codec) (ts : list Todo) : Prop :=
  ∀ data, json.MarshalIndent codec ts = Ok data →
          json.Unmarshal codec data = Ok ts.

Definition rejects_empty_input (codec : json.Codec) : Prop :=
  ∃ err, json.Unmarshal codec "" = Err err.

(** ** Calls over the JSON repository *)

(** The replies that carry an error of [Save]: [Add] wraps it in "failed
    to save todo", the other operations return it as it is. *)
Definition save_failure (r : reply) : bool :=
  match r with
  | Failed (ErrSaveTodo _) | Failed (ErrMarshal _) | Failed (ErrWriteFile _) =>
    true
  | _ => false
  end.

(** The calls whose data JSON holds as it is: the clock reading is a time
    of the calendar in the years 0 to 9999, in a zone whose offset is a
    whole number of minutes, and the description of an [Add] is UTF-8
    text. *)
Definition storable_call (nc : Time * call) : Prop :=
  GoJSON.valid_time nc.1 ∧
  match nc.2 with
  | CallAdd description =>
    GoJSON.well_formed_utf8 (String.length description)
      (GoJSON.chars description) = true
  | _ => True
  end.

(** What no operation of the service writes after [Add] has created the
    item: its identifier, its description and its creation time. *)
Definition created_as (todo : Todo) : Z * string * Time :=
  (ID todo, Description todo, CreatedAt todo).

(** * Data of the package's tests *)

Definition noon : Time := Date 2023 1 1 12 0 0 0 0.
Definition one_pm : Time := Date 2023 1 1 13 0 0 0 0.

(** [NewService(&MockRepository{})] *)
Definition fresh : Service MockRepository := (NewService Mock (mkMock [] None)).1.

(** The collection of [TestJSONRepository_SaveAndLoad_Integration]. *)
Definition originalTodos : list Todo :=
  [ mkTodo 1 "First todo" false (Date 2023 1 1 12 0 0 0 0) None;
    mkTodo 2 "Second todo" true (Date 2023 1 2 12 0 0 0 0)
           (Some (Date 2023 1 2 13 0 0 0 0)) ].

Definition test_json : storage.JSONRepository :=
  storage.NewJSONRepository "integration_test.json".

(** The service after ["Buy milk"] and ["Pay bills"] were added and the
    first was completed, and its two items. *)
Definition milk : Todo := mkTodo 1 "Buy milk" true noon (Some one_pm).
Definition bills : Todo := mkTodo 2 "Pay bills" false noon None.
Definition shopping : Service MockRepository :=
  (run Mock fresh
     [(noon, CallAdd "Buy milk"); (noon, CallAdd "Pay bills");
      (one_pm, CallComplete 1)]).1.

(** A mock repository whose calls fail, and a service that holds two
    items over it. *)
Definition disk_full : error := ErrOther "disk full".
Definition failing : MockRepository := mkMock [] (Some disk_full).
Definition unsaved : Service MockRepository := mkService failing [milk; bills] 3.

(** The service of [TestService_GetStats]: three items, the second one
    completed. *)
Definition three : Service MockRepository :=
  (run Mock fresh
     [(noon, CallAdd "Todo 1"); (noon, CallAdd "Todo 2");
      (noon, CallAdd "Todo 3"); (one_pm, CallComplete 2)]).1.

(** The file systems of [TestJSONRepository_Load]. *)
Definition no_file : os.FileSystem := ∅.
Definition empty_file : os.FileSystem :=
  {[ "integration_test.json" := os.Regular "" ]}.
Definition invalid_file : os.FileSystem :=
  {[ "integration_test.json" := os.Regular "invalid json" ]}.
Definition empty_array_file : os.FileSystem :=
  {[ "integration_test.json" := os.Regular "[]" ]}.

(** An item whose description is not UTF-8 text: it ends with the byte
    E9, the letter e with an acute accent in Latin-1. *)
Definition cafe : Todo :=
  mkTodo 1 (GoJSON.text (GoJSON.chars "caf" ++ [GoJSON.char 0xE9])) false noon
         None.

(** An item created at a quarter past five in the afternoon in a zone
    five and a half hours east of UTC. *)
Definition tea_time : Time := Date 2023 1 1 17 15 0 500 19800.
Definition tea : Todo := mkTodo 3 "Make tea" true tea_time (Some tea_time).

(** An item created in [time.FixedZone("odd", 30)], a zone half a minute
    east of UTC. *)
Definition half_past : Time := Date 2023 1 1 12 0 0 0 30.
Definition odd_zone : Todo := mkTodo 1 "Buy milk" false half_past None.

(** The file system of [TestJSONRepository_Save_FilePermissionError]. *)
Definition readonly_dir : os.FileSystem :=
  {[ "integration_test.json" := os.Directory ]}.

(** * The todo service: properties *)

(** ** Scenarios of the package's tests, replayed on the mock repository *)

Example scenario_buy_milk :
  let (s, rs) := run Mock fresh
    [(noon, CallAdd "Buy milk"); (noon, CallAdd "Pay bills");
     (one_pm, CallComplete 1)] in
  assigned rs = [1; 2] ∧
  ID <$> GetByStatus s true = [1] ∧
  ID <$> GetByStatus s false = [2] ∧
  let (s, err) := Delete Mock s 2 in
  err = None ∧
  GetAll s = [mkTodo 1 "Buy milk" true noon (Some one_pm)] ∧
  mock_todos (repo s) = GetAll s.
Proof. vm_compute. repeat split. Qed.

(** [TestService_GetStats], and the rate of one item in three: the
    binary64 next to 33.33. *)
Example TestService_GetStats :
  GetStats three = mkStats 3 1 2 ∧
  CompletionRate (GetStats three) = 0x1.0aaaaaaaaaaaap+5%float.
Proof. by vm_compute. Qed.

(** The cases of [TestJSONRepository_Load] and of
    [TestJSONRepository_Save_FilePermissionError]. *)
Example TestJSONRepository_Load :
  storage.Load GoJSON.codec test_json no_file = Ok [] ∧
  storage.Load GoJSON.codec test_json empty_file = Ok [] ∧
  storage.Load GoJSON.codec test_json empty_array_file = Ok [] ∧
  storage.Load GoJSON.codec test_json invalid_file
    = Err (ErrUnmarshal GoJSON.SyntaxChar) ∧
  storage.Load GoJSON.codec test_json readonly_dir
    = Err (ErrReadFile os.EISDIR) ∧
  storage.Save GoJSON.codec test_json readonly_dir originalTodos
    = (readonly_dir, Some (ErrWriteFile os.EISDIR)).
Proof. by vm_compute. Qed.

(** A process adds an item over the JSON repository and exits; the next
    process finds the item and continues with identifier 2. *)
Example restart_over_the_file :
  let disk := storage.Repository GoJSON.codec test_json in
  let (s, _) := Add disk (NewService disk no_file).1 noon "Buy milk" in
  let (s', warning) := NewService disk (repo s) in
  warning = None ∧
  todos s' = [mkTodo 1 "Buy milk" false noon None] ∧
  nextID s' = 2.
Proof. by vm_compute. Qed.

(** A time in a zone of whole minutes is written with its own clock and
    its zone, and read back as it was. *)
Example Save_then_Load_in_a_zone :
  GoJSON.text (GoJSON.format_time tea_time)
    = "2023-01-01T17:15:00.0000005+05:30" ∧
  storage.Load GoJSON.codec test_json
    (storage.Save GoJSON.codec test_json no_file [tea]).1 = Ok [tea].
Proof. by vm_compute. Qed.

(** ** Basic facts *)

Lemma wrap_int_id z : is_int z → wrap_int z = z.
Proof.
  unfold is_int, wrap_int, min_int, max_int, int_bits. simpl. intros Hz.
  rewrite Z.mod_small; lia.
Qed.

Lemma wrap_int_max : wrap_int (max_int + 1) = min_int.
Proof. reflexivity. Qed.

Section ServiceProperties.
Context {R : Type} (impl : Repository R).
Implicit Types (s : Service R) (todo : Todo) (id : Z) (now : Time).

Lemma save_eq s :
  save impl s =
  (mkService (Save impl (repo s) (todos s)).1 (todos s) (nextID s),
   (Save impl (repo s) (todos s)).2).
Proof. unfold save, with_repo. by destruct (Save impl _ _). Qed.

Lemma save_todos s : todos (save impl s).1 = todos s.
Proof. by rewrite save_eq. Qed.

(** [GetByID] finds the first item with the identifier. *)
Lemma list_find_first id (l1 l2 : list Todo) todo :
  ID todo = id → id ∉ ID <$> l1 →
  list_find (λ todo, ID todo = id) (l1 ++ todo :: l2) = Some (length l1, todo).
Proof.
  intros Hid Hl1. apply list_find_Some. split_and!.
  - by rewrite list_lookup_middle.
  - done.
  - intros j y Hj Hlt Hy. apply Hl1.
    rewrite lookup_app_l in Hj by done.
    apply list_elem_of_fmap. exists y. split; [done|].
    by eapply list_elem_of_lookup_2.
Qed.

Lemma list_find_absent id (l : list Todo) :
  id ∉ ID <$> l → list_find (λ todo, ID todo = id) l = None.
Proof.
  intros Hl. apply list_find_None, Forall_forall. intros y Hy Hid.
  apply Hl, list_elem_of_fmap. by exists y.
Qed.

Lemma list_find_split id (l : list Todo) i todo :
  list_find (λ todo, ID todo = id) l = Some (i, todo) →
  ∃ l1 l2, l = l1 ++ todo :: l2 ∧ length l1 = i ∧ ID todo = id ∧
           id ∉ ID <$> l1.
Proof.
  intros (Hi & Hid & Hfirst)%list_find_Some.
  exists (take i l), (drop (S i) l). split_and!.
  - by rewrite take_drop_middle.
  - apply length_take_le. apply lookup_lt_Some in Hi. lia.
  - done.
  - intros (y & Hy & Hin)%list_elem_of_fmap.
    apply list_elem_of_lookup in Hin as [j Hj].
    pose proof (lookup_lt_Some _ _ _ Hj) as Hlt.
    rewrite length_take in Hlt.
    rewrite lookup_take_lt in Hj by lia.
    eapply Hfirst; [exact Hj | lia | done].
Qed.

Lemma insert_middle (l1 l2 : list Todo) todo todo' :
  <[length l1 := todo']> (l1 ++ todo :: l2) = l1 ++ todo' :: l2.
Proof.
  rewrite insert_app_r_alt by lia. by rewrite Nat.sub_diag.
Qed.

Lemma delete_middle (l1 l2 : list Todo) todo :
  take (length l1) (l1 ++ todo :: l2) ++ drop (S (length l1)) (l1 ++ todo :: l2)
  = l1 ++ l2.
Proof.
  rewrite take_app_length. f_equal.
  rewrite drop_app_ge by lia.
  replace (S (length l1) - length l1)%nat with 1%nat by lia. done.
Qed.

(** What [Complete], [Incomplete] and [Delete] do once the collection is
    split at the first item with the identifier. *)
Lemma Complete_found s now id l1 todo l2 :
  todos s = l1 ++ todo :: l2 → ID todo = id → id ∉ ID <$> l1 →
  Complete impl s now id =
  if Completed todo then (s, Some (ErrAlreadyCompleted id))
  else save impl (with_todos s
         (l1 ++ set_CompletedAt (set_Completed todo true) (Some now) :: l2)).
Proof.
  intros Hs Hid Hl1. unfold Complete, GetByID.
  rewrite Hs, (list_find_first id l1 l2 todo) by done.
  destruct (Completed todo); [done|]. by rewrite insert_middle.
Qed.

Lemma Incomplete_found s id l1 todo l2 :
  todos s = l1 ++ todo :: l2 → ID todo = id → id ∉ ID <$> l1 →
  Incomplete impl s id =
  if Completed todo
  then save impl (with_todos s
         (l1 ++ set_CompletedAt (set_Completed todo false) None :: l2))
  else (s, Some (ErrAlreadyIncomplete id)).
Proof.
  intros Hs Hid Hl1. unfold Incomplete, GetByID.
  rewrite Hs, (list_find_first id l1 l2 todo) by done.
  destruct (Completed todo); [|done]. by rewrite insert_middle.
Qed.

Lemma Delete_found s id l1 todo l2 :
  todos s = l1 ++ todo :: l2 → ID todo = id → id ∉ ID <$> l1 →
  Delete impl s id = save impl (with_todos s (l1 ++ l2)).
Proof.
  intros Hs Hid Hl1. unfold Delete.
  rewrite Hs, (list_find_first id l1 l2 todo) by done.
  by rewrite delete_middle.
Qed.

Lemma Complete_absent s now id :
  id ∉ ID <$> todos s → Complete impl s now id = (s, Some (ErrNotFound id)).
Proof. intros H. unfold Complete, GetByID. by rewrite list_find_absent. Qed.

Lemma Incomplete_absent s id :
  id ∉ ID <$> todos s → Incomplete impl s id = (s, Some (ErrNotFound id)).
Proof. intros H. unfold Incomplete, GetByID. by rewrite list_find_absent. Qed.

Lemma Delete_absent s id :
  id ∉ ID <$> todos s → Delete impl s id = (s, Some (ErrNotFound id)).
Proof. intros H. unfold Delete. by rewrite list_find_absent. Qed.

(** Every collection splits at the first item with a given identifier, if
    there is one. *)
Lemma split_at_first id (l : list Todo) :
  id ∈ ID <$> l →
  ∃ l1 todo l2, l = l1 ++ todo :: l2 ∧ ID todo = id ∧ id ∉ ID <$> l1.
Proof.
  intros Hin.
  destruct (list_find (λ todo, ID todo = id) l) as [[i todo]|] eqn:Hfind.
  - apply list_find_split in Hfind as (l1 & l2 & ? & ? & ? & ?). eauto 6.
  - exfalso. apply list_elem_of_fmap in Hin as (y & Hy & Hin).
    eapply list_find_None, Forall_forall in Hfind; [|exact Hin]. done.
Qed.

(** ** Add *)

Lemma Add_valid s now description :
  description ≠ "" →
  let todo := mkTodo (nextID s) description false now None in
  let todos' := todos s ++ [todo] in
  let saved := Save impl (repo s) todos' in
  Add impl s now description =
  (mkService saved.1 todos' (wrap_int (nextID s + 1)),
   match saved.2 with Some err => Err (ErrSaveTodo err) | None => Ok todo end).
Proof.
  intros Hd. unfold Add. rewrite decide_False by done. simpl.
  rewrite save_eq. simpl. by destruct (Save impl _ _) as [r [err|]].
Qed.

(** C5: [Add] with an empty description fails with the invalid-input error
    "description cannot be empty" and returns the service as it was: the
    collection, the counter and the state of the repository are the ones
    before the call, so nothing was appended and [Save] was not run. *)
Theorem Add_empty_description s now :
  Add impl s now "" = (s, Err ErrEmptyDescription) ∧
  todos (Add impl s now "").1 = todos s ∧
  nextID (Add impl s now "").1 = nextID s ∧
  repo (Add impl s now "").1 = repo s.
Proof. by unfold Add. Qed.

(** ** Complete and Incomplete *)

(** C2: [Complete] and [Incomplete] fail with the not-found error when no
    item has the identifier.  Otherwise, with [todo] the item with the
    identifier (the first one if a loaded file repeats it): [Complete]
    fails with the already-completed error when [todo] is completed, and
    else sets its flag, stamps it with the clock reading and hands the
    updated collection to [Save], whose error it returns; [Incomplete]
    fails with the already-incomplete error when [todo] is pending, and else
    clears flag and timestamp and hands the updated collection to [Save]. *)
Theorem Complete_Incomplete_outcomes s now id :
  (id ∉ ID <$> todos s →
     Complete impl s now id = (s, Some (ErrNotFound id)) ∧
     Incomplete impl s id = (s, Some (ErrNotFound id))) ∧
  (∀ l1 todo l2,
     todos s = l1 ++ todo :: l2 → ID todo = id → id ∉ ID <$> l1 →
     (Completed todo = true →
        Complete impl s now id = (s, Some (ErrAlreadyCompleted id)) ∧
        let todos' :=
          l1 ++ mkTodo id (Description todo) false (CreatedAt todo) None :: l2 in
        let saved := Save impl (repo s) todos' in
        Incomplete impl s id = (mkService saved.1 todos' (nextID s), saved.2)) ∧
     (Completed todo = false →
        Incomplete impl s id = (s, Some (ErrAlreadyIncomplete id)) ∧
        let todos' :=
          l1 ++ mkTodo id (Description todo) true (CreatedAt todo) (Some now)
             :: l2 in
        let saved := Save impl (repo s) todos' in
        Complete impl s now id = (mkService saved.1 todos' (nextID s), saved.2))).
Proof.
  split.
  - intros Habs. by rewrite Complete_absent, Incomplete_absent.
  - intros l1 todo l2 Hs Hid Hl1.
    rewrite (Complete_found s now id l1 todo l2) by done.
    rewrite (Incomplete_found s id l1 todo l2) by done.
    unfold set_CompletedAt, set_Completed. simpl. rewrite Hid.
    split; intros ->; (split; [done|]); by rewrite save_eq.
Qed.

(** ** Delete *)

Lemma filter_other_ids id (l : list Todo) :
  id ∉ ID <$> l → filter (λ todo, ID todo ≠ id) l = l.
Proof.
  induction l as [|todo l IH]; [done|].
  rewrite fmap_cons, not_elem_of_cons. intros [Hne Hl].
  rewrite filter_cons_True by done. by rewrite IH.
Qed.

(** C6: on a collection with unique identifiers, [Delete] of a present
    identifier removes the one item that has it and keeps the others in
    their order (whatever [Save] answers), after which the identifier is
    gone and a second [Delete] of it fails with the not-found error;
    [Delete] of an absent identifier fails with the not-found error and
    returns the service as it was. *)
Theorem Delete_removes_exactly_one s id :
  (NoDup (ID <$> todos s) → id ∈ ID <$> todos s →
     ∃ l1 todo l2,
       todos s = l1 ++ todo :: l2 ∧ ID todo = id ∧
       let s' := (Delete impl s id).1 in
       todos s' = l1 ++ l2 ∧
       todos s' = filter (λ todo, ID todo ≠ id) (todos s) ∧
       Delete impl s' id = (s', Some (ErrNotFound id))) ∧
  (id ∉ ID <$> todos s → Delete impl s id = (s, Some (ErrNotFound id))).
Proof.
  split; [|apply Delete_absent].
  intros Hnodup Hin.
  destruct (split_at_first id (todos s) Hin) as (l1 & todo & l2 & Hs & Hid & Hl1).
  exists l1, todo, l2. do 2 (split; [done|]). simpl.
  rewrite (Delete_found s id l1 todo l2) by done. rewrite save_todos. simpl.
  assert (id ∉ ID <$> l2) as Hl2.
  { rewrite Hs, fmap_app, fmap_cons in Hnodup.
    apply NoDup_app in Hnodup as (_ & _ & [Hl2 _]%NoDup_cons).
    by rewrite <- Hid. }
  split_and!; [done| |].
  - rewrite Hs, filter_app, filter_cons_False by (intros ?; done).
    by rewrite !filter_other_ids.
  - apply Delete_absent. rewrite save_todos. simpl.
    rewrite fmap_app, not_elem_of_app. done.
Qed.

(** ** The invariant of completion timestamps *)

Lemma exec_well_timed s now c :
  Forall well_timed (todos s) → Forall well_timed (todos (exec impl s now c).1).
Proof.
  intros Hs. destruct c as [description|id|id|id]; simpl.
  - destruct (decide (description = "")) as [->|Hd]; [done|].
    rewrite (Add_valid s now description Hd). simpl.
    destruct (Save impl _ _) as [r [err|]]; simpl;
      (apply Forall_app; split; [done|]);
      by apply Forall_singleton.
  - unfold Complete, GetByID.
    destruct (list_find _ _) as [[i todo]|]; [|done].
    destruct (Completed todo); [done|].
    rewrite save_eq. simpl. apply Forall_insert; [done|].
    split; [done|]. by eexists.
  - unfold Incomplete, GetByID.
    destruct (list_find _ _) as [[i todo]|]; [|done].
    destruct (Completed todo); [|done].
    rewrite save_eq. simpl. apply Forall_insert; [done|].
    split; [done|]. done.
  - unfold Delete.
    destruct (list_find _ _) as [[i todo]|]; [|done].
    rewrite save_eq. simpl. apply Forall_app.
    split; [by apply Forall_take | by apply Forall_drop].
Qed.

Lemma run_cons s now c cs :
  run impl s ((now, c) :: cs) =
  ((run impl (exec impl s now c).1 cs).1,
   (exec impl s now c).2 :: (run impl (exec impl s now c).1 cs).2).
Proof.
  cbn [run]. destruct (exec impl s now c) as [s1 r]. cbn [fst snd].
  by destruct (run impl s1 cs).
Qed.

(** C4: an item that [Add] creates is pending and has no completion
    timestamp, so it satisfies the invariant; and when every item of the
    collection satisfies the invariant, every item still does after an
    [Add], [Complete], [Incomplete] or [Delete], whether or not the call
    succeeds, and so after any sequence of them. *)
Theorem completion_timestamp_invariant s now :
  (∀ description s' todo,
     Add impl s now description = (s', Ok todo) →
     well_timed todo ∧ todo ∈ todos s') ∧
  (Forall well_timed (todos s) →
     (∀ c, Forall well_timed (todos (exec impl s now c).1)) ∧
     (∀ cs, Forall well_timed (todos (run impl s cs).1))).
Proof.
  split.
  - intros description s' todo.
    destruct (decide (description = "")) as [->|Hd]; [done|].
    rewrite (Add_valid s now description Hd). simpl.
    destruct (Save impl _ _) as [r [err|]]; simpl; [done|].
    intros [= <- <-]. simpl. split; [by split|].
    apply elem_of_app. right. by apply list_elem_of_singleton.
  - intros Hs. split; [intros c; by apply exec_well_timed|].
    intros cs. revert s Hs. clear now.
    induction cs as [|[now c] cs IH]; intros s Hs; [done|].
    rewrite run_cons. simpl. by apply IH, exec_well_timed.
Qed.

(** ** Statistics *)

Lemma count_status_cons completed todo (ts : list Todo) :
  count_status completed (todo :: ts) =
  (if bool_decide (Completed todo = completed) then 1 else 0)
  + count_status completed ts.
Proof.
  unfold count_status. rewrite filter_cons.
  case_bool_decide; case_decide; try done; simpl; lia.
Qed.

Lemma count_status_total (ts : list Todo) :
  count_status true ts + count_status false ts = Z.of_nat (length ts).
Proof.
  induction ts as [|todo ts IH]; [done|].
  rewrite !count_status_cons. simpl length.
  destruct (Completed todo); repeat case_bool_decide; try done; lia.
Qed.

Lemma fold_tally (ts : list Todo) total c p :
  0 ≤ c → 0 ≤ p → c + p + Z.of_nat (length ts) ≤ max_int →
  fold_left tally ts (mkStats total c p) =
  mkStats total (c + count_status true ts) (p + count_status false ts).
Proof.
  revert c p. induction ts as [|todo ts IH]; intros c p Hc Hp Hlen.
  - simpl. f_equal; unfold count_status; simpl; lia.
  - simpl length in Hlen. rewrite !count_status_cons. simpl.
    assert (min_int ≤ 0) by done.
    unfold tally. simpl.
    destruct (Completed todo); repeat case_bool_decide; try done;
      rewrite wrap_int_id by (unfold is_int; lia);
      rewrite IH by lia; f_equal; lia.
Qed.

(** C9: [GetStats] returns the number of items as [Total], the number of
    completed items as [Completed] and the number of pending items as
    [Pending], which add up to [Total]; [CompletionRate] is 0 when [Total]
    is 0 and otherwise the float64 quotient of [Completed] by [Total],
    times 100.  The length of a Go slice is an [int], which is the
    premise. *)
Theorem GetStats_counts s :
  Z.of_nat (length (todos s)) ≤ max_int →
  let stats := GetStats s in
  Total stats = Z.of_nat (length (todos s)) ∧
  Completed_ stats = count_status true (todos s) ∧
  Pending stats = count_status false (todos s) ∧
  Total stats = Completed_ stats + Pending stats ∧
  (∀ stats : Stats,
     (Total stats = 0 → CompletionRate stats = 0%float) ∧
     (Total stats ≠ 0 →
        CompletionRate stats =
        (float64_of_int (Completed_ stats) / float64_of_int (Total stats)
         * 100)%float)).
Proof.
  intros Hlen. unfold GetStats. rewrite fold_tally by lia. simpl.
  split_and!; [done..| |].
  - symmetry. apply count_status_total.
  - intros stats. unfold CompletionRate. split.
    + by intros ->.
    + intros Hne. by apply Z.eqb_neq in Hne as ->.
Qed.

(** ** Identifiers *)

Lemma Add_Ok s now description s' todo :
  Add impl s now description = (s', Ok todo) →
  description ≠ "" ∧ todo = mkTodo (nextID s) description false now None.
Proof.
  destruct (decide (description = "")) as [->|Hd]; [done|].
  rewrite (Add_valid s now description Hd). simpl.
  destruct (Save impl _ _) as [r [err|]]; simpl; [done|]. by intros [= <- <-].
Qed.

Lemma exec_counter s now c :
  nextID (exec impl s now c).1 =
    (if advances c then wrap_int (nextID s + 1) else nextID s) ∧
  (∀ todo, (exec impl s now c).2 = Created todo →
     advances c = true ∧ ID todo = nextID s).
Proof.
  destruct c as [description|id|id|id]; simpl.
  - destruct (decide (description = "")) as [->|Hd]; [done|].
    rewrite bool_decide_true by done.
    rewrite (Add_valid s now description Hd). simpl.
    destruct (Save impl _ _) as [r [err|]]; simpl; [done|].
    split; [done|]. by intros todo [= <-].
  - unfold Complete, GetByID.
    destruct (list_find _ _) as [[i todo]|]; [|done].
    destruct (Completed todo); [done|]. rewrite save_eq. simpl.
    split; [done|]. intros ?. by destruct (Save impl _ _).2.
  - unfold Incomplete, GetByID.
    destruct (list_find _ _) as [[i todo]|]; [|done].
    destruct (Completed todo); [|done]. rewrite save_eq. simpl.
    split; [done|]. intros ?. by destruct (Save impl _ _).2.
  - unfold Delete.
    destruct (list_find _ _) as [[i todo]|]; [|done].
    rewrite save_eq. simpl.
    split; [done|]. intros ?. by destruct (Save impl _ _).2.
Qed.

Lemma advancing_cons now c cs :
  advancing ((now, c) :: cs) =
  ((if advances c then 1 else 0) + advancing cs)%nat.
Proof.
  unfold advancing. rewrite filter_cons. simpl.
  case_decide as Hc; [by rewrite Hc|]. by apply not_true_is_false in Hc as ->.
Qed.

Lemma assigned_cons r rs :
  assigned (r :: rs) =
  match r with Created todo => ID todo :: assigned rs | _ => assigned rs end.
Proof. by destruct r. Qed.

Lemma run_without_advancing cs s :
  advancing cs = 0%nat → assigned (run impl s cs).2 = [].
Proof.
  revert s. induction cs as [|[now c] cs IH]; intros s; [done|].
  rewrite advancing_cons, run_cons. cbn [snd]. intros Hcs.
  destruct (exec_counter s now c) as [_ Hr].
  rewrite assigned_cons.
  destruct (exec impl s now c).2 as [todo| |err] eqn:Hreply.
  - destruct (Hr todo eq_refl) as [Hadv _]. rewrite Hadv in Hcs. lia.
  - apply IH. lia.
  - apply IH. lia.
Qed.

Lemma run_assigned_sorted cs s :
  is_int (nextID s) →
  nextID s + Z.of_nat (advancing cs) ≤ max_int + 1 →
  StronglySorted Z.lt (assigned (run impl s cs).2) ∧
  Forall (λ id, nextID s ≤ id) (assigned (run impl s cs).2).
Proof.
  revert s. induction cs as [|[now c] cs IH]; intros s Hint Hroom.
  { split; constructor. }
  rewrite advancing_cons in Hroom. rewrite run_cons. cbn [snd].
  destruct (exec_counter s now c) as [Hnext Hr].
  rewrite assigned_cons.
  destruct (advances c) eqn:Hadv.
  - (* the call takes [nextID s] *)
    destruct (decide (advancing cs = 0%nat)) as [Hnone|Hsome].
    + rewrite (run_without_advancing cs _ Hnone).
      destruct (exec impl s now c).2 as [todo| |err];
        [|split; constructor..].
      destruct (Hr todo eq_refl) as [_ ->].
      split; repeat constructor. lia.
    + rewrite wrap_int_id in Hnext by (unfold is_int in *; lia).
      destruct (IH (exec impl s now c).1) as [Hsorted Hlow].
      { rewrite Hnext. unfold is_int in *. lia. }
      { rewrite Hnext. lia. }
      rewrite Hnext in Hlow.
      assert (Forall (λ id, nextID s ≤ id) (assigned (run impl (exec impl s now c).1 cs).2))
        by (eapply Forall_impl; [exact Hlow | simpl; intros; lia]).
      destruct (exec impl s now c).2 as [todo| |err]; [|done..].
      destruct (Hr todo eq_refl) as [_ ->].
      split; constructor; [done| |lia|done].
      eapply Forall_impl; [exact Hlow | simpl; intros; lia].
  - (* the counter stays *)
    destruct (IH (exec impl s now c).1) as [Hsorted Hlow].
    { by rewrite Hnext. }
    { rewrite Hnext. lia. }
    rewrite Hnext in Hlow.
    destruct (exec impl s now c).2 as [todo| |err]; try done.
    by destruct (Hr todo eq_refl).
Qed.

Lemma bump_nextID_max n todo :
  is_int (ID todo + 1) → bump_nextID n todo = Z.max n (ID todo + 1).
Proof.
  intros Hint. unfold bump_nextID. rewrite wrap_int_id by done.
  destruct (ID todo >=? n) eqn:Hcmp; lia.
Qed.

Lemma fold_bump_nextID (ts : list Todo) n :
  1 ≤ n →
  Forall (λ todo, min_int ≤ ID todo < max_int) ts →
  fold_left bump_nextID ts n = Z.max n (max_ID ts + 1).
Proof.
  revert n. induction ts as [|todo ts IH]; intros n Hn Hts.
  { unfold max_ID. simpl. lia. }
  apply Forall_cons in Hts as [Htodo Hts]. simpl.
  rewrite bump_nextID_max by (unfold is_int; lia).
  rewrite IH by (done || lia).
  change (max_ID (todo :: ts)) with (Z.max (ID todo) (max_ID ts)). lia.
Qed.

Lemma max_ID_upper (ts : list Todo) : Forall (λ todo, ID todo ≤ max_ID ts) ts.
Proof.
  induction ts as [|todo ts IH]; constructor;
    change (max_ID (todo :: ts)) with (Z.max (ID todo) (max_ID ts)).
  - lia.
  - eapply Forall_impl; [exact IH|]. simpl. intros; lia.
Qed.

Lemma max_ID_attained (ts : list Todo) :
  Forall (λ todo, 0 < ID todo) ts → ts ≠ [] → max_ID ts ∈ ID <$> ts.
Proof.
  induction ts as [|todo ts IH]; [done|].
  intros [Htodo Hts]%Forall_cons _.
  destruct ts as [|todo' ts].
  { change (max_ID [todo]) with (Z.max (ID todo) 0).
    rewrite Z.max_l by lia. by left. }
  specialize (IH Hts ltac:(done)).
  change (max_ID (todo :: todo' :: ts))
    with (Z.max (ID todo) (max_ID (todo' :: ts))).
  rewrite fmap_cons.
  destruct (Z.max_spec (ID todo) (max_ID (todo' :: ts))) as [[_ ->]|[_ ->]];
    [by right | by left].
Qed.

Lemma NewService_loaded r ts :
  (Load impl r).2 = Ok ts →
  NewService impl r =
  (mkService (Load impl r).1 ts (fold_left bump_nextID ts 1), None).
Proof.
  unfold NewService, loadTodos. simpl.
  destruct (Load impl r) as [r' res]. simpl. by intros ->.
Qed.

(** C1, within the range of [int]: as long as the counter has an
    identifier left for every [Add] that takes one, the identifiers that
    the successful [Add]s of a run of calls hand out are strictly
    increasing; a service built over an empty store has counter 1 and its
    first [Add] hands out 1; a service built over a loaded collection whose
    identifiers are positive and below the largest [int] has as counter one
    more than the largest identifier of the collection; and an item that
    [Add] returns has the identifier of the counter, is pending and has no
    completion timestamp. *)
Theorem Add_identifiers :
  (∀ s cs,
     is_int (nextID s) →
     nextID s + Z.of_nat (advancing cs) ≤ max_int + 1 →
     StronglySorted Z.lt (assigned (run impl s cs).2)) ∧
  (∀ r,
     (Load impl r).2 = Ok [] →
     nextID (NewService impl r).1 = 1 ∧
     ∀ now description s' todo,
       Add impl (NewService impl r).1 now description = (s', Ok todo) →
       ID todo = 1) ∧
  (∀ r ts,
     (Load impl r).2 = Ok ts →
     Forall (λ todo, 0 < ID todo < max_int) ts →
     nextID (NewService impl r).1 = max_ID ts + 1 ∧
     Forall (λ todo, ID todo ≤ max_ID ts) ts ∧
     (ts ≠ [] → max_ID ts ∈ ID <$> ts)) ∧
  (∀ s now description s' todo,
     Add impl s now description = (s', Ok todo) →
     ID todo = nextID s ∧ Completed todo = false ∧ CompletedAt todo = None).
Proof.
  split_and!.
  - intros s cs Hint Hroom. by apply run_assigned_sorted.
  - intros r Hload. rewrite (NewService_loaded r [] Hload). simpl.
    split; [done|].
    intros now description s' todo [_ ->]%Add_Ok. done.
  - intros r ts Hload Hts. rewrite (NewService_loaded r ts Hload). simpl.
    split_and!.
    + rewrite fold_bump_nextID; [|done|].
      * assert (0 ≤ max_ID ts); [|lia].
        clear. induction ts as [|todo ts IH]; [done|].
        change (max_ID (todo :: ts)) with (Z.max (ID todo) (max_ID ts)). lia.
      * eapply Forall_impl; [exact Hts|]. simpl.
        assert (min_int ≤ 0) by done. intros; lia.
    + apply max_ID_upper.
    + apply max_ID_attained.
      eapply Forall_impl; [exact Hts|]. simpl. intros; lia.
  - intros s now description s' todo [_ ->]%Add_Ok. done.
Qed.

End ServiceProperties.

(** * The model of encoding/json: the decoder reads back what the encoder
    writes *)

Module GoJSONFacts.
Import GoJSON.

(** ** Digits *)

Lemma digit_cases c :
  is_digit c = true → ∃ d, 0 ≤ d ≤ 9 ∧ c = digit d.
Proof.
  intros H. exists (Z.of_N (code c - 48)). revert H.
  destruct c as [[] [] [] [] [] [] [] []]; try discriminate; intros _;
    by vm_compute.
Qed.

Lemma digit_code d : 0 ≤ d ≤ 9 → Z.of_N (code (digit d) - 48) = d.
Proof.
  intros Hd.
  assert (d = 0 ∨ d = 1 ∨ d = 2 ∨ d = 3 ∨ d = 4 ∨ d = 5 ∨ d = 6 ∨ d = 7
          ∨ d = 8 ∨ d = 9) as Hcases by lia.
  repeat destruct Hcases as [->|Hcases]; try reflexivity. by subst.
Qed.

Lemma digit_is_digit d : 0 ≤ d ≤ 9 → is_digit (digit d) = true.
Proof.
  intros Hd.
  assert (d = 0 ∨ d = 1 ∨ d = 2 ∨ d = 3 ∨ d = 4 ∨ d = 5 ∨ d = 6 ∨ d = 7
          ∨ d = 8 ∨ d = 9) as Hcases by lia.
  repeat destruct Hcases as [->|Hcases]; try reflexivity. by subst.
Qed.

Lemma digit_zero d : 0 ≤ d ≤ 9 → digit d = "0"%char → d = 0.
Proof.
  intros Hd.
  assert (d = 0 ∨ d = 1 ∨ d = 2 ∨ d = 3 ∨ d = 4 ∨ d = 5 ∨ d = 6 ∨ d = 7
          ∨ d = 8 ∨ d = 9) as Hcases by lia.
  repeat destruct Hcases as [->|Hcases]; try done. by subst.
Qed.

Lemma number_snoc ds c :
  number (ds ++ [c]) = 10 * number ds + Z.of_N (code c - 48).
Proof. unfold number. by rewrite fold_left_app. Qed.

Lemma mod10 n : 0 ≤ n mod 10 ≤ 9.
Proof. pose proof (Z.mod_pos_bound n 10). lia. Qed.

Lemma digits_spec width n :
  0 ≤ n < 10 ^ Z.of_nat width →
  number (digits width n) = n ∧
  length (digits width n) = width ∧
  forallb is_digit (digits width n) = true.
Proof.
  revert n. induction width as [|width IH]; intros n Hn.
  { simpl in *. split_and!; [|done..]. unfold number. simpl. lia. }
  rewrite Nat2Z.inj_succ, Z.pow_succ_r in Hn by lia.
  destruct (IH (n / 10)) as (Hnum & Hlen & Hall).
  { split; [apply Z.div_pos; lia | apply Z.div_lt_upper_bound; lia]. }
  cbn [digits]. split_and!.
  - rewrite number_snoc, Hnum, digit_code by apply mod10.
    pose proof (Z.div_mod n 10). lia.
  - rewrite length_app, Hlen. simpl. lia.
  - rewrite forallb_app, Hall. simpl. by rewrite digit_is_digit by apply mod10.
Qed.

Lemma decimal_go_spec fuel n acc :
  (0 < fuel)%nat → 0 ≤ n < 10 ^ Z.of_nat fuel →
  ∃ ds, decimal_go fuel n acc = ds ++ acc ∧ number ds = n ∧ numeral ds.
Proof.
  revert n acc. induction fuel as [|fuel IH]; intros n acc Hfuel Hn; [lia|].
  rewrite Nat2Z.inj_succ, Z.pow_succ_r in Hn by lia.
  cbn [decimal_go]. pose proof (Z.div_mod n 10 ltac:(lia)) as Hdm.
  pose proof (mod10 n) as Hmod.
  destruct (n / 10 =? 0) eqn:Hq.
  - apply Z.eqb_eq in Hq. exists [digit (n mod 10)]. split_and!.
    + done.
    + unfold number. simpl. rewrite digit_code by done. lia.
    + split; [simpl; by rewrite digit_is_digit|]. by eexists _, [].
  - apply Z.eqb_neq in Hq.
    assert (0 < n / 10) by (pose proof (Z.div_pos n 10); lia).
    destruct (IH (n / 10) (digit (n mod 10) :: acc)) as (ds & Hds & Hnum & Hall & c & ds' & -> & Hlead).
    { destruct fuel; [simpl in Hn; lia | lia]. }
    { split; [lia | apply Z.div_lt_upper_bound; lia]. }
    exists ((c :: ds') ++ [digit (n mod 10)]). split_and!.
    + rewrite Hds. by rewrite <- app_assoc.
    + rewrite number_snoc, Hnum, digit_code by done. lia.
    + split.
      * rewrite forallb_app, Hall. simpl. by rewrite digit_is_digit.
      * exists c, (ds' ++ [digit (n mod 10)]). split; [done|].
        intros Hc. specialize (Hlead Hc). subst.
        change (number ["0"%char]) with 0 in Hnum. lia.
Qed.

Lemma decimal_spec n :
  0 ≤ n < 10 ^ 20 → number (decimal n) = n ∧ numeral (decimal n).
Proof.
  intros Hn. unfold decimal.
  destruct (decimal_go_spec 20 n []) as (ds & Hds & Hnum & Hall); [lia|done|].
  rewrite Hds, app_nil_r. done.
Qed.

(** ** Numbers *)

Ltac concrete_digits :=
  try change (digit 0) with "0"%char in *;
  try change (digit 1) with "1"%char in *;
  try change (digit 2) with "2"%char in *;
  try change (digit 3) with "3"%char in *;
  try change (digit 4) with "4"%char in *;
  try change (digit 5) with "5"%char in *;
  try change (digit 6) with "6"%char in *;
  try change (digit 7) with "7"%char in *;
  try change (digit 8) with "8"%char in *;
  try change (digit 9) with "9"%char in *.

(** Evaluation of the parser on the known part of an input: the tests on
    known characters are computed, the functions of the parser unfolded. *)
Ltac has_var t := match t with context [?x] => is_var x end.

Ltac eval_tests :=
  repeat (match goal with
          | |- context [if ?b then _ else _] =>
            tryif has_var b then fail else idtac;
            let v := eval vm_compute in b in
            change b with v
          end; cbv beta iota zeta).

Ltac crunch :=
  repeat (progress (
    unfold parse_number, parse_fraction, parse_exponent, parse_literal,
      missing_digits;
    cbn [app fst snd skip_space parse_word chars list_ascii_of_string];
    eval_tests)).

Ltac each_digit d Hd :=
  let Hcases := fresh in
  assert (d = 0 ∨ d = 1 ∨ d = 2 ∨ d = 3 ∨ d = 4 ∨ d = 5 ∨ d = 6 ∨ d = 7
          ∨ d = 8 ∨ d = 9) as Hcases by lia;
  clear Hd;
  repeat destruct Hcases as [->|Hcases]; [..|subst d]; concrete_digits.

Lemma span_digits_app ds t rest :
  forallb is_digit ds = true → is_digit t = false →
  span_digits (ds ++ t :: rest) = (ds, t :: rest).
Proof.
  intros Hds Ht. induction ds as [|c ds IH]; simpl in *.
  - by rewrite Ht.
  - apply andb_true_iff in Hds as [-> Hds]. by rewrite IH.
Qed.

Lemma terminator_not_digit t : terminator t → is_digit t = false.
Proof. by intros [->| ->]. Qed.

Lemma parse_number_numeral ds t rest :
  numeral ds → terminator t →
  parse_number (ds ++ t :: rest) = Parsed ds (t :: rest).
Proof.
  intros (Hall & c & ds' & -> & Hlead) Ht. simpl in Hall.
  apply andb_true_iff in Hall as [Hc Hall].
  apply digit_cases in Hc as (d & Hd & ->).
  pose proof (span_digits_app ds' t rest Hall (terminator_not_digit t Ht)) as Hspan.
  each_digit d Hd.
  1: { rewrite (Hlead eq_refl). by destruct Ht as [-> | ->]. }
  all: crunch; rewrite Hspan; by destruct Ht as [-> | ->]; crunch.
Qed.

Lemma parse_number_negative ds t rest :
  numeral ds → terminator t →
  parse_number ("-"%char :: ds ++ t :: rest) = Parsed ("-"%char :: ds) (t :: rest).
Proof.
  intros (Hall & c & ds' & -> & Hlead) Ht. simpl in Hall.
  apply andb_true_iff in Hall as [Hc Hall].
  apply digit_cases in Hc as (d & Hd & ->).
  pose proof (span_digits_app ds' t rest Hall (terminator_not_digit t Ht)) as Hspan.
  each_digit d Hd.
  1: { rewrite (Hlead eq_refl). by destruct Ht as [-> | ->]. }
  all: crunch; rewrite Hspan; by destruct Ht as [-> | ->]; crunch.
Qed.

Lemma is_int_decimal z : is_int z → 0 ≤ Z.abs z < 10 ^ 20.
Proof.
  unfold is_int, min_int, max_int, int_bits. simpl. lia.
Qed.

Lemma encode_int_head z : is_int z → number_head (encode_int z).
Proof.
  intros Hz%is_int_decimal. unfold encode_int.
  destruct (z <? 0) eqn:Hneg.
  - eexists _, _. split; [done|by left].
  - apply Z.ltb_ge in Hneg. rewrite Z.abs_eq in Hz by done.
    destruct (decimal_spec z Hz) as (_ & Hall & c & ds' & Heq & _).
    rewrite Heq in *. exists c, ds'. split; [done|]. right.
    simpl in Hall. by apply andb_true_iff in Hall as [-> _].
Qed.

Lemma parse_number_int z t rest :
  is_int z → terminator t →
  parse_number (encode_int z ++ t :: rest) = Parsed (encode_int z) (t :: rest).
Proof.
  intros Hz%is_int_decimal Ht. unfold encode_int.
  destruct (z <? 0) eqn:Hneg.
  - apply Z.ltb_lt in Hneg. rewrite Z.abs_neq in Hz by lia.
    apply parse_number_negative; [|done]. by apply decimal_spec.
  - apply Z.ltb_ge in Hneg. rewrite Z.abs_eq in Hz by done.
    apply parse_number_numeral; [|done]. by apply decimal_spec.
Qed.

Lemma decode_int_encode z : is_int z → decode_int (encode_int z) = Ok z.
Proof.
  intros Hint. pose proof (is_int_decimal z Hint) as Hz. unfold encode_int.
  destruct (z <? 0) eqn:Hneg.
  - apply Z.ltb_lt in Hneg. rewrite Z.abs_neq in Hz by lia.
    destruct (decimal_spec (- z) Hz) as (Hnum & Hall & c & ds' & Heq & _).
    unfold decode_int. eval_tests. rewrite Hall, Hnum, Heq.
    cbn [andb negb]. rewrite bool_decide_false by done. cbn [negb].
    rewrite Z.opp_involutive. by rewrite bool_decide_true.
  - apply Z.ltb_ge in Hneg. rewrite Z.abs_eq in Hz by done.
    destruct (decimal_spec z Hz) as (Hnum & Hall & c & ds' & Heq & _).
    unfold decode_int. rewrite Heq in *.
    assert (is_digit c = true) as Hc.
    { simpl in Hall. by apply andb_true_iff in Hall as [-> _]. }
    assert ((code c =? 45)%N = false) as ->.
    { apply digit_cases in Hc as (d & Hd & ->). by each_digit d Hd. }
    rewrite Hall, Hnum.
    cbn [andb negb]. rewrite bool_decide_false by done. cbn [negb].
    by rewrite bool_decide_true.
Qed.

Ltac dispatch :=
  repeat (progress (cbn [parse_value skip_space app]; eval_tests)).

Lemma parse_value_number fuel lit t rest :
  number_head lit →
  parse_number (lit ++ t :: rest) = Parsed lit (t :: rest) →
  parse_value (S fuel) (" "%char :: lit ++ t :: rest)
  = Parsed (Number lit) (t :: rest).
Proof.
  intros (c & tl & -> & Hc) Hparse. cbn [app] in Hparse.
  destruct Hc as [->|Hc].
  - dispatch. by rewrite Hparse.
  - apply digit_cases in Hc as (d & Hd & ->).
    each_digit d Hd; dispatch; by rewrite Hparse.
Qed.

(** ** Strings *)

Lemma parse_string_ascii c fuel tail acc :
  (code c <? 0x80)%N = true →
  parse_string (S fuel) (encode_ascii c ++ tail) acc
  = parse_string fuel tail (c :: acc).
Proof.
  destruct c as [[] [] [] [] [] [] [] []]; try discriminate; intros _;
    reflexivity.
Qed.

Lemma utf8_prefix_take l n tail :
  utf8_prefix l = Some n →
  utf8_prefix (take n l ++ tail) = Some n ∧ length (take n l) = n ∧
  (0 < n)%nat.
Proof.
  destruct l as [|c0 l]; [done|]. unfold utf8_prefix.
  destruct (code c0 <? 0x80)%N eqn:H0.
  { intros [= <-]. simpl. rewrite H0. split_and!; [done..|lia]. }
  destruct (between 0xC2 0xDF (code c0)) eqn:H2.
  { destruct l as [|c1 l]; [done|].
    destruct (is_continuation c1) eqn:H1; [|done].
    intros [= <-]. simpl. rewrite H0, H2, H1. split_and!; [done..|lia]. }
  destruct (between 0xE0 0xEF (code c0)) eqn:H3.
  { destruct l as [|c1 [|c2 l]]; [done..|].
    destruct (_ && _) eqn:H1; [|done].
    intros [= <-]. simpl. rewrite H0, H2, H3, H1. split_and!; [done..|lia]. }
  destruct (between 0xF0 0xF4 (code c0)) eqn:H4; [|done].
  destruct l as [|c1 [|c2 [|c3 l]]]; [done..|].
  destruct (_ && _) eqn:H1; [|done].
  intros [= <-]. simpl. rewrite H0, H2, H3, H4, H1. split_and!; [done..|lia].
Qed.

Lemma utf8_prefix_ascii c l :
  (code c <? 0x80)%N = true → utf8_prefix (c :: l) = Some 1%nat.
Proof. intros H. simpl. by rewrite H. Qed.

Lemma parse_string_rune c l n fuel tail acc :
  (code c <? 0x80)%N = false →
  utf8_prefix (c :: l) = Some n →
  parse_string (S fuel) (take n (c :: l) ++ tail) acc
  = parse_string fuel tail (rev (take n (c :: l)) ++ acc).
Proof.
  intros Hc Hn.
  destruct (utf8_prefix_take (c :: l) n tail Hn) as (Hprefix & Hlen & Hpos).
  destruct n as [|n]; [lia|].
  rewrite firstn_cons in *. rewrite <- app_comm_cons in *.
  apply N.ltb_ge in Hc.
  cbn [parse_string].
  rewrite (proj2 (N.eqb_neq (code c) 34)) by lia.
  rewrite (proj2 (N.eqb_neq (code c) 92)) by lia.
  rewrite (proj2 (N.ltb_ge (code c) 0x20)) by lia.
  rewrite (proj2 (N.ltb_ge (code c) 0x80)) by lia.
  rewrite Hprefix.
  rewrite (app_comm_cons (take n l) tail c), <- (firstn_cons n c l).
  by rewrite take_app_length', drop_app_length'.
Qed.

Lemma parse_string_separator c l n fuel tail acc :
  take n (c :: l) = line_separator ∨ take n (c :: l) = paragraph_separator →
  parse_string (S fuel)
    ((if bool_decide (take n (c :: l) = line_separator)
      then backslash :: chars "u2028"
      else if bool_decide (take n (c :: l) = paragraph_separator)
      then backslash :: chars "u2029"
      else take n (c :: l)) ++ tail) acc
  = parse_string fuel tail (rev (take n (c :: l)) ++ acc).
Proof.
  intros [-> | ->]; reflexivity.
Qed.

Lemma parse_string_encode fuel l :
  well_formed_utf8 fuel l = true →
  ∀ fuel_p rest acc, (length l < fuel_p)%nat →
  parse_string fuel_p (encode_bytes fuel l ++ quote :: rest) acc
  = Parsed (rev acc ++ l) rest.
Proof.
  revert l. induction fuel as [|fuel IH]; intros l Hl fuel_p rest acc Hfuel.
  { destruct l; [|done]. destruct fuel_p; [simpl in Hfuel; lia|].
    simpl. by rewrite app_nil_r. }
  destruct l as [|c l].
  { destruct fuel_p; [simpl in Hfuel; lia|]. simpl. by rewrite app_nil_r. }
  destruct fuel_p as [|fuel_p]; [lia|]. simpl in Hfuel.
  cbn [well_formed_utf8] in Hl. cbn [encode_bytes].
  destruct (code c <? 0x80)%N eqn:Hc.
  - rewrite (utf8_prefix_ascii c l Hc) in Hl. simpl in Hl.
    rewrite <- app_assoc, parse_string_ascii by done.
    rewrite IH by (done || lia). simpl. by rewrite <- app_assoc.
  - destruct (utf8_prefix (c :: l)) as [n|] eqn:Hn; [|done].
    destruct (utf8_prefix_take (c :: l) n [] Hn) as (_ & Hlen & Hpos).
    assert (length (drop n (c :: l)) < fuel_p)%nat.
    { rewrite length_drop. simpl. lia. }
    rewrite <- app_assoc.
    destruct (decide (take n (c :: l) = line_separator
                      ∨ take n (c :: l) = paragraph_separator)) as [Hsep|Hsep].
    + rewrite parse_string_separator by done.
      rewrite IH by done. rewrite rev_app_distr, rev_involutive, <- app_assoc.
      by rewrite take_drop.
    + rewrite !bool_decide_false by tauto.
      rewrite parse_string_rune by done.
      rewrite IH by done. rewrite rev_app_distr, rev_involutive, <- app_assoc.
      by rewrite take_drop.
Qed.

Lemma length_chars s : length (chars s) = String.length s.
Proof. induction s as [|c s IH]; simpl; [done|by rewrite IH]. Qed.

Lemma encode_ascii_length c : (1 ≤ length (encode_ascii c))%nat.
Proof.
  unfold encode_ascii, escape_byte. repeat case_match; simpl; lia.
Qed.

Lemma encode_bytes_length fuel l :
  well_formed_utf8 fuel l = true →
  (length l ≤ length (encode_bytes fuel l))%nat.
Proof.
  revert l. induction fuel as [|fuel IH]; intros l Hl.
  { by destruct l. }
  destruct l as [|c l]; [simpl; lia|].
  cbn [well_formed_utf8] in Hl. cbn [encode_bytes].
  destruct (code c <? 0x80)%N eqn:Hc.
  - rewrite (utf8_prefix_ascii c l Hc) in Hl. simpl in Hl.
    rewrite length_app. pose proof (encode_ascii_length c).
    specialize (IH l Hl). simpl. lia.
  - destruct (utf8_prefix (c :: l)) as [n|] eqn:Hn; [|done].
    destruct (utf8_prefix_take (c :: l) n [] Hn) as (_ & Hlen & Hpos).
    specialize (IH _ Hl). rewrite length_drop in IH.
    rewrite length_app.
    assert (n ≤ length (c :: l))%nat.
    { rewrite <- Hlen. rewrite length_take. lia. }
    repeat case_bool_decide.
    + assert (n = 3%nat) as -> by (rewrite <- Hlen; by rewrite H0).
      simpl in *. lia.
    + assert (n = 3%nat) as -> by (rewrite <- Hlen; by rewrite H1).
      simpl in *. lia.
    + rewrite Hlen. lia.
Qed.

(** A string between its quotes. *)
Lemma parse_quoted_encode s rest :
  well_formed_utf8 (String.length s) (chars s) = true →
  ∃ raw,
    parse_quoted (encode_bytes (String.length s) (chars s) ++ quote :: rest)
    = Parsed (raw, chars s) rest.
Proof.
  intros Hs. unfold parse_quoted.
  rewrite parse_string_encode; [by eexists|done|].
  rewrite length_app. simpl.
  pose proof (encode_bytes_length _ _ Hs). lia.
Qed.

Lemma parse_string_plain p fuel rest acc :
  forallb is_plain p = true → (length p < fuel)%nat →
  parse_string fuel (p ++ quote :: rest) acc = Parsed (rev acc ++ p) rest.
Proof.
  revert fuel acc. induction p as [|c p IH]; intros fuel acc Hp Hfuel.
  { destruct fuel; [simpl in Hfuel; lia|]. simpl. by rewrite app_nil_r. }
  destruct fuel as [|fuel]; [simpl in Hfuel; lia|].
  simpl in Hp, Hfuel. apply andb_true_iff in Hp as [Hc Hp].
  unfold is_plain, between in Hc.
  apply andb_true_iff in Hc as [[[Hlo Hhi]%andb_true_iff Hq%negb_true_iff]%andb_true_iff
                                  Hb%negb_true_iff].
  apply N.leb_le in Hlo, Hhi.
  cbn [app parse_string]. rewrite Hq, Hb.
  rewrite (proj2 (N.ltb_ge (code c) 0x20)) by lia.
  rewrite (proj2 (N.ltb_lt (code c) 0x80)) by lia.
  rewrite IH by (done || lia). simpl. by rewrite <- app_assoc.
Qed.

Lemma parse_quoted_plain p rest :
  forallb is_plain p = true →
  parse_quoted (p ++ quote :: rest) = Parsed (p, p) rest.
Proof.
  intros Hp. unfold parse_quoted.
  rewrite parse_string_plain by (done || (rewrite length_app; simpl; lia)).
  simpl. do 2 f_equal.
  rewrite length_app. simpl.
  replace (length p + S (length rest) - length rest - 1)%nat with (length p) by lia.
  by rewrite take_app_length.
Qed.

(** ** Timestamps *)

Lemma days_in_bound month year : 28 ≤ days_in month year ≤ 31.
Proof. unfold days_in. repeat case_match; lia. Qed.

Lemma parse_uint_digits width n lo hi :
  0 ≤ n < 10 ^ Z.of_nat width → lo ≤ n ≤ hi →
  parse_uint (digits width n) lo hi = Some n.
Proof.
  intros Hn Hrange. destruct (digits_spec width n Hn) as (Hnum & _ & Hall).
  unfold parse_uint. rewrite Hall, Hnum.
  rewrite (proj2 (Z.leb_le lo n)), (proj2 (Z.leb_le n hi)) by lia. done.
Qed.

Lemma digit_is_plain c : is_digit c = true → is_plain c = true.
Proof.
  intros (d & Hd & ->)%digit_cases. by each_digit d Hd.
Qed.

Lemma digits_plain ds :
  forallb is_digit ds = true → forallb is_plain ds = true.
Proof.
  induction ds as [|c ds IH]; [done|]. simpl.
  intros [Hc Hds]%andb_true_iff. by rewrite digit_is_plain, IH.
Qed.

Lemma number_zeros ds k :
  number (ds ++ replicate k "0"%char) = number ds * 10 ^ Z.of_nat k.
Proof.
  induction k as [|k IH]; [rewrite app_nil_r; simpl; lia|].
  rewrite replicate_S_end, app_assoc, number_snoc, IH.
  rewrite Nat2Z.inj_succ, Z.pow_succ_r by lia.
  change (Z.of_N (code "0"%char - 48)) with 0. lia.
Qed.

Lemma strip_zeros_spec l :
  ∃ k, l = replicate k "0"%char ++ strip_zeros l.
Proof.
  induction l as [|c l [k IH]]; [by exists 0%nat|]. simpl.
  case_bool_decide as Hc; [|by exists 0%nat].
  subst c. exists (S k). simpl. by rewrite <- IH.
Qed.

Lemma rev_replicate {A} k (x : A) : rev (replicate k x) = replicate k x.
Proof.
  induction k as [|k IH]; [done|]. simpl. rewrite IH.
  by rewrite <- replicate_S_end.
Qed.

(** The fraction of a second as written: its digits up to the last one
    that is not zero. *)
Lemma fraction_digits nsec :
  0 < nsec ≤ 999999999 →
  ∃ c ds, rev (strip_zeros (rev (digits 9 nsec))) = c :: ds ∧
          forallb is_digit (c :: ds) = true ∧
          parse_nanoseconds (c :: ds) = nsec.
Proof.
  intros Hn.
  destruct (digits_spec 9 nsec) as (Hnum & Hlen & Hall); [simpl; lia|].
  destruct (strip_zeros_spec (rev (digits 9 nsec))) as [k Hk].
  apply (f_equal (@rev ascii)) in Hk.
  rewrite rev_involutive, rev_app_distr, rev_replicate in Hk.
  set (ds := rev (strip_zeros (rev (digits 9 nsec)))) in *.
  assert (forallb is_digit ds = true) as Hds.
  { rewrite Hk, forallb_app in Hall. by apply andb_true_iff in Hall as [-> _]. }
  assert (length ds + k = 9)%nat as Hlen'.
  { rewrite <- Hlen, Hk, length_app, length_replicate. done. }
  assert (number ds * 10 ^ Z.of_nat k = nsec) as Hval.
  { rewrite <- number_zeros, <- Hk. done. }
  destruct ds as [|c ds'] eqn:Heq.
  { change (number []) with 0 in Hval. lia. }
  exists c, ds'. split_and!; [done..|].
  unfold parse_nanoseconds. rewrite take_ge by lia.
  by replace (9 - length (c :: ds'))%nat with k by lia.
Qed.

Lemma digits_2 n : digits 2 n = [digit (n / 10 mod 10); digit (n mod 10)].
Proof. reflexivity. Qed.

Lemma digits_4 n :
  digits 4 n = [digit (n / 10 / 10 / 10 mod 10); digit (n / 10 / 10 mod 10);
                digit (n / 10 mod 10); digit (n mod 10)].
Proof. reflexivity. Qed.

(** The date and time of day of a timestamp, found at their places. *)
Lemma parse_time_fields y m d h mi s rest :
  let l := digits 4 y ++ "-"%char :: digits 2 m ++ "-"%char :: digits 2 d
           ++ "T"%char :: digits 2 h ++ ":"%char :: digits 2 mi
           ++ ":"%char :: digits 2 s ++ rest in
  (length l <? 19)%nat = false ∧
  slice l 0 4 = digits 4 y ∧ slice l 5 7 = digits 2 m ∧
  slice l 8 10 = digits 2 d ∧ slice l 11 13 = digits 2 h ∧
  slice l 14 16 = digits 2 mi ∧ slice l 17 19 = digits 2 s ∧
  is_char l 4 "-"%char && is_char l 7 "-"%char && is_char l 10 "T"%char
  && is_char l 13 ":"%char && is_char l 16 ":"%char = true ∧
  drop 19 l = rest.
Proof. rewrite !digits_2, digits_4. by split_and!. Qed.

(** The zone as written, for an offset of whole minutes below 24 hours:
    [Z], or a sign and then hours and minutes that give the offset back. *)
Lemma encode_zone_spec offset :
  offset mod 60 = 0 → -86400 < offset < 86400 →
  ∃ z zs,
    encode_zone offset = z :: zs ∧ is_digit z = false ∧ z ≠ "."%char ∧
    forallb is_plain (z :: zs) = true ∧
    if bool_decide (z :: zs = ["Z"%char]) then offset = 0
    else parse_offset (z :: zs) = Some offset.
Proof.
  intros Hmod Hrange. unfold encode_zone.
  destruct (offset =? 0) eqn:Hzero.
  { apply Z.eqb_eq in Hzero. by exists "Z"%char, []. }
  apply Z.eqb_neq in Hzero.
  apply Z.mod_divide in Hmod as [k Hk]; [|done].
  assert (offset ÷ 60 = k) as -> by (subst offset; by apply Z.quot_mul).
  set (a := Z.abs k).
  assert (0 < a < 1440) as Ha by lia.
  pose proof (Z.div_mod a 60 ltac:(lia)) as Hdm.
  pose proof (Z.mod_pos_bound a 60 ltac:(lia)) as Hmm.
  assert (0 ≤ a / 60 ≤ 23) as Hhh.
  { split; [apply Z.div_pos; lia|].
    assert (a / 60 < 24); [|lia]. apply Z.div_lt_upper_bound; lia. }
  destruct (digits_spec 2 (a / 60)) as (_ & _ & Hhd); [simpl; lia|].
  destruct (digits_spec 2 (a mod 60)) as (_ & _ & Hmd); [simpl; lia|].
  eexists _, _. split; [done|].
  assert (∀ sign : ascii,
            parse_offset (sign :: digits 2 (a / 60) ++ ":"%char :: digits 2 (a mod 60))
            = if is_char [sign] 0 "-"%char || is_char [sign] 0 "+"%char
              then Some ((if is_char [sign] 0 "-"%char then -1 else 1) * a * 60)
              else None) as Hparse.
  { intros sign. unfold parse_offset. rewrite !digits_2.
    change (slice _ 1 3) with (digits 2 (a / 60)).
    change (slice _ 4 6) with (digits 2 (a mod 60)).
    rewrite !(parse_uint_digits 2) by (simpl; lia).
    cbn [length Nat.eqb]. unfold is_char. cbn [lookup list_lookup].
    rewrite (bool_decide_true (Some ":"%char = Some ":"%char)) by done.
    rewrite andb_true_r. by replace (a / 60 * 60 + a mod 60) with a by lia. }
  assert (forallb is_plain
            (digits 2 (a / 60) ++ ":"%char :: digits 2 (a mod 60)) = true)
    as Hplain.
  { rewrite forallb_app. cbn [forallb].
    by rewrite (digits_plain _ Hhd), (digits_plain _ Hmd). }
  destruct (k <? 0) eqn:Hneg.
  - apply Z.ltb_lt in Hneg. split_and!; [done|done|by cbn [forallb]; rewrite Hplain|].
    rewrite bool_decide_false by done. rewrite Hparse.
    unfold is_char. simpl. f_equal. lia.
  - apply Z.ltb_ge in Hneg. split_and!; [done|done|by cbn [forallb]; rewrite Hplain|].
    rewrite bool_decide_false by done. rewrite Hparse.
    unfold is_char. simpl. f_equal. lia.
Qed.

Lemma parseRFC3339_format t :
  valid_time t → parseRFC3339 (format_time t) = Some t.
Proof.
  intros (Hy & Hm & Hd & Hh & Hmi & Hs & Hn & Hzone & Hday).
  pose proof (days_in_bound (Month t) (Year t)) as Hdays.
  destruct (encode_zone_spec (Offset t) Hzone Hday)
    as (z & zs & Hz & Hzd & Hzdot & _ & Hoffset).
  unfold format_time. rewrite Hz.
  destruct (parse_time_fields (Year t) (Month t) (Day t) (Hour t) (Minute t)
              (Second t) (encode_fraction (Nanosecond t) ++ z :: zs))
    as (Hlen & Hf1 & Hf2 & Hf3 & Hf4 & Hf5 & Hf6 & Hsep & Hrest).
  unfold parseRFC3339.
  rewrite Hlen, Hf1, Hf2, Hf3, Hf4, Hf5, Hf6, Hsep, Hrest.
  rewrite (parse_uint_digits 4), !(parse_uint_digits 2) by (simpl; lia).
  assert (∀ nsec,
            nsec = Nanosecond t →
            (if bool_decide (z :: zs = ["Z"%char])
             then Some (Date (Year t) (Month t) (Day t) (Hour t) (Minute t)
                          (Second t) nsec 0)
             else match parse_offset (z :: zs) with
                  | Some offset =>
                    Some (Date (Year t) (Month t) (Day t) (Hour t) (Minute t)
                            (Second t) nsec offset)
                  | None => None
                  end) = Some t) as Hend.
  { intros nsec ->. destruct (bool_decide (z :: zs = ["Z"%char])).
    - destruct t. simpl in *. by subst.
    - rewrite Hoffset. by destruct t. }
  unfold encode_fraction.
  destruct (Nanosecond t =? 0) eqn:Hzero.
  - apply Z.eqb_eq in Hzero. cbn [app].
    assert ((match zs with
             | [] => (0, z :: zs)
             | d :: _ =>
               if bool_decide (z = "."%char) && is_digit d
               then let (ds, l) := span_digits (drop 1 (z :: zs)) in
                    (parse_nanoseconds ds, l)
               else (0, z :: zs)
             end) = (0, z :: zs)) as ->.
    { destruct zs; [done|]. by rewrite bool_decide_false. }
    by apply Hend.
  - apply Z.eqb_neq in Hzero.
    destruct (fraction_digits (Nanosecond t)) as (c & ds & -> & Hall & Hns);
      [lia|].
    cbn [app]. simpl in Hall. apply andb_true_iff in Hall as [Hc Hall].
    rewrite Hc. rewrite bool_decide_true by done. cbn [andb drop].
    rewrite (app_comm_cons ds (z :: zs) c).
    rewrite (span_digits_app (c :: ds) z zs) by (simpl; by rewrite ?Hc).
    cbv beta iota zeta. by apply Hend.
Qed.

Lemma parse_time_format t :
  valid_time t → parse_time (format_time t) = Some t.
Proof. intros Ht. unfold parse_time. by rewrite parseRFC3339_format. Qed.

Lemma encode_fraction_plain nsec :
  0 ≤ nsec ≤ 999999999 → forallb is_plain (encode_fraction nsec) = true.
Proof.
  intros Hn. unfold encode_fraction.
  destruct (nsec =? 0) eqn:Hzero; [done|].
  apply Z.eqb_neq in Hzero.
  destruct (fraction_digits nsec) as (c & ds & -> & Hall & _); [lia|].
  change (is_plain "."%char && forallb is_plain (c :: ds) = true).
  by rewrite (digits_plain _ Hall).
Qed.

Lemma format_time_plain t :
  valid_time t → forallb is_plain (format_time t) = true.
Proof.
  intros (Hy & Hm & Hd & Hh & Hmi & Hs & Hn & Hzone & Hday).
  pose proof (days_in_bound (Month t) (Year t)) as Hdays.
  destruct (encode_zone_spec (Offset t) Hzone Hday)
    as (z & zs & Hz & _ & _ & Hplain & _).
  unfold format_time. rewrite Hz.
  repeat (rewrite forallb_app || cbn [forallb]).
  rewrite !digits_plain by (apply digits_spec; simpl; lia).
  rewrite encode_fraction_plain by done. cbn [forallb] in Hplain.
  by rewrite Hplain.
Qed.

(** ** Values *)

Lemma renders_int z : is_int z → renders (encode_int z) (Number (encode_int z)).
Proof.
  intros Hz fuel t rest Ht. apply parse_value_number.
  - by apply encode_int_head.
  - by apply parse_number_int.
Qed.

Lemma renders_bool (b : bool) :
  renders (chars (if b then "true" else "false")) (Bool b).
Proof.
  intros fuel t rest Ht. destruct b; dispatch; crunch; done.
Qed.

Lemma renders_string s :
  well_formed_utf8 (String.length s) (chars s) = true →
  ∃ raw, renders (encode_string s) (String_ raw (chars s)).
Proof.
  intros Hs. set (body := encode_bytes (String.length s) (chars s)).
  exists body. intros fuel t rest Ht. unfold encode_string. fold body.
  rewrite <- app_assoc. cbn [app]. rewrite <- app_assoc. cbn [app].
  dispatch. unfold parse_quoted, body.
  rewrite parse_string_encode; [|done|].
  - cbn [rev app]. do 3 f_equal. fold body.
    rewrite length_app. cbn [length].
    replace (length body + S (S (length rest)) - S (length rest) - 1)%nat
      with (length body) by lia.
    by rewrite take_app_length.
  - rewrite length_app. cbn [length].
    pose proof (encode_bytes_length _ _ Hs). lia.
Qed.

Lemma renders_plain p :
  forallb is_plain p = true → renders (quote :: p ++ [quote]) (String_ p p).
Proof.
  intros Hp fuel t rest Ht.
  cbn [app]. rewrite <- app_assoc. cbn [app].
  dispatch. by rewrite parse_quoted_plain.
Qed.

(** ** Objects and arrays *)

Lemma skip_space_idemp l : skip_space (skip_space l) = skip_space l.
Proof.
  induction l as [|c l IH]; [done|]. simpl.
  destruct (is_space c) eqn:Hc; [done|]. simpl. by rewrite Hc.
Qed.

Lemma parse_value_skip fuel l :
  parse_value fuel (skip_space l) = parse_value fuel l.
Proof. destruct fuel; [done|]. cbn [parse_value]. by rewrite skip_space_idemp. Qed.

Lemma parse_members_skip fuel l acc :
  parse_members fuel (skip_space l) acc = parse_members fuel l acc.
Proof. destruct fuel; [done|]. cbn [parse_members]. by rewrite skip_space_idemp. Qed.

Lemma parse_elements_skip fuel l acc :
  parse_elements fuel (skip_space l) acc = parse_elements fuel l acc.
Proof. destruct fuel; [done|]. cbn [parse_elements]. by rewrite parse_value_skip. Qed.

Lemma parse_member m kv fuel t rest :
  member_renders m kv → terminator t →
  ∃ raw,
    parse_quoted (chars m.1 ++ quote :: chars ": " ++ m.2 ++ t :: rest)
    = Parsed (raw, kv.1) (":"%char :: " "%char :: m.2 ++ t :: rest) ∧
    parse_value (S fuel) (" "%char :: m.2 ++ t :: rest) = Parsed kv.2 (t :: rest).
Proof.
  intros (-> & Hkey & Hv) Ht. exists (chars m.1). split.
  - by rewrite parse_quoted_plain.
  - by apply Hv.
Qed.

Ltac members_step :=
  repeat (progress (cbn [parse_members skip_space app chars list_ascii_of_string
                         encode_member fst snd]; eval_tests)).

Lemma parse_members_encode ms kvs :
  Forall2 member_renders ms kvs → ms ≠ [] →
  ∀ fuel rest acc, (length ms < fuel)%nat →
  parse_members fuel (encode_lines (encode_member <$> ms) ++ chars "  }" ++ rest) acc
  = Parsed (Object (rev acc ++ kvs)) rest.
Proof.
  induction 1 as [|m kv ms kvs Hm Hms IH]; [done|]. intros _ fuel rest acc Hfuel.
  destruct fuel as [|[|fuel]]; [simpl in Hfuel; lia..|].
  remember (S fuel) as fuel1 eqn:Hfuel1.
  destruct ms as [|m' ms].
  - (* the last member *)
    apply Forall2_nil_inv_l in Hms as ->.
    destruct (parse_member m kv fuel newline (chars "  }" ++ rest) Hm)
      as (raw & Hkey & Hval); [by right|].
    cbn [fmap list_fmap encode_lines]. unfold encode_member at 1.
    rewrite <- ?app_assoc. members_step.
    rewrite <- ?app_assoc. cbn [app]. rewrite <- ?app_assoc.
    cbn [chars list_ascii_of_string app] in Hkey |- *. rewrite Hkey.
    members_step. cbn [chars list_ascii_of_string app] in Hval.
    rewrite <- Hfuel1 in Hval. rewrite Hval.
    members_step. by destruct kv.
  - (* a member, a comma, and more members *)
    set (more := encode_lines (encode_member <$> m' :: ms)) in *.
    destruct (parse_member m kv fuel ","%char
                (newline :: more ++ chars "  }" ++ rest) Hm)
      as (raw & Hkey & Hval); [by left|].
    change (encode_lines (encode_member <$> m :: m' :: ms))
      with (encode_member m ++ ","%char :: newline :: more).
    unfold encode_member at 1.
    rewrite <- ?app_assoc. members_step.
    rewrite <- ?app_assoc. cbn [app]. rewrite <- ?app_assoc.
    cbn [chars list_ascii_of_string app] in Hkey |- *. rewrite Hkey.
    members_step. cbn [chars list_ascii_of_string app] in Hval.
    rewrite <- Hfuel1 in Hval. rewrite Hval. members_step.
    rewrite <- (parse_members_skip _ (newline :: _)).
    cbn [skip_space]. eval_tests. rewrite parse_members_skip.
    cbn [chars list_ascii_of_string app] in IH.
    rewrite IH by (done || simpl in *; lia).
    cbn [rev]. rewrite <- app_assoc. by destruct kv.
Qed.

Ltac right_assoc :=
  repeat first [rewrite <- app_assoc | progress cbn [app]].
Tactic Notation "right_assoc" "in" hyp(H) :=
  repeat first [rewrite <- app_assoc in H | progress (cbn [app] in H)].

Lemma parse_object_encode ms kvs :
  Forall2 member_renders ms kvs → ms ≠ [] → (length ms ≤ 5)%nat →
  item_renders
    (chars "  {" ++ newline :: encode_lines (encode_member <$> ms) ++ chars "  }")
    (Object kvs).
Proof.
  intros Hms Hne Hlen. split_and!.
  { rewrite length_app. simpl. rewrite length_app. simpl. lia. }
  { by eexists. }
  intros fuel rest Hfuel.
  destruct fuel as [|fuel]; [lia|].
  pose proof (parse_members_encode ms kvs Hms Hne fuel rest []) as Hparse.
  rewrite <- parse_members_skip in Hparse.
  destruct ms as [|m ms]; [done|].
  assert (encode_lines (encode_member <$> m :: ms)
          = chars "    " ++ quote :: chars m.1 ++ quote :: chars ": " ++ m.2
            ++ (match ms with
                | [] => [newline]
                | _ => ","%char :: newline :: encode_lines (encode_member <$> ms)
                end)) as Hlines.
  { destruct ms; cbn [fmap list_fmap encode_lines]; unfold encode_member at 1;
      by right_assoc. }
  rewrite Hlines in *. clear Hlines.
  cbn [chars list_ascii_of_string] in Hparse |- *.
  right_assoc. right_assoc in Hparse.
  cbn [skip_space] in Hparse. revert Hparse. eval_tests. intros Hparse.
  cbn [parse_value skip_space]. eval_tests.
  cbn [skip_space]. eval_tests.
  apply Hparse. simpl in *. lia.
Qed.

Lemma encode_lines_length items vs :
  Forall2 item_renders items vs →
  (8 * length items ≤ length (encode_lines items))%nat.
Proof.
  induction 1 as [|item v items vs [Hitem _] _ IH]; [simpl; lia|].
  destruct items as [|item' items].
  - simpl. rewrite length_app. simpl. lia.
  - change (encode_lines (item :: item' :: items))
      with (item ++ ","%char :: newline :: encode_lines (item' :: items)).
    rewrite length_app. cbn [length] in *. lia.
Qed.

Ltac elements_step :=
  repeat (progress (cbn [skip_space app]; eval_tests)).

Lemma parse_elements_encode items vs :
  Forall2 item_renders items vs → items ≠ [] →
  ∀ fuel rest acc, (length items + 7 ≤ fuel)%nat →
  parse_elements fuel (encode_lines items ++ "]"%char :: rest) acc
  = Parsed (Array (rev acc ++ vs)) rest.
Proof.
  induction 1 as [|item v items vs (_ & _ & Hitem) Hitems IH]; [done|].
  intros _ fuel rest acc Hfuel.
  destruct fuel as [|fuel]; [simpl in Hfuel; lia|].
  simpl in Hfuel. cbn [parse_elements].
  destruct items as [|item' items].
  - apply Forall2_nil_inv_l in Hitems as ->.
    cbn [encode_lines]. rewrite <- app_assoc.
    rewrite Hitem by lia. elements_step. done.
  - set (more := encode_lines (item' :: items)) in *.
    change (encode_lines (item :: item' :: items))
      with (item ++ ","%char :: newline :: more).
    rewrite <- app_assoc. rewrite Hitem by lia. elements_step.
    rewrite <- (parse_elements_skip _ (newline :: _)).
    cbn [skip_space]. eval_tests. rewrite parse_elements_skip.
    rewrite IH by (done || simpl in *; lia).
    cbn [rev]. by rewrite <- app_assoc.
Qed.


(** ** Items and collections *)

Lemma text_chars s : text (chars s) = s.
Proof. apply string_of_list_ascii_of_string. Qed.

Lemma chars_text l : chars (text l) = l.
Proof. apply list_ascii_of_string_of_list_ascii. Qed.

Lemma encode_time_valid t :
  valid_time t → encode_time t = Ok (quote :: format_time t ++ [quote]).
Proof.
  intros (Hyear & _ & _ & _ & _ & _ & _ & Hzone & Hday). unfold encode_time.
  rewrite bool_decide_true by done. rewrite bool_decide_true; [done|].
  apply Z.mod_divide in Hzone as [k Hk]; [|done].
  assert (Offset t ÷ 60 = k) as -> by (rewrite Hk; by apply Z.quot_mul).
  apply Z.div_lt_upper_bound; lia.
Qed.

Lemma renders_time t :
  valid_time t →
  renders (quote :: format_time t ++ [quote])
    (String_ (format_time t) (format_time t)).
Proof. intros Ht. by apply renders_plain, format_time_plain. Qed.

Lemma decode_time_format t raw :
  valid_time t → decode_time (String_ (format_time t) raw) = Ok t.
Proof. intros Ht. unfold decode_time. by rewrite parse_time_format. Qed.

Ltac member_ok :=
  unfold member_renders; cbn [fst snd]; split_and!; [done | by vm_compute |].

Ltac decode_step :=
  cbn [decode_members]; unfold decode_member; eval_tests.

Lemma encode_members_decode todo :
  storable todo →
  ∃ ms kvs,
    encode_members todo = Ok ms ∧ Forall2 member_renders ms kvs ∧
    ms ≠ [] ∧ (length ms ≤ 5)%nat ∧ decode_members zero_todo kvs = Ok todo.
Proof.
  destruct todo as [id description completed created completed_at].
  intros (Hid & Hdescription & Hcreated & Hcompleted). cbn in Hid, Hdescription, Hcreated, Hcompleted.
  destruct (renders_string description Hdescription) as [raw Hraw].
  unfold encode_members. cbn [ID Description Completed CreatedAt CompletedAt].
  rewrite (encode_time_valid created Hcreated).
  destruct completed_at as [t|].
  - rewrite (encode_time_valid t Hcompleted).
    eexists _, [ (chars "id", Number (encode_int id));
                 (chars "description", String_ raw (chars description));
                 (chars "completed", Bool completed);
                 (chars "created_at", String_ (format_time created) (format_time created));
                 (chars "completed_at", String_ (format_time t) (format_time t)) ].
    split; [done|]. split_and!; [|done|simpl; lia|].
    + cbn [app]. repeat (constructor; [member_ok|]); [..|constructor].
      * by apply renders_int.
      * done.
      * apply renders_bool.
      * by apply renders_time.
      * by apply renders_time.
    + decode_step. rewrite decode_int_encode by done.
      decode_step. decode_step. decode_step.
      rewrite decode_time_format by done. decode_step.
      rewrite decode_time_format by done.
      cbn. by rewrite text_chars.
  - eexists _, [ (chars "id", Number (encode_int id));
                 (chars "description", String_ raw (chars description));
                 (chars "completed", Bool completed);
                 (chars "created_at", String_ (format_time created) (format_time created)) ].
    split; [done|]. split_and!; [|done|simpl; lia|].
    + cbn [app]. repeat (constructor; [member_ok|]); [..|constructor].
      * by apply renders_int.
      * done.
      * apply renders_bool.
      * by apply renders_time.
    + decode_step. rewrite decode_int_encode by done.
      decode_step. decode_step. decode_step.
      rewrite decode_time_format by done.
      cbn. by rewrite text_chars.
Qed.

Lemma encode_todos_decode ts :
  Forall storable ts →
  ∃ items vs,
    encode_todos ts = Ok items ∧ Forall2 item_renders items vs ∧
    decode_todos vs = Ok ts.
Proof.
  induction 1 as [|todo ts Htodo _ (items & vs & Hitems & Hvs & Hts)].
  { by exists [], []. }
  destruct (encode_members_decode todo Htodo)
    as (ms & kvs & Hms & Hkvs & Hne & Hlen & Hdecode).
  eexists (_ :: items), (Object kvs :: vs). split_and!.
  - cbn [encode_todos]. unfold encode_todo. by rewrite Hms, Hitems.
  - constructor; [|done]. by apply parse_object_encode.
  - cbn [decode_todos decode_todo]. by rewrite Hdecode, Hts.
Qed.

(** The decoder reads back the collections of storable items. *)
Lemma Unmarshal_MarshalIndent ts :
  Forall storable ts →
  ∃ data, MarshalIndent ts = Ok data ∧ Unmarshal data = Ok ts.
Proof.
  intros Hts. destruct (encode_todos_decode ts Hts) as (items & vs & Hitems & Hvs & Hdecode).
  destruct ts as [|todo ts].
  { exists "[]"%string. split; [done|]. by vm_compute. }
  unfold MarshalIndent. rewrite Hitems. eexists. split; [done|].
  unfold Unmarshal, parse. rewrite chars_text.
  pose proof (encode_lines_length items vs Hvs) as Hlen.
  pose proof (parse_elements_encode items vs Hvs) as Hparse.
  destruct items as [|item items].
  { cbn in Hitems. repeat case_match; done. }
  specialize (Hparse ltac:(done)).
  set (lines := encode_lines (item :: items)) in *.
  set (fuel := (2 * length ("["%char :: newline :: lines ++ ["]"%char]))%nat).
  specialize (Hparse fuel [] []).
  rewrite <- parse_elements_skip in Hparse.
  assert (∃ tail, skip_space (lines ++ ["]"%char]) = "{"%char :: tail)
    as [tail Htail].
  { assert (∃ tail, item = chars "  {" ++ tail) as [tail ->].
    { by inversion Hvs as [|? ? ? ? (_ & Hitem & _)]. }
    subst lines.
    destruct items; cbn [encode_lines]; right_assoc; cbn [chars list_ascii_of_string];
      right_assoc; cbn [skip_space]; eval_tests; by eexists. }
  replace (fuel + 1)%nat with (S fuel) by lia.
  cbn [parse_value skip_space]. eval_tests.
  cbn [skip_space]. eval_tests.
  rewrite Htail in *. eval_tests.
  rewrite Hparse.
  - cbn [skip_space rev app]. done.
  - subst fuel. cbn [length] in *. rewrite length_app. cbn [length]. lia.
Qed.

End GoJSONFacts.

(** * The JSON repository: properties *)

Section RepositoryProperties.
Variable codec : json.Codec.
Implicit Types (r : storage.JSONRepository) (fs : os.FileSystem).

Lemma Load_regular r fs data :
  fs !! storage.filename r = Some (os.Regular data) →
  storage.Load codec r fs =
  if (String.length data =? 0)%nat then Ok []
  else match json.Unmarshal codec data with
       | Err err => Err (ErrUnmarshal err)
       | Ok ts => Ok ts
       end.
Proof.
  intros Hfile. unfold storage.Load, os.Stat, os.ReadFile. by rewrite Hfile.
Qed.

Lemma length_zero_empty (data : string) :
  (String.length data =? 0)%nat = bool_decide (data = "").
Proof. by destruct data. Qed.

Lemma Save_Ok r fs ts fs' :
  storage.Save codec r fs ts = (fs', None) →
  ∃ data, json.MarshalIndent codec ts = Ok data ∧
          fs' = <[storage.filename r := os.Regular data]> fs.
Proof.
  unfold storage.Save, os.WriteFile.
  destruct (json.MarshalIndent codec ts) as [data|err]; [|done].
  destruct (fs !! storage.filename r) as [[|old]|]; [done| |];
    intros [= <-]; by exists data.
Qed.

(** What [Load] returns after [Save], for every codec whose decoder reads
    the collection back from the encoder's output and rejects the empty
    input. *)
Lemma Load_after_Save r fs ts fs' :
  rejects_empty_input codec →
  decodes_own_output codec ts →
  storage.Save codec r fs ts = (fs', None) →
  storage.Load codec r fs' = Ok ts.
Proof.
  intros [err Hempty] Hdec (data & Hdata & ->)%Save_Ok.
  rewrite (Load_regular r _ data) by apply lookup_insert_eq.
  rewrite length_zero_empty. specialize (Hdec data Hdata).
  case_bool_decide as Hd; [|by rewrite Hdec].
  subst data. congruence.
Qed.

(** C7, with the empty file set apart: [Load] returns the empty collection
    and no error when the file does not exist, and fails with the
    corrupt-data error "failed to unmarshal todos" when the file has
    content, at least one byte of it, that the decoder rejects. *)
Theorem Load_missing_or_malformed r fs :
  (fs !! storage.filename r = None → storage.Load codec r fs = Ok []) ∧
  (∀ data err,
     fs !! storage.filename r = Some (os.Regular data) →
     data ≠ "" →
     json.Unmarshal codec data = Err err →
     storage.Load codec r fs = Err (ErrUnmarshal err)).
Proof.
  split.
  - intros Hfile. unfold storage.Load, os.Stat. by rewrite Hfile.
  - intros data err Hfile Hdata Herr.
    rewrite (Load_regular r fs data Hfile), length_zero_empty.
    rewrite bool_decide_false by done. by rewrite Herr.
Qed.

End RepositoryProperties.

(** ** Over encoding/json *)

Lemma GoJSON_rejects_empty_input : rejects_empty_input GoJSON.codec.
Proof. by exists GoJSON.SyntaxEnd. Qed.

Lemma GoJSON_decodes_own_output ts :
  Forall GoJSON.storable ts → decodes_own_output GoJSON.codec ts.
Proof.
  intros Hts data Hdata.
  destruct (GoJSONFacts.Unmarshal_MarshalIndent ts Hts) as (data' & Hdata' & Hts').
  cbn [json.MarshalIndent json.Unmarshal GoJSON.codec] in *. congruence.
Qed.


(** * Failing writes *)

Lemma Mock_Save_failed m ts m' err :
  Mock_Save m ts = (m', Some err) → m' = m.
Proof. unfold Mock_Save. destruct (mock_err m); by intros [= <-]. Qed.

(** C8: when [Save] fails during [Add], [Complete], [Incomplete] or
    [Delete], the call returns the failure ([Add] wraps it in "failed to
    save todo") and the service keeps the mutated collection: the new item
    stays appended and the counter stays advanced, the flag and timestamp
    stay changed, the item stays removed; the collection in memory is no
    longer the one of before the call.  A failing [Save] of the mock
    repository leaves its store as it was before the call, so there memory
    and store have diverged. *)
Theorem failed_Save_is_not_rolled_back :
  (∀ R (impl : Repository R) (s : Service R) now err r',
     (∀ description,
        description ≠ "" →
        let todos' :=
          todos s ++ [mkTodo (nextID s) description false now None] in
        Save impl (repo s) todos' = (r', Some err) →
        Add impl s now description =
          (mkService r' todos' (wrap_int (nextID s + 1)),
           Err (ErrSaveTodo err)) ∧
        todos' ≠ todos s) ∧
     (∀ id l1 todo l2,
        todos s = l1 ++ todo :: l2 → ID todo = id → id ∉ ID <$> l1 →
        (Completed todo = false →
           let todos' :=
             l1 ++ mkTodo id (Description todo) true (CreatedAt todo) (Some now)
                :: l2 in
           Save impl (repo s) todos' = (r', Some err) →
           Complete impl s now id = (mkService r' todos' (nextID s), Some err) ∧
           todos' ≠ todos s) ∧
        (Completed todo = true →
           let todos' :=
             l1 ++ mkTodo id (Description todo) false (CreatedAt todo) None
                :: l2 in
           Save impl (repo s) todos' = (r', Some err) →
           Incomplete impl s id = (mkService r' todos' (nextID s), Some err) ∧
           todos' ≠ todos s) ∧
        (Save impl (repo s) (l1 ++ l2) = (r', Some err) →
           Delete impl s id = (mkService r' (l1 ++ l2) (nextID s), Some err) ∧
           l1 ++ l2 ≠ todos s))) ∧
  (∀ m ts m' err, Save Mock m ts = (m', Some err) → m' = m).
Proof.
  split; [|apply Mock_Save_failed].
  intros R impl s now err r'. split.
  - intros description Hd todos' Hsave.
    rewrite (Add_valid impl s now description Hd). fold todos'. rewrite Hsave.
    split; [done|]. intros Heq%(f_equal length).
    unfold todos' in Heq. rewrite length_app in Heq. simpl in Heq. lia.
  - intros id l1 todo l2 Hs Hid Hl1. split_and!.
    + intros Hc todos' Hsave.
      rewrite (Complete_found impl s now id l1 todo l2), Hc, save_eq by done.
      unfold set_CompletedAt, set_Completed. simpl. rewrite Hid.
      fold todos'. rewrite Hsave. split; [done|].
      rewrite Hs. unfold todos'. intros Heq%app_inv_head.
      injection Heq as Heq. rewrite <- Heq in Hc. done.
    + intros Hc todos' Hsave.
      rewrite (Incomplete_found impl s id l1 todo l2), Hc, save_eq by done.
      unfold set_CompletedAt, set_Completed. simpl. rewrite Hid.
      fold todos'. rewrite Hsave. split; [done|].
      rewrite Hs. unfold todos'. intros Heq%app_inv_head.
      injection Heq as Heq. rewrite <- Heq in Hc. done.
    + intros Hsave.
      rewrite (Delete_found impl s id l1 todo l2), save_eq by done.
      simpl. rewrite Hsave. split; [done|].
      rewrite Hs. intros Heq%(f_equal length).
      rewrite !length_app in Heq. simpl in Heq. lia.
Qed.

(** C10: [Load] returns the empty collection and no error when the file
    exists and holds zero bytes, whatever the decoder makes of the empty
    input; and to encoding/json the empty input is not a JSON text, it
    answers "unexpected end of JSON input". *)
Theorem Load_zero_bytes (codec : json.Codec) r fs :
  fs !! storage.filename r = Some (os.Regular "") →
  storage.Load codec r fs = Ok [] ∧
  json.Unmarshal GoJSON.codec "" = Err GoJSON.SyntaxEnd.
Proof.
  intros Hfile. split; [|reflexivity].
  by rewrite (Load_regular codec r fs "" Hfile).
Qed.

(** * The todo service: lookups, identifiers and calls one after the other *)

Section MoreServiceProperties.
Context {R : Type} (impl : Repository R).
Implicit Types (s : Service R) (todo : Todo) (id : Z) (now : Time).

(** ** Lookups *)

(** The search for an identifier passes over an item that has another. *)
Lemma list_find_other id (l1 : list Todo) todo (l2 : list Todo) :
  ID todo ≠ id →
  list_find (λ todo, ID todo = id) (l1 ++ todo :: l2)
  = list_find (λ todo, ID todo = id) (l1 ++ l2) ≫= λ p,
    Some (if decide (p.1 < length l1)%nat then p.1 else S p.1, p.2).
Proof.
  intros Hid. induction l1 as [|todo1 l1 IH].
  - simpl. rewrite decide_False by done.
    destruct (list_find _ l2) as [[i x]|]; [|done]. simpl. done.
  - cbn [app list_find]. destruct (decide (ID todo1 = id)); [done|].
    rewrite IH. destruct (list_find _ (l1 ++ l2)) as [[i x]|]; [|done].
    simpl. repeat case_decide; try lia; done.
Qed.

(** [GetByID] fails with the not-found error exactly when no item has the
    identifier; what it returns otherwise is the place and the value of
    the first item with the identifier. *)
Theorem GetByID_first_match s id :
  (GetByID s id = Err (ErrNotFound id) ↔ id ∉ ID <$> todos s) ∧
  (∀ i todo,
     GetByID s id = Ok (i, todo) ↔
     todos s !! i = Some todo ∧ ID todo = id ∧
     ∀ j todo', todos s !! j = Some todo' → (j < i)%nat → ID todo' ≠ id).
Proof.
  unfold GetByID. split.
  - split.
    + destruct (list_find _ _) as [[i todo]|] eqn:Hfind; [done|]. intros _.
      intros (todo & Hid & Hin)%list_elem_of_fmap.
      eapply list_find_None, Forall_forall in Hfind; [|exact Hin]. done.
    + intros Habs. by rewrite list_find_absent.
  - intros i todo. split.
    + destruct (list_find _ _) as [[i' todo']|] eqn:Hfind; [|done].
      intros [= -> ->]. by apply list_find_Some in Hfind.
    + intros Hfirst.
      by apply (list_find_Some (λ todo, ID todo = id)) in Hfirst as ->.
Qed.

(** [GetByStatus] returns the items with the given flag, in the order of
    the collection; the completed and the pending items together are the
    collection, and their numbers are the [Completed] and [Pending] of
    [GetStats]. *)
Theorem GetByStatus_splits s :
  (∀ completed todo,
     todo ∈ GetByStatus s completed ↔
     todo ∈ GetAll s ∧ Completed todo = completed) ∧
  (∀ completed, sublist (GetByStatus s completed) (GetAll s)) ∧
  GetByStatus s true ++ GetByStatus s false ≡ₚ GetAll s ∧
  (Z.of_nat (length (GetAll s)) ≤ max_int →
     Completed_ (GetStats s) = Z.of_nat (length (GetByStatus s true)) ∧
     Pending (GetStats s) = Z.of_nat (length (GetByStatus s false))).
Proof.
  unfold GetByStatus, GetAll. split_and!.
  - intros completed todo. rewrite list_elem_of_filter. tauto.
  - intros completed. apply sublist_filter.
  - induction (todos s) as [|todo ts IH]; [done|].
    destruct (Completed todo) eqn:Hflag.
    + rewrite filter_cons_True, filter_cons_False by (by rewrite Hflag).
      simpl. by f_equiv.
    + rewrite filter_cons_False, filter_cons_True by (by rewrite Hflag).
      rewrite <- Permutation_middle. by f_equiv.
  - intros Hlen. unfold GetStats. rewrite fold_tally by lia. simpl.
    unfold count_status. split; lia.
Qed.

(** [GetByID] after a call.  After [Add], the identifier it handed out
    is found at the end of the collection, with the new item; after
    [Complete], the identifier is found where it was, with the item
    completed at the clock reading; in both cases the other identifiers
    are found as before.  After [Delete] on a collection of distinct
    identifiers, the identifier is not found.  All of it whatever [Save]
    answers. *)
Theorem GetByID_after_a_call s now :
  (∀ description,
     description ≠ "" → nextID s ∉ ID <$> todos s →
     let s' := (Add impl s now description).1 in
     GetByID s' (nextID s)
     = Ok (length (todos s), mkTodo (nextID s) description false now None) ∧
     ∀ id, id ≠ nextID s → GetByID s' id = GetByID s id) ∧
  (∀ id i todo,
     GetByID s id = Ok (i, todo) →
     (Completed todo = false →
        let s' := (Complete impl s now id).1 in
        GetByID s' id
        = Ok (i, mkTodo id (Description todo) true (CreatedAt todo) (Some now)) ∧
        ∀ id', id' ≠ id → GetByID s' id' = GetByID s id') ∧
     (NoDup (ID <$> todos s) →
        GetByID (Delete impl s id).1 id = Err (ErrNotFound id))).
Proof.
  split.
  - intros description Hd Hfresh. simpl.
    rewrite (Add_valid impl s now description Hd). cbn [fst].
    unfold GetByID. cbn [todos]. split.
    + by rewrite (list_find_first _ (todos s) []).
    + intros id Hid.
      destruct (list_find (λ todo, ID todo = id) (todos s)) as [[i todo]|]
        eqn:Hfind.
      * by rewrite (list_find_app_l _ _ _ _ _ Hfind).
      * rewrite list_find_app_r by done. simpl.
        by rewrite decide_False by done.
  - intros id i todo Hfound. unfold GetByID in Hfound.
    destruct (list_find _ (todos s)) as [[i' todo']|] eqn:Hfind; [|done].
    injection Hfound as -> ->.
    apply list_find_split in Hfind as (l1 & l2 & Hs & <- & Hid & Hl1).
    split.
    + intros Hflag. simpl.
      rewrite (Complete_found impl s now id l1 todo l2), Hflag by done.
      rewrite save_eq. cbn [fst]. unfold GetByID. cbn [todos with_todos].
      split.
      * rewrite (list_find_first id l1 l2) by done. by rewrite <- Hid.
      * intros id' Hid'. rewrite Hs.
        by rewrite !(list_find_other id' l1 _ l2) by (simpl; congruence).
    + intros Hnodup.
      rewrite (Delete_found impl s id l1 todo l2) by done.
      rewrite save_eq. cbn [fst]. unfold GetByID. cbn [todos with_todos].
      rewrite list_find_absent; [done|].
      rewrite Hs, fmap_app, fmap_cons in Hnodup.
      apply NoDup_app in Hnodup as (_ & _ & [Hl2 _]%NoDup_cons).
      rewrite fmap_app, not_elem_of_app. split; [done|]. by rewrite <- Hid.
Qed.

(** ** Identifiers in the collection *)

Lemma max_ID_nonneg (ts : list Todo) : 0 ≤ max_ID ts.
Proof.
  induction ts as [|todo ts IH]; [done|].
  change (max_ID (todo :: ts)) with (Z.max (ID todo) (max_ID ts)). lia.
Qed.

(** The identifiers of the collection after a call: the ones before and
    the counter, after an [Add] that takes it; else some of the ones
    before, in their order. *)
Lemma exec_IDs s now c :
  let ids' := ID <$> todos (exec impl s now c).1 in
  (advances c = true ∧ ids' = (ID <$> todos s) ++ [nextID s]) ∨
  (nextID (exec impl s now c).1 = nextID s ∧ sublist ids' (ID <$> todos s)).
Proof.
  destruct c as [description|id|id|id]; simpl.
  - destruct (decide (description = "")) as [->|Hd]; [by right|].
    left. rewrite bool_decide_true by done.
    rewrite (Add_valid impl s now description Hd). simpl.
    split; [done|].
    destruct (Save impl _ _) as [r [err|]]; simpl; by rewrite fmap_app.
  - right. unfold Complete, GetByID.
    destruct (list_find _ _) as [[i todo]|] eqn:Hfind; [|done].
    destruct (Completed todo); [done|]. rewrite save_eq.
    apply list_find_Some in Hfind as (Hi & _).
    destruct (Save impl _ _) as [r err]. simpl. split; [done|].
    rewrite list_fmap_insert, list_insert_id; [done|].
    by rewrite list_lookup_fmap, Hi.
  - right. unfold Incomplete, GetByID.
    destruct (list_find _ _) as [[i todo]|] eqn:Hfind; [|done].
    destruct (Completed todo); [|done]. rewrite save_eq.
    apply list_find_Some in Hfind as (Hi & _).
    destruct (Save impl _ _) as [r err]. simpl. split; [done|].
    rewrite list_fmap_insert, list_insert_id; [done|].
    by rewrite list_lookup_fmap, Hi.
  - right. unfold Delete.
    destruct (list_find _ _) as [[i todo]|] eqn:Hfind; [|done].
    rewrite save_eq. destruct (Save impl _ _) as [r err]. simpl.
    split; [done|]. apply fmap_sublist.
    rewrite <- (take_drop i (todos s)) at 3.
    apply sublist_app; [done|].
    replace (S i) with (i + 1)%nat by lia.
    rewrite <- drop_drop. apply sublist_drop.
Qed.

Lemma exec_unique s now c :
  NoDup (ID <$> todos s) →
  Forall (λ id, id < nextID s) (ID <$> todos s) →
  is_int (nextID s) →
  nextID s + (if advances c then 1 else 0) ≤ max_int →
  let s' := (exec impl s now c).1 in
  NoDup (ID <$> todos s') ∧ Forall (λ id, id < nextID s') (ID <$> todos s') ∧
  nextID s' = nextID s + (if advances c then 1 else 0).
Proof.
  intros Hnodup Hbelow Hint Hroom. simpl.
  destruct (exec_counter impl s now c) as [Hnext _].
  destruct (exec_IDs s now c) as [[Hadv ->]|[Hsame Hsub]].
  - rewrite Hadv in *. rewrite Hnext.
    rewrite wrap_int_id by (unfold is_int in *; lia).
    split_and!; [|  |done].
    + apply NoDup_app. split_and!; [done| |apply NoDup_singleton].
      intros id Hid ->%list_elem_of_singleton.
      eapply Forall_forall in Hbelow; [|exact Hid]. lia.
    + apply Forall_app. split.
      * eapply Forall_impl; [exact Hbelow|]. simpl. intros; lia.
      * apply Forall_singleton. lia.
  - assert (advances c = false) as Hadv.
    { destruct (advances c) eqn:Hadv; [|done]. rewrite Hnext in Hsame.
      rewrite wrap_int_id in Hsame by (unfold is_int in *; lia). lia. }
    rewrite Hadv in *. rewrite Hnext. split_and!; [| |lia].
    + by eapply sublist_NoDup.
    + eapply Forall_forall. intros id Hid.
      eapply Forall_forall in Hbelow; [exact Hbelow|].
      by eapply elem_of_sublist.
Qed.

(** The counter is above every identifier of a loaded collection, and
    the calls keep the identifiers of the collection distinct and below
    the counter, as long as the counter stays an [int]: [Add] never hands
    out an identifier that an item of the collection has. *)
Theorem identifiers_stay_unique :
  (∀ r ts,
     (Load impl r).2 = Ok ts →
     Forall (λ todo, min_int ≤ ID todo < max_int) ts →
     let s := (NewService impl r).1 in
     todos s = ts ∧ Forall (λ todo, ID todo < nextID s) ts ∧
     1 ≤ nextID s ≤ max_int) ∧
  (∀ s cs,
     NoDup (ID <$> todos s) →
     Forall (λ todo, ID todo < nextID s) (todos s) →
     is_int (nextID s) →
     nextID s + Z.of_nat (advancing cs) ≤ max_int →
     let s' := (run impl s cs).1 in
     NoDup (ID <$> todos s') ∧
     Forall (λ todo, ID todo < nextID s') (todos s') ∧
     nextID s' = nextID s + Z.of_nat (advancing cs)).
Proof.
  split.
  - intros r ts Hload Hts. rewrite (NewService_loaded impl r ts Hload). simpl.
    rewrite fold_bump_nextID by done.
    pose proof (max_ID_upper ts) as Hmax.
    pose proof (max_ID_nonneg ts).
    assert (max_ID ts < max_int).
    { clear -Hts. induction Hts as [|todo ts Htodo _ IH]; [done|].
      change (max_ID (todo :: ts)) with (Z.max (ID todo) (max_ID ts)). lia. }
    split_and!; [done| |lia..].
    eapply Forall_impl; [exact Hmax|]. simpl. intros; lia.
  - intros s cs Hnodup Hbelow Hint Hroom. simpl.
    assert (Forall (λ id, id < nextID s) (ID <$> todos s)) as Hids
      by by apply Forall_fmap.
    clear Hbelow.
    cut (NoDup (ID <$> todos (run impl s cs).1) ∧
         Forall (λ id, id < nextID (run impl s cs).1)
           (ID <$> todos (run impl s cs).1) ∧
         nextID (run impl s cs).1 = nextID s + Z.of_nat (advancing cs)).
    { intros (? & ?%Forall_fmap & ?). done. }
    revert s Hnodup Hids Hint Hroom.
    induction cs as [|[now c] cs IH]; intros s Hnodup Hids Hint Hroom.
    { simpl. split_and!; [done..|]. unfold advancing. simpl. lia. }
    rewrite advancing_cons in *. rewrite run_cons. cbn [fst].
    destruct (exec_unique s now c) as (Hnodup' & Hids' & Hnext');
      [done..|destruct (advances c); lia|].
    destruct (IH (exec impl s now c).1) as (? & ? & Hnext'');
      [done..| | |].
    + rewrite Hnext'. unfold is_int in *. destruct (advances c); lia.
    + rewrite Hnext'. destruct (advances c); lia.
    + split_and!; [done..|]. rewrite Hnext'', Hnext'.
      destruct (advances c); lia.
Qed.

(** ** Calls one after the other *)

(** [Complete] and then [Incomplete] of a pending item that has no
    completion timestamp give back the collection as it was; [Incomplete]
    and then [Complete] of a completed item replace its completion
    timestamp by the clock reading of the second call.  Both hold
    whatever [Save] answers. *)
Theorem Complete_then_Incomplete s now id l1 todo l2 :
  todos s = l1 ++ todo :: l2 → ID todo = id → id ∉ ID <$> l1 →
  (Completed todo = false → CompletedAt todo = None →
     let s' := (Incomplete impl (Complete impl s now id).1 id).1 in
     todos s' = todos s ∧ nextID s' = nextID s) ∧
  (Completed todo = true →
     let s' := (Complete impl (Incomplete impl s id).1 now id).1 in
     todos s' = l1 ++ set_CompletedAt todo (Some now) :: l2 ∧
     nextID s' = nextID s).
Proof.
  intros Hs Hid Hl1. split.
  - intros Hflag Hat. simpl.
    rewrite (Complete_found impl s now id l1 todo l2), Hflag by done.
    rewrite save_eq. cbn [fst].
    erewrite (Incomplete_found impl _ id l1 _ l2); [|done..].
    simpl. rewrite save_eq. simpl. split; [|done].
    rewrite Hs. do 2 f_equal. destruct todo. simpl in *. by subst.
  - intros Hflag. simpl.
    rewrite (Incomplete_found impl s id l1 todo l2), Hflag by done.
    rewrite save_eq. cbn [fst].
    erewrite (Complete_found impl _ now id l1 _ l2); [|done..].
    simpl. rewrite save_eq. simpl. split; [|done].
    do 2 f_equal. destruct todo. simpl in *. by subst.
Qed.

(** [Add] and then [Delete] of the identifier that [Add] handed out give
    back the collection as it was, when no item had that identifier; the
    counter stays advanced, so the service does not hand the identifier
    out again. *)
Theorem Add_then_Delete s now description :
  description ≠ "" → nextID s ∉ ID <$> todos s →
  let s' := (Delete impl (Add impl s now description).1 (nextID s)).1 in
  todos s' = todos s ∧ nextID s' = wrap_int (nextID s + 1).
Proof.
  intros Hd Hfresh. simpl.
  rewrite (Add_valid impl s now description Hd). cbn [fst].
  erewrite (Delete_found impl _ (nextID s) (todos s) _ []); [|done..].
  rewrite save_eq. simpl. by rewrite app_nil_r.
Qed.

(** Within a process the counter moves on, but a new process takes it
    from the file: when the newest item is deleted, the next process hands
    its identifier out again.  Here the counter is one more than the
    largest identifier, as [NewService] and [Add] leave it; [Add] takes
    the identifier [nextID s], [Delete] removes the item, and the store
    holds the collection of the service. *)
Theorem identifier_handed_out_again s now description :
  description ≠ "" →
  Forall (λ todo, is_int (ID todo)) (todos s) →
  nextID s = max_ID (todos s) + 1 → nextID s < max_int →
  let s' := (Delete impl (Add impl s now description).1 (nextID s)).1 in
  (Load impl (repo s')).2 = Ok (todos s') →
  todos s' = todos s ∧
  nextID s' = nextID s + 1 ∧
  nextID (NewService impl (repo s')).1 = nextID s.
Proof.
  intros Hd Hts Hnext Hroom. simpl.
  pose proof (max_ID_upper (todos s)) as Hmax.
  assert (nextID s ∉ ID <$> todos s) as Hfresh.
  { intros (todo & Hid & Hin)%list_elem_of_fmap.
    eapply Forall_forall in Hmax; [|exact Hin]. simpl in Hmax. lia. }
  rewrite (Add_valid impl s now description Hd). cbn [fst].
  erewrite (Delete_found impl _ (nextID s) (todos s) _ []); [|done..].
  rewrite save_eq. cbn [fst todos nextID repo with_todos]. rewrite app_nil_r.
  intros Hload. rewrite (NewService_loaded impl _ _ Hload). cbn [fst nextID].
  split_and!; [done| |].
  - apply wrap_int_id. assert (min_int ≤ 0) by done.
    pose proof (max_ID_nonneg (todos s)). unfold is_int. lia.
  - rewrite fold_bump_nextID; [|done|].
    + pose proof (max_ID_nonneg (todos s)). lia.
    + apply Forall_forall. intros todo Hin.
      eapply Forall_forall in Hmax; [|exact Hin].
      eapply Forall_forall in Hts; [|exact Hin].
      unfold is_int in Hts. simpl in Hmax. lia.
Qed.

(** ** Statistics after a call *)

Lemma GetStats_eq s :
  Z.of_nat (length (todos s)) ≤ max_int →
  GetStats s = mkStats (Z.of_nat (length (todos s)))
                 (count_status true (todos s)) (count_status false (todos s)).
Proof. intros Hlen. unfold GetStats. by rewrite fold_tally by lia. Qed.

Lemma count_status_app completed (l1 l2 : list Todo) :
  count_status completed (l1 ++ l2)
  = count_status completed l1 + count_status completed l2.
Proof.
  unfold count_status. rewrite filter_app, length_app. lia.
Qed.

(** [GetStats] follows the calls: [Add] adds one to [Total] and to
    [Pending]; [Complete] moves one from [Pending] to [Completed] and
    [Incomplete] moves it back; [Delete] takes one from [Total] and from
    the count of the deleted item's status. *)
Theorem GetStats_after_a_call s now id l1 todo l2 :
  Z.of_nat (length (todos s)) < max_int →
  let stats := GetStats s in
  (∀ description,
     description ≠ "" →
     GetStats (Add impl s now description).1
     = mkStats (Total stats + 1) (Completed_ stats) (Pending stats + 1)) ∧
  (todos s = l1 ++ todo :: l2 → ID todo = id → id ∉ ID <$> l1 →
     (Completed todo = false →
        GetStats (Complete impl s now id).1
        = mkStats (Total stats) (Completed_ stats + 1) (Pending stats - 1)) ∧
     (Completed todo = true →
        GetStats (Incomplete impl s id).1
        = mkStats (Total stats) (Completed_ stats - 1) (Pending stats + 1)) ∧
     GetStats (Delete impl s id).1
     = if Completed todo
       then mkStats (Total stats - 1) (Completed_ stats - 1) (Pending stats)
       else mkStats (Total stats - 1) (Completed_ stats) (Pending stats - 1)).
Proof.
  intros Hlen. simpl. rewrite (GetStats_eq s) by lia. simpl. split.
  - intros description Hd. rewrite (Add_valid impl s now description Hd).
    cbn [fst]. rewrite GetStats_eq; simpl; rewrite length_app; simpl; [|lia].
    rewrite !count_status_app, !count_status_cons. simpl.
    unfold count_status. simpl. f_equal; lia.
  - intros Hs Hid Hl1. rewrite Hs in *. rewrite length_app in Hlen.
    simpl in Hlen. split_and!.
    + intros Hflag.
      rewrite (Complete_found impl s now id l1 todo l2), Hflag by done.
      rewrite save_eq. cbn [fst].
      rewrite GetStats_eq; simpl; rewrite !length_app; simpl; [|lia].
      rewrite !count_status_app, !count_status_cons. simpl. rewrite Hflag.
      simpl. f_equal; lia.
    + intros Hflag.
      rewrite (Incomplete_found impl s id l1 todo l2), Hflag by done.
      rewrite save_eq. cbn [fst].
      rewrite GetStats_eq; simpl; rewrite !length_app; simpl; [|lia].
      rewrite !count_status_app, !count_status_cons. simpl. rewrite Hflag.
      simpl. f_equal; lia.
    + rewrite (Delete_found impl s id l1 todo l2) by done.
      rewrite save_eq. cbn [fst].
      rewrite GetStats_eq; simpl; rewrite !length_app; simpl; [|lia].
      rewrite !count_status_app, !count_status_cons.
      destruct (Completed todo); simpl; f_equal; lia.
Qed.

End MoreServiceProperties.

(** * The service over the JSON repository *)

Section OverTheFile.
Variable r : storage.JSONRepository.
#[local] Abbreviation disk := (storage.Repository GoJSON.codec r).
Implicit Types (s : Service os.FileSystem) (fs : os.FileSystem).

Lemma Save_errors codec fs ts fs' err :
  storage.Save codec r fs ts = (fs', Some err) →
  (∃ cause, err = ErrMarshal cause) ∨ (∃ cause, err = ErrWriteFile cause).
Proof.
  unfold storage.Save.
  destruct (json.MarshalIndent codec ts) as [data|cause].
  - destruct (os.WriteFile _ _ _) as [fs'' [cause|]]; [|done].
    intros [= _ <-]. right. by exists cause.
  - intros [= _ <-]. left. by exists cause.
Qed.

Lemma storable_new id description now :
  is_int id →
  GoJSON.well_formed_utf8 (String.length description)
    (GoJSON.chars description) = true →
  GoJSON.valid_time now →
  GoJSON.storable (mkTodo id description false now None).
Proof. by intros; split_and!. Qed.

Lemma storable_completed todo now :
  GoJSON.storable todo → GoJSON.valid_time now →
  GoJSON.storable (set_CompletedAt (set_Completed todo true) (Some now)).
Proof. intros (? & ? & ? & ?) ?. by split_and!. Qed.

Lemma storable_pending todo :
  GoJSON.storable todo →
  GoJSON.storable (set_CompletedAt (set_Completed todo false) None).
Proof. intros (? & ? & ? & ?). by split_and!. Qed.

Lemma wrap_int_is_int z : is_int (wrap_int z).
Proof.
  unfold wrap_int, is_int.
  assert (0 < 2 ^ int_bits) by done.
  pose proof (Z.mod_pos_bound (z - min_int) (2 ^ int_bits)).
  assert (min_int + 2 ^ int_bits = max_int + 1) by done. lia.
Qed.

(** What [Save] returned, and the file after it. *)
Lemma saved_on_file s ts n (reply : option error → reply) :
  Forall GoJSON.storable ts →
  (∀ err, save_failure (Failed err) = true →
          save_failure (reply (Some err)) = true) →
  let saved := save disk (mkService (repo s) ts n) in
  save_failure (reply saved.2) = false →
  storage.Load GoJSON.codec r (repo saved.1) = Ok ts.
Proof.
  intros Hts Hreply. simpl. rewrite save_eq. simpl.
  destruct (storage.Save GoJSON.codec r (repo s) ts) as [fs' [err|]] eqn:Hsave.
  - simpl. rewrite Hreply; [done|].
    by destruct (Save_errors _ _ _ _ _ Hsave) as [[cause ->]|[cause ->]].
  - intros _. simpl.
    apply (Load_after_Save GoJSON.codec r (repo s) ts fs'); [| |done].
    + apply GoJSON_rejects_empty_input.
    + by apply GoJSON_decodes_own_output.
Qed.

Lemma exec_on_file s now c :
  Forall GoJSON.storable (todos s) → is_int (nextID s) →
  storage.Load GoJSON.codec r (repo s) = Ok (todos s) →
  storable_call (now, c) →
  save_failure (exec disk s now c).2 = false →
  let s' := (exec disk s now c).1 in
  Forall GoJSON.storable (todos s') ∧ is_int (nextID s') ∧
  storage.Load GoJSON.codec r (repo s') = Ok (todos s').
Proof.
  intros Hts Hint Hfile [Hnow Hc]. simpl in Hnow, Hc.
  destruct c as [description|id|id|id]; simpl.
  - destruct (decide (description = "")) as [->|Hd]; [done|].
    rewrite (Add_valid disk s now description Hd). simpl.
    assert (Forall GoJSON.storable
              (todos s ++ [mkTodo (nextID s) description false now None]))
      as Hts'.
    { apply Forall_app. split; [done|].
      by apply Forall_singleton, storable_new. }
    destruct (storage.Save GoJSON.codec r (repo s) _) as [fs' [err|]] eqn:Hsave;
      simpl; [done|]. intros _. split_and!; [done|apply wrap_int_is_int|].
    eapply (Load_after_Save GoJSON.codec r); [| |exact Hsave].
    + apply GoJSON_rejects_empty_input.
    + by apply GoJSON_decodes_own_output.
  - unfold Complete, GetByID.
    destruct (list_find _ _) as [[i todo]|] eqn:Hfind; [|done].
    destruct (Completed todo); [done|].
    apply list_find_Some in Hfind as (Hi & _).
    assert (Forall GoJSON.storable
              (<[i:=set_CompletedAt (set_Completed todo true) (Some now)]>
                 (todos s))) as Hts'.
    { apply Forall_insert; [done|]. apply storable_completed; [|done].
      eapply Forall_forall in Hts; [exact Hts|].
      by eapply list_elem_of_lookup_2. }
    intros Hreply. unfold with_todos in *.
    pose proof (saved_on_file s _ (nextID s) reply_of Hts') as Hsaved.
    simpl in Hsaved. rewrite save_eq in *. simpl in *.
    destruct (storage.Save _ _ _ _) as [fs' err]. simpl in *.
    split_and!; [done..|]. apply Hsaved; [|done].
    by intros err'.
  - unfold Incomplete, GetByID.
    destruct (list_find _ _) as [[i todo]|] eqn:Hfind; [|done].
    destruct (Completed todo); [|done].
    apply list_find_Some in Hfind as (Hi & _).
    assert (Forall GoJSON.storable
              (<[i:=set_CompletedAt (set_Completed todo false) None]>
                 (todos s))) as Hts'.
    { apply Forall_insert; [done|]. apply storable_pending.
      eapply Forall_forall in Hts; [exact Hts|].
      by eapply list_elem_of_lookup_2. }
    intros Hreply. unfold with_todos in *.
    pose proof (saved_on_file s _ (nextID s) reply_of Hts') as Hsaved.
    simpl in Hsaved. rewrite save_eq in *. simpl in *.
    destruct (storage.Save _ _ _ _) as [fs' err]. simpl in *.
    split_and!; [done..|]. apply Hsaved; [|done].
    by intros err'.
  - unfold Delete.
    destruct (list_find _ _) as [[i todo]|] eqn:Hfind; [|done].
    assert (Forall GoJSON.storable (take i (todos s) ++ drop (S i) (todos s)))
      as Hts'.
    { apply Forall_app. split; [by apply Forall_take|by apply Forall_drop]. }
    intros Hreply. unfold with_todos in *.
    pose proof (saved_on_file s _ (nextID s) reply_of Hts') as Hsaved.
    simpl in Hsaved. rewrite save_eq in *. simpl in *.
    destruct (storage.Save _ _ _ _) as [fs' err]. simpl in *.
    split_and!; [done..|]. apply Hsaved; [|done].
    by intros err'.
Qed.


End OverTheFile.

(** A file that the decoder rejects does not stop the service: it starts
    empty, with counter 1 and the warning; the first [Add] then keeps the
    one new item, with identifier 1, and when its [Save] succeeds the
    file holds the encoding of that one item, so that what the file held
    is gone. *)
Theorem corrupt_file_is_replaced codec r fs data err now description :
  fs !! storage.filename r = Some (os.Regular data) → data ≠ "" →
  json.Unmarshal codec data = Err err →
  description ≠ "" →
  let disk := storage.Repository codec r in
  let todo := mkTodo 1 description false now None in
  NewService disk fs = (mkService fs [] 1, Some (ErrUnmarshal err)) ∧
  todos (Add disk (NewService disk fs).1 now description).1 = [todo] ∧
  nextID (Add disk (NewService disk fs).1 now description).1 = 2 ∧
  ((Add disk (NewService disk fs).1 now description).2 = Ok todo →
   ∃ data',
     json.MarshalIndent codec [todo] = Ok data' ∧
     repo (Add disk (NewService disk fs).1 now description).1
       !! storage.filename r = Some (os.Regular data')).
Proof.
  intros Hfile Hdata Herr Hd. simpl.
  assert (NewService (storage.Repository codec r) fs
          = (mkService fs [] 1, Some (ErrUnmarshal err))) as ->.
  { unfold NewService, loadTodos. simpl.
    rewrite (Load_regular codec r fs data Hfile), length_zero_empty.
    rewrite bool_decide_false by done. by rewrite Herr. }
  split; [done|]. cbn [fst].
  rewrite (Add_valid (storage.Repository codec r) _ now description Hd).
  cbn [fst snd todos nextID repo app].
  split_and!; [done..|].
  change (Save (storage.Repository codec r)) with (storage.Save codec r).
  destruct (storage.Save codec r fs [mkTodo 1 description false now None])
    as [fs' [err'|]] eqn:Hsave; [done|].
  intros _. apply Save_Ok in Hsave as (data' & Hdata' & ->).
  exists data'. split; [done|]. apply lookup_insert_eq.
Qed.

(** * What the calls leave alone *)

Section Kept.
Context {R : Type} (impl : Repository R).
Implicit Types (s : Service R) (todo : Todo) (id : Z) (now : Time).

Lemma exec_created_as s now c :
  let s' := (exec impl s now c).1 in
  (∃ description,
     advances c = true ∧
     created_as <$> todos s'
     = (created_as <$> todos s) ++ [(nextID s, description, now)]) ∨
  (advances c = false ∧
   sublist (created_as <$> todos s') (created_as <$> todos s)).
Proof.
  destruct c as [description|id|id|id]; simpl.
  - destruct (decide (description = "")) as [->|Hd]; [by right|].
    left. exists description. rewrite bool_decide_true by done.
    rewrite (Add_valid impl s now description Hd). simpl.
    split; [done|].
    destruct (Save impl _ _) as [r [err|]]; simpl; by rewrite fmap_app.
  - right. split; [done|]. unfold Complete, GetByID.
    destruct (list_find _ _) as [[i todo]|] eqn:Hfind; [|done].
    destruct (Completed todo); [done|]. rewrite save_eq.
    apply list_find_Some in Hfind as (Hi & _).
    destruct (Save impl _ _) as [r err]. simpl.
    rewrite list_fmap_insert, list_insert_id; [done|].
    by rewrite list_lookup_fmap, Hi.
  - right. split; [done|]. unfold Incomplete, GetByID.
    destruct (list_find _ _) as [[i todo]|] eqn:Hfind; [|done].
    destruct (Completed todo); [|done]. rewrite save_eq.
    apply list_find_Some in Hfind as (Hi & _).
    destruct (Save impl _ _) as [r err]. simpl.
    rewrite list_fmap_insert, list_insert_id; [done|].
    by rewrite list_lookup_fmap, Hi.
  - right. split; [done|]. unfold Delete.
    destruct (list_find _ _) as [[i todo]|] eqn:Hfind; [|done].
    rewrite save_eq. destruct (Save impl _ _) as [r err]. simpl.
    apply fmap_sublist.
    rewrite <- (take_drop i (todos s)) at 3.
    apply sublist_app; [done|].
    replace (S i) with (i + 1)%nat by lia.
    rewrite <- drop_drop. apply sublist_drop.
Qed.

Lemma run_created_as cs s :
  is_int (nextID s) →
  nextID s + Z.of_nat (advancing cs) ≤ max_int →
  ∃ added,
    sublist (created_as <$> todos (run impl s cs).1)
            ((created_as <$> todos s) ++ added) ∧
    Forall (λ k, nextID s ≤ k.1.1) added.
Proof.
  revert s. induction cs as [|[now c] cs IH]; intros s Hint Hroom.
  { exists []. rewrite app_nil_r. done. }
  rewrite advancing_cons in Hroom. rewrite run_cons. cbn [fst].
  destruct (exec_counter impl s now c) as [Hnext _].
  destruct (exec_created_as s now c) as [(d & Hadv & Hs1)|[Hadv Hs1]];
    rewrite Hadv in *.
  - rewrite wrap_int_id in Hnext by (unfold is_int in *; lia).
    destruct (IH (exec impl s now c).1) as (added & Hsub & Hadded).
    { rewrite Hnext. unfold is_int in *. lia. }
    { rewrite Hnext. lia. }
    exists ((nextID s, d, now) :: added). split.
    + by rewrite Hs1, <- app_assoc in Hsub.
    + constructor; [done|]. rewrite Hnext in Hadded.
      eapply Forall_impl; [exact Hadded|]. simpl. intros; lia.
  - destruct (IH (exec impl s now c).1) as (added & Hsub & Hadded).
    { by rewrite Hnext. }
    { rewrite Hnext. lia. }
    exists added. rewrite Hnext in Hadded. split; [|done].
    etrans; [exact Hsub|]. by apply sublist_app.
Qed.

(** No sequence of calls changes the identifier, the description or the
    creation time of an item, or the order of the items: the items of the
    collection after the calls are, in this order and up to flag and
    completion timestamp, items of the collection before the calls and
    then items that the calls added, with identifiers from the counter
    on.  So an item found afterwards under an identifier below the counter
    of before is an item of before, with its description and creation
    time. *)
Theorem calls_keep_the_items s cs :
  is_int (nextID s) →
  nextID s + Z.of_nat (advancing cs) ≤ max_int →
  let s' := (run impl s cs).1 in
  (∃ added,
     sublist (created_as <$> todos s') ((created_as <$> todos s) ++ added) ∧
     Forall (λ k, nextID s ≤ k.1.1) added) ∧
  (∀ todo', todo' ∈ todos s' → ID todo' < nextID s →
     ∃ todo, todo ∈ todos s ∧ ID todo = ID todo' ∧
             Description todo = Description todo' ∧
             CreatedAt todo = CreatedAt todo').
Proof.
  intros Hint Hroom. simpl.
  destruct (run_created_as cs s Hint Hroom) as (added & Hsub & Hadded).
  split; [by exists added|].
  intros todo' Hin Hbelow.
  assert (created_as todo' ∈ (created_as <$> todos s) ++ added) as Hcore.
  { eapply elem_of_sublist; [|exact Hsub].
    apply list_elem_of_fmap. by exists todo'. }
  apply elem_of_app in Hcore as [Hcore|Hcore].
  - apply list_elem_of_fmap in Hcore as (todo & Heq & Htodo).
    exists todo. injection Heq as ? ? ?. done.
  - eapply Forall_forall in Hadded; [|exact Hcore]. simpl in Hadded. lia.
Qed.

End Kept.

(** A call that the JSON repository's service answers with an error that
    is not an error of [Save] has changed nothing: the service, with the
    file, is as it was; and the error is the one of the description
    ([Add]) or of the identifier (the other calls). *)
Theorem rejected_call_changes_nothing codec r
  (s : Service os.FileSystem) now c err :
  let disk := storage.Repository codec r in
  (exec disk s now c).2 = Failed err → save_failure (Failed err) = false →
  (exec disk s now c).1 = s ∧
  match c with
  | CallAdd description => description = "" ∧ err = ErrEmptyDescription
  | CallComplete id => err = ErrNotFound id ∨ err = ErrAlreadyCompleted id
  | CallIncomplete id => err = ErrNotFound id ∨ err = ErrAlreadyIncomplete id
  | CallDelete id => err = ErrNotFound id
  end.
Proof.
  simpl. destruct c as [description|id|id|id]; simpl.
  - destruct (decide (description = "")) as [->|Hd].
    { by intros [= <-]. }
    rewrite (Add_valid _ s now description Hd). simpl.
    by destruct (storage.Save codec r _ _) as [fs' [err'|]]; simpl;
      [intros [= <-]|].
  - unfold Complete, GetByID.
    destruct (list_find _ _) as [[i todo]|] eqn:Hfind;
      [|intros [= <-]; by auto].
    destruct (Completed todo); [intros [= <-]; by auto|].
    rewrite save_eq. simpl.
    destruct (storage.Save codec r _ _) as [fs' [err'|]] eqn:Hsave; [|done].
    simpl. intros [= <-].
    by destruct (Save_errors r _ _ _ _ _ Hsave) as [[cause ->]|[cause ->]].
  - unfold Incomplete, GetByID.
    destruct (list_find _ _) as [[i todo]|] eqn:Hfind;
      [|intros [= <-]; by auto].
    destruct (Completed todo); [|intros [= <-]; by auto].
    rewrite save_eq. simpl.
    destruct (storage.Save codec r _ _) as [fs' [err'|]] eqn:Hsave; [|done].
    simpl. intros [= <-].
    by destruct (Save_errors r _ _ _ _ _ Hsave) as [[cause ->]|[cause ->]].
  - unfold Delete.
    destruct (list_find _ _) as [[i todo]|] eqn:Hfind;
      [|intros [= <-]; by auto].
    rewrite save_eq. simpl.
    destruct (storage.Save codec r _ _) as [fs' [err'|]] eqn:Hsave; [|done].
    simpl. intros [= <-].
    by destruct (Save_errors r _ _ _ _ _ Hsave) as [[cause ->]|[cause ->]].
Qed.

(** * The commands: properties *)

Module strconvFacts.
Import GoJSON GoJSONFacts strconv.

(** [Atoi] reads back what [Itoa] writes. *)
Lemma Atoi_Itoa z : is_int z → Atoi (Itoa z) = inl z.
Proof.
  intros Hint. pose proof (is_int_decimal z Hint) as Hz.
  unfold Atoi, Itoa. rewrite chars_text. unfold encode_int.
  destruct (z <? 0) eqn:Hneg.
  - apply Z.ltb_lt in Hneg. rewrite Z.abs_neq in Hz by lia.
    destruct (decimal_spec (- z) Hz) as (Hnum & Hall & c & ds' & Heq & _).
    eval_tests. rewrite Hall, Hnum, Heq.
    cbn [andb negb]. rewrite bool_decide_false by done. cbn [negb].
    rewrite Z.opp_involutive. by rewrite bool_decide_true.
  - apply Z.ltb_ge in Hneg. rewrite Z.abs_eq in Hz by done.
    destruct (decimal_spec z Hz) as (Hnum & Hall & c & ds' & Heq & _).
    rewrite Heq in *.
    assert (is_digit c = true) as Hc.
    { simpl in Hall. by apply andb_true_iff in Hall as [-> _]. }
    assert ((code c =? 45)%N = false ∧ (code c =? 43)%N = false) as [-> ->].
    { apply digit_cases in Hc as (d & Hd & ->). by each_digit d Hd. }
    rewrite Hall, Hnum.
    cbn [andb negb]. rewrite bool_decide_false by done. cbn [negb].
    by rewrite bool_decide_true.
Qed.

(** A text that [Atoi] accepts is not empty and has only digits and
    signs. *)
Lemma Atoi_accepts s n :
  Atoi s = inl n →
  s ≠ "" ∧
  ∀ c, c ∈ chars s → is_digit c = true ∨ c = "-"%char ∨ c = "+"%char.
Proof.
  unfold Atoi. destruct s as [|c0 s]; [done|]. cbn [chars list_ascii_of_string].
  fold (chars s). intros Hn. split; [done|]. revert Hn.
  destruct (code c0 =? 45)%N eqn:Hminus; [|destruct (code c0 =? 43)%N eqn:Hplus].
  - destruct (forallb is_digit (chars s)) eqn:Hall; [|done]. intros _.
    intros c [->|Hc]%elem_of_cons.
    + right. left. apply N.eqb_eq in Hminus.
      rewrite <- (ascii_N_embedding c0). unfold code in Hminus. by rewrite Hminus.
    + left. rewrite forallb_forall in Hall. apply Hall.
      by apply list_elem_of_In.
  - destruct (forallb is_digit (chars s)) eqn:Hall; [|done]. intros _.
    intros c [->|Hc]%elem_of_cons.
    + right. right. apply N.eqb_eq in Hplus.
      rewrite <- (ascii_N_embedding c0). unfold code in Hplus. by rewrite Hplus.
    + left. rewrite forallb_forall in Hall. apply Hall.
      by apply list_elem_of_In.
  - destruct (forallb is_digit (c0 :: chars s)) eqn:Hall; [|done]. intros _.
    intros c Hc. left. rewrite forallb_forall in Hall. apply Hall.
    by apply list_elem_of_In.
Qed.

End strconvFacts.

Lemma Join_empty (args : list string) :
  strings.Join args " " = "" ↔ args = [] ∨ args = [""].
Proof.
  split.
  - destruct args as [|arg [|arg' args]]; [by left| |].
    + simpl. intros ->. by right.
    + cbn [strings.Join]. by destruct arg.
  - by intros [->| ->].
Qed.

Section CommandProperties.
Context {R : Type} (impl : Repository R).
Implicit Types (s : Service R) (id : Z) (now : Time) (args : list string).

(** [AddCommand] fails without arguments, with "description is
    required", and with the one argument that is the empty text, with the
    error of [Add]; the service stays as it was.  With other arguments it
    adds an item whose description is the arguments with one space
    between them, and prints the identifier and the description unless
    [Save] fails. *)
Theorem AddCommand_outcomes s now args :
  (args = [] →
     cli.AddCommand impl s now args = (s, cli.Returned cli.DescriptionRequired)) ∧
  (args = [""] →
     cli.AddCommand impl s now args
     = (s, cli.Returned (cli.FromService ErrEmptyDescription))) ∧
  (args ≠ [] → args ≠ [""] →
     let description := strings.Join args " " in
     let todo := mkTodo (nextID s) description false now None in
     let saved := Save impl (repo s) (todos s ++ [todo]) in
     description ≠ "" ∧
     cli.AddCommand impl s now args
     = (mkService saved.1 (todos s ++ [todo]) (wrap_int (nextID s + 1)),
        match saved.2 with
        | Some err => cli.Returned (cli.FromService (ErrSaveTodo err))
        | None =>
          cli.Printed ("Added todo #" +:+ strconv.Itoa (nextID s) +:+ ": "
                       +:+ description +:+ cli.line_break)
        end)).
Proof.
  split_and!.
  - by intros ->.
  - by intros ->.
  - intros Hargs Hargs'. simpl.
    assert (strings.Join args " " ≠ "") as Hd.
    { rewrite Join_empty. by intros [?|?]. }
    split; [done|]. unfold cli.AddCommand.
    destruct args as [|arg args]; [done|].
    rewrite (Add_valid impl s now _ Hd).
    by destruct (Save impl _ _) as [r' [err|]].
Qed.

(** [CompleteCommand] and [IncompleteCommand] with the decimal text of an
    identifier as first argument do what [Complete] and [Incomplete] do
    with the identifier, return their error or print the identifier, and
    ignore the other arguments.  With a first argument that is empty or
    has a character that is neither a digit nor a sign, they return
    "invalid todo ID" and leave the service as it was. *)
Theorem Complete_and_Incomplete_commands s now :
  (∀ id rest,
     is_int id →
     cli.CompleteCommand impl s now (strconv.Itoa id :: rest)
     = ((Complete impl s now id).1,
        match (Complete impl s now id).2 with
        | Some err => cli.Returned (cli.FromService err)
        | None =>
          cli.Printed ("Marked todo #" +:+ strconv.Itoa id +:+ " as completed"
                       +:+ cli.line_break)
        end) ∧
     cli.IncompleteCommand impl s (strconv.Itoa id :: rest)
     = ((Incomplete impl s id).1,
        match (Incomplete impl s id).2 with
        | Some err => cli.Returned (cli.FromService err)
        | None =>
          cli.Printed ("Marked todo #" +:+ strconv.Itoa id +:+ " as incomplete"
                       +:+ cli.line_break)
        end)) ∧
  (∀ arg rest,
     arg = "" ∨
     (∃ c, c ∈ GoJSON.chars arg ∧ GoJSON.is_digit c = false ∧
           c ≠ "-"%char ∧ c ≠ "+"%char) →
     cli.CompleteCommand impl s now (arg :: rest)
     = (s, cli.Returned (cli.InvalidID arg)) ∧
     cli.IncompleteCommand impl s (arg :: rest)
     = (s, cli.Returned (cli.InvalidID arg))) ∧
  cli.CompleteCommand impl s now [] = (s, cli.Returned cli.IDRequired) ∧
  cli.IncompleteCommand impl s [] = (s, cli.Returned cli.IDRequired).
Proof.
  split_and!; [| |done..].
  - intros id rest Hid. unfold cli.CompleteCommand, cli.IncompleteCommand.
    rewrite (strconvFacts.Atoi_Itoa id Hid). split.
    + by destruct (Complete impl s now id) as [s' [err|]].
    + by destruct (Incomplete impl s id) as [s' [err|]].
  - intros arg rest Harg. unfold cli.CompleteCommand, cli.IncompleteCommand.
    destruct (strconv.Atoi arg) as [n|err] eqn:Hatoi; [|done].
    apply strconvFacts.Atoi_accepts in Hatoi as [Hne Hchars].
    destruct Harg as [->|(c & Hc & Hdigit & Hminus & Hplus)]; [done|].
    destruct (Hchars c Hc) as [?|[?|?]]; congruence.
Qed.

(** [DeleteCommand] with the decimal text of an identifier deletes the
    first item with the identifier, as [Delete] does, and then prints
    the description that it reads through the pointer [GetByID] gave it
    before: the pointer is to the place of the deleted item, and after
    [Delete] that place holds the item that followed it.  So the
    description printed is the one of the next item of the collection,
    and the one of the deleted item only when that was the last item. *)
Theorem DeleteCommand_prints s id rest l1 todo l2 :
  is_int id →
  todos s = l1 ++ todo :: l2 → ID todo = id → id ∉ ID <$> l1 →
  let saved := Save impl (repo s) (l1 ++ l2) in
  cli.DeleteCommand impl s (strconv.Itoa id :: rest)
  = (mkService saved.1 (l1 ++ l2) (nextID s),
     match saved.2 with
     | Some err => cli.Returned (cli.FromService err)
     | None =>
       cli.Printed ("Deleted todo #" +:+ strconv.Itoa id +:+ ": "
                    +:+ Description (hd todo l2) +:+ cli.line_break)
     end).
Proof.
  intros Hint Hs Hid Hl1. simpl. unfold cli.DeleteCommand.
  rewrite (strconvFacts.Atoi_Itoa id Hint). unfold GetByID.
  rewrite (Delete_found impl s id l1 todo l2) by done.
  rewrite Hs, (list_find_first id l1 l2 todo) by done.
  rewrite save_eq. cbn [fst snd todos repo nextID with_todos]. rewrite <- Hs.
  destruct (Save impl _ _) as [r' [err|]]; [done|]. cbn [fst snd].
  do 5 f_equal. rewrite Hs. unfold cli.array_after_Delete.
  rewrite take_app_length.
  rewrite lookup_app_r by lia. rewrite Nat.sub_diag.
  rewrite drop_app_ge by lia.
  replace (S (length l1) - length l1)%nat with 1%nat by lia. simpl.
  destruct l2 as [|next l2]; [|done]. simpl.
  rewrite length_app. simpl.
  rewrite drop_app_ge by lia.
  by replace (length l1 + 1 - 1 - length l1)%nat with 0%nat by lia.
Qed.

End CommandProperties.

(** * The global flag: properties *)

Lemma global_flags_cons filename arg value rest :
  main.global_flags filename (arg :: value :: rest) =
  if decide (arg = "-file") then (value, rest)
  else let (filename, args) := main.global_flags filename (value :: rest) in
       (filename, arg :: args).
Proof. done. Qed.

(** The arguments lose the first [-file] and the argument after it, which
    becomes the file name; a [-file] that is the last argument stays among
    the arguments, and without another [-file] the file name is the one
    given. *)
Theorem global_flags_first_pair filename args :
  (∀ l1 value l2,
     args = l1 ++ "-file" :: value :: l2 → "-file" ∉ l1 →
     main.global_flags filename args = (value, l1 ++ l2)) ∧
  ("-file" ∉ removelast args →
     main.global_flags filename args = (filename, args)).
Proof.
  split.
  - intros l1 value l2 -> Hl1. induction l1 as [|arg l1 IH].
    + cbn [app main.global_flags]. by rewrite decide_True.
    + apply not_elem_of_cons in Hl1 as [Harg Hl1].
      cbn [app].
      destruct (l1 ++ "-file" :: value :: l2) as [|arg' tail] eqn:Htail.
      { by destruct l1. }
      rewrite global_flags_cons, decide_False by done. by rewrite IH.
  - induction args as [|arg args IH]; [done|].
    destruct args as [|arg' args]; [done|].
    change (removelast (arg :: arg' :: args))
      with (arg :: removelast (arg' :: args)).
    intros [Harg Hargs]%not_elem_of_cons.
    rewrite global_flags_cons, decide_False by done. by rewrite IH.
Qed.

(** * The statements at concrete inputs *)

(** ** Where the design document's wording stops holding *)

(** C1 at the end of the range of [int]: a service built over a store
    whose only item has identifier [max_int - 1] hands out [max_int] and
    then [min_int], which is not an increase; and over a store whose item
    has identifier [max_int] the counter is [min_int], not one more than
    the largest identifier. *)
Lemma Add_identifiers_wrap_around :
  let last id := mkMock [mkTodo id "last" false noon None] None in
  let s := (NewService Mock (last (max_int - 1))).1 in
  is_int (nextID s) ∧
  assigned (run Mock s [(noon, CallAdd "Buy milk"); (noon, CallAdd "Pay bills")]).2
    = [max_int; min_int] ∧
  ¬ StronglySorted Z.lt [max_int; min_int] ∧
  nextID (NewService Mock (last max_int)).1 = min_int ∧
  min_int ≠ max_int + 1.
Proof.
  split_and!; [by vm_compute | by vm_compute | | by vm_compute | by vm_compute].
  intros Hsorted. apply StronglySorted_inv in Hsorted as [_ Hlt].
  apply Forall_cons in Hlt as [Hlt _]. by vm_compute in Hlt.
Qed.

(** C7 at the empty file: its content cannot be parsed, encoding/json
    rejects it, yet [Load] does not fail with the corrupt-data error; it
    returns the empty collection. *)
Lemma Load_empty_file_is_not_corrupt_data :
  empty_file !! storage.filename test_json = Some (os.Regular "") ∧
  json.Unmarshal GoJSON.codec "" = Err GoJSON.SyntaxEnd ∧
  storage.Load GoJSON.codec test_json empty_file = Ok [] ∧
  storage.Load GoJSON.codec test_json empty_file
    ≠ Err (ErrUnmarshal GoJSON.SyntaxEnd).
Proof. by vm_compute. Qed.


(** C3 at a zone that is not of whole minutes: the zone of the time is
    written as [+00:00], the seconds of its offset dropped, and [Load]
    returns the same clock reading in a zone of offset 0, which is half a
    minute later. *)
Example Save_then_Load_odd_zone :
  let saved := storage.Save GoJSON.codec test_json no_file [odd_zone] in
  saved.2 = None ∧
  storage.Load GoJSON.codec test_json saved.1
    = Ok [mkTodo 1 "Buy milk" false (Date 2023 1 1 12 0 0 0 0) None] ∧
  storage.Load GoJSON.codec test_json saved.1 ≠ Ok [odd_zone] ∧
  ¬ GoJSON.storable odd_zone.
Proof.
  split_and!; [by vm_compute..|].
  intros (_ & _ & (_ & _ & _ & _ & _ & _ & _ & Hzone & _) & _).
  by vm_compute in Hzone.
Qed.

(** ** The theorems at the data of the tests *)

Lemma Add_identifiers_witness :
  StronglySorted Z.lt
    (assigned (run Mock fresh
       [(noon, CallAdd "Buy milk"); (noon, CallAdd "");
        (one_pm, CallComplete 1); (one_pm, CallAdd "Pay bills")]).2) ∧
  nextID fresh = 1 ∧
  nextID (NewService Mock (mkMock originalTodos None)).1
    = max_ID originalTodos + 1 ∧
  ID milk = 1.
Proof.
  destruct (Add_identifiers Mock) as (Hrun & Hempty & Hloaded & Hadd).
  split_and!.
  - apply Hrun; compute_done.
  - apply (Hempty (mkMock [] None)). reflexivity.
  - apply (Hloaded (mkMock originalTodos None) originalTodos); compute_done.
  - apply (Hadd fresh noon "Buy milk"
             (Add Mock fresh noon "Buy milk").1
             (mkTodo 1 "Buy milk" false noon None)).
    reflexivity.
Defined.

Lemma Complete_Incomplete_outcomes_witness :
  Complete Mock shopping one_pm 3 = (shopping, Some (ErrNotFound 3)) ∧
  Complete Mock shopping one_pm 1 = (shopping, Some (ErrAlreadyCompleted 1)) ∧
  Incomplete Mock shopping 2 = (shopping, Some (ErrAlreadyIncomplete 2)) ∧
  todos (Complete Mock shopping one_pm 2).1
    = [milk; mkTodo 2 "Pay bills" true noon (Some one_pm)] ∧
  mock_todos (repo (Incomplete Mock shopping 1).1)
    = [mkTodo 1 "Buy milk" false noon None; bills].
Proof.
  destruct (Complete_Incomplete_outcomes Mock shopping one_pm 3) as [Habsent _].
  destruct (Complete_Incomplete_outcomes Mock shopping one_pm 1) as [_ Hmilk].
  destruct (Complete_Incomplete_outcomes Mock shopping one_pm 2) as [_ Hbills].
  destruct (Hmilk [] milk [bills]) as [Hdone _]; [compute_done..|].
  destruct (Hbills [milk] bills []) as [_ Hpending]; [compute_done..|].
  destruct Hdone as [HC1 HI1]; [reflexivity|].
  destruct Hpending as [HI2 HC2]; [reflexivity|].
  split_and!.
  - apply Habsent. compute_done.
  - exact HC1.
  - exact HI2.
  - rewrite HC2. reflexivity.
  - rewrite HI1. reflexivity.
Defined.

Lemma Delete_removes_exactly_one_witness :
  todos (Delete Mock shopping 1).1 = [bills] ∧
  Delete Mock (Delete Mock shopping 1).1 1
    = ((Delete Mock shopping 1).1, Some (ErrNotFound 1)) ∧
  Delete Mock shopping 3 = (shopping, Some (ErrNotFound 3)).
Proof.
  destruct (Delete_removes_exactly_one Mock shopping 1) as [Hpresent _].
  destruct (Delete_removes_exactly_one Mock shopping 3) as [_ Habsent].
  destruct Hpresent as (l1 & todo & l2 & _ & _ & _ & Hrest & Hagain);
    [compute_done..|].
  split_and!.
  - rewrite Hrest. reflexivity.
  - exact Hagain.
  - apply Habsent. compute_done.
Defined.

Lemma completion_timestamp_invariant_witness :
  well_timed (mkTodo 1 "Buy milk" false noon None) ∧
  Forall well_timed (todos (exec Mock shopping one_pm (CallComplete 2)).1) ∧
  Forall well_timed
    (todos (run Mock unsaved
       [(noon, CallIncomplete 1); (noon, CallDelete 2); (noon, CallAdd "x")]).1).
Proof.
  destruct (completion_timestamp_invariant Mock fresh noon) as [Hadd _].
  destruct (completion_timestamp_invariant Mock shopping one_pm)
    as [_ Hshopping].
  destruct (completion_timestamp_invariant Mock unsaved noon)
    as [_ Hfailing].
  split_and!.
  - apply (Hadd "Buy milk" (Add Mock fresh noon "Buy milk").1). reflexivity.
  - apply Hshopping. compute_done.
  - apply Hfailing. compute_done.
Defined.

Lemma failed_Save_is_not_rolled_back_witness :
  Add Mock unsaved noon "Call mum" =
    (mkService failing [milk; bills; mkTodo 3 "Call mum" false noon None] 4,
     Err (ErrSaveTodo disk_full)) ∧
  Complete Mock unsaved noon 2 =
    (mkService failing [milk; mkTodo 2 "Pay bills" true noon (Some noon)] 3,
     Some disk_full) ∧
  Incomplete Mock unsaved 1 =
    (mkService failing [mkTodo 1 "Buy milk" false noon None; bills] 3,
     Some disk_full) ∧
  Delete Mock unsaved 1 = (mkService failing [bills] 3, Some disk_full) ∧
  [bills] ≠ todos unsaved ∧
  (Save Mock failing [bills]).1 = failing.
Proof.
  destruct failed_Save_is_not_rolled_back as (Hkept & Hmock).
  destruct (Hkept _ Mock unsaved noon disk_full failing) as [HAdd Hfound].
  destruct (Hfound 2 [milk] bills []) as (HComplete & _ & _); [compute_done..|].
  destruct (Hfound 1 [] milk [bills]) as (_ & HIncomplete & HDelete);
    [compute_done..|].
  split_and!.
  - apply (HAdd "Call mum"); [compute_done | reflexivity].
  - apply HComplete; reflexivity.
  - apply HIncomplete; reflexivity.
  - apply HDelete; reflexivity.
  - apply HDelete; reflexivity.
  - apply (Hmock failing [bills] _ disk_full). reflexivity.
Defined.

Lemma GetStats_counts_witness :
  Total (GetStats three) = 3 ∧
  Completed_ (GetStats three) = 1 ∧
  Pending (GetStats three) = 2 ∧
  CompletionRate (GetStats three) = 0x1.0aaaaaaaaaaaap+5%float ∧
  CompletionRate (GetStats fresh) = 0%float.
Proof.
  pose proof (GetStats_counts three) as Hthree.
  pose proof (GetStats_counts fresh) as Hfresh.
  cbv zeta in Hthree, Hfresh.
  destruct Hthree as (HT & HC & HP & _ & Hrate); [compute_done|].
  destruct Hfresh as (HT0 & _ & _ & _ & Hrate0); [compute_done|].
  split_and!.
  - rewrite HT. reflexivity.
  - rewrite HC. reflexivity.
  - rewrite HP. reflexivity.
  - destruct (Hrate (GetStats three)) as [_ ->].
    + by vm_compute.
    + rewrite HT. by vm_compute.
  - destruct (Hrate0 (GetStats fresh)) as [-> _].
    + reflexivity.
    + rewrite HT0. reflexivity.
Defined.


Lemma Load_missing_or_malformed_witness :
  storage.Load GoJSON.codec test_json no_file = Ok [] ∧
  storage.Load GoJSON.codec test_json invalid_file
    = Err (ErrUnmarshal GoJSON.SyntaxChar).
Proof.
  split.
  - apply (Load_missing_or_malformed GoJSON.codec test_json no_file).
    reflexivity.
  - apply (Load_missing_or_malformed GoJSON.codec test_json invalid_file)
      with (data := "invalid json"); [reflexivity | done | reflexivity].
Defined.

Lemma Load_zero_bytes_witness :
  storage.Load GoJSON.codec test_json empty_file = Ok [].
Proof.
  apply (Load_zero_bytes GoJSON.codec test_json empty_file). reflexivity.
Defined.

(** ** The further theorems at the data of the tests *)

Lemma GetByID_first_match_witness :
  GetByID shopping 3 = Err (ErrNotFound 3) ∧
  GetByID shopping 2 = Ok (1%nat, bills).
Proof.
  destruct (GetByID_first_match shopping 3) as [Habsent _].
  destruct (GetByID_first_match shopping 2) as [_ Hfound].
  split.
  - apply Habsent. compute_done.
  - apply Hfound. split_and!; [reflexivity..|].
    intros [|j] todo' Hj Hlt; [|lia]. injection Hj as <-. compute_done.
Defined.

Lemma GetByStatus_splits_witness :
  milk ∈ GetByStatus shopping true ∧
  Completed_ (GetStats shopping) = Z.of_nat (length (GetByStatus shopping true)) ∧
  Pending (GetStats shopping) = Z.of_nat (length (GetByStatus shopping false)).
Proof.
  destruct (GetByStatus_splits shopping) as (Hin & _ & _ & Hstats).
  split.
  - apply Hin. split; [|reflexivity]. compute_done.
  - apply Hstats. compute_done.
Defined.

Lemma identifiers_stay_unique_witness :
  Forall (λ todo, ID todo < nextID (NewService Mock (mkMock originalTodos None)).1)
    originalTodos ∧
  NoDup (ID <$> todos (run Mock shopping
                         [(noon, CallAdd "Call mum"); (noon, CallDelete 1);
                          (noon, CallAdd "Water plants")]).1).
Proof.
  destruct (identifiers_stay_unique Mock) as [Hloaded Hrun].
  split.
  - apply (Hloaded (mkMock originalTodos None) originalTodos);
      [reflexivity|compute_done].
  - apply Hrun; compute_done.
Defined.

Lemma Complete_then_Incomplete_witness :
  todos (Incomplete Mock (Complete Mock shopping one_pm 2).1 2).1
    = todos shopping ∧
  todos (Complete Mock (Incomplete Mock shopping 1).1 noon 1).1
    = [mkTodo 1 "Buy milk" true noon (Some noon); bills].
Proof.
  destruct (Complete_then_Incomplete Mock shopping one_pm 2 [milk] bills [])
    as [Hpending _]; [reflexivity|reflexivity|compute_done|].
  destruct (Complete_then_Incomplete Mock shopping noon 1 [] milk [bills])
    as [_ Hcompleted]; [reflexivity|reflexivity|compute_done|].
  split.
  - apply Hpending; reflexivity.
  - apply Hcompleted. reflexivity.
Defined.

Lemma Add_then_Delete_witness :
  todos (Delete Mock (Add Mock shopping noon "Call mum").1 3).1 = [milk; bills] ∧
  nextID (Delete Mock (Add Mock shopping noon "Call mum").1 3).1 = 4.
Proof.
  apply (Add_then_Delete Mock shopping noon "Call mum"); compute_done.
Defined.

Lemma identifier_handed_out_again_witness :
  let s' := (Delete Mock (Add Mock shopping noon "Call mum").1 3).1 in
  todos s' = [milk; bills] ∧ nextID s' = 4 ∧
  nextID (NewService Mock (repo s')).1 = 3.
Proof.
  apply (identifier_handed_out_again Mock shopping noon "Call mum");
    [compute_done| |reflexivity|reflexivity|reflexivity].
  repeat constructor; compute_done.
Defined.

Lemma GetStats_after_a_call_witness :
  GetStats (Add Mock shopping noon "Call mum").1 = mkStats 3 1 2 ∧
  GetStats (Complete Mock shopping one_pm 2).1 = mkStats 2 2 0 ∧
  GetStats (Delete Mock shopping 2).1 = mkStats 1 1 0.
Proof.
  destruct (GetStats_after_a_call Mock shopping one_pm 2 [milk] bills [])
    as [Hadd Hfound]; [compute_done|].
  destruct (GetStats_after_a_call Mock shopping noon 2 [milk] bills [])
    as [Hadd' _]; [compute_done|].
  destruct Hfound as (Hcomplete & _ & Hdelete);
    [reflexivity|reflexivity|compute_done|].
  split_and!.
  - apply (Hadd' "Call mum"). compute_done.
  - apply Hcomplete. reflexivity.
  - exact Hdelete.
Defined.

Lemma GetByID_after_a_call_witness :
  GetByID (Add Mock shopping noon "Call mum").1 3
    = Ok (2%nat, mkTodo 3 "Call mum" false noon None) ∧
  GetByID (Complete Mock shopping one_pm 2).1 2
    = Ok (1%nat, mkTodo 2 "Pay bills" true noon (Some one_pm)) ∧
  GetByID (Delete Mock shopping 2).1 2 = Err (ErrNotFound 2).
Proof.
  destruct (GetByID_after_a_call Mock shopping noon) as [Hadd _].
  destruct (GetByID_after_a_call Mock shopping one_pm) as [_ Hfound].
  destruct (Hadd "Call mum") as [Hnew _]; [compute_done..|].
  destruct (Hfound 2 1%nat bills) as [Hcomplete Hdelete]; [reflexivity|].
  destruct Hcomplete as [Hcompleted _]; [reflexivity|].
  split_and!.
  - exact Hnew.
  - exact Hcompleted.
  - apply Hdelete. compute_done.
Defined.


Lemma corrupt_file_is_replaced_witness :
  let disk := storage.Repository GoJSON.codec test_json in
  let todo := mkTodo 1 "Buy milk" false noon None in
  NewService disk invalid_file
    = (mkService invalid_file [] 1, Some (ErrUnmarshal GoJSON.SyntaxChar)) ∧
  todos (Add disk (NewService disk invalid_file).1 noon "Buy milk").1 = [todo] ∧
  nextID (Add disk (NewService disk invalid_file).1 noon "Buy milk").1 = 2 ∧
  ∃ data',
    json.MarshalIndent GoJSON.codec [todo] = Ok data' ∧
    repo (Add disk (NewService disk invalid_file).1 noon "Buy milk").1
      !! "integration_test.json" = Some (os.Regular data').
Proof.
  destruct (corrupt_file_is_replaced GoJSON.codec test_json invalid_file
              "invalid json" GoJSON.SyntaxChar noon "Buy milk")
    as (Hstart & Htodos & Hnext & Hfile); [reflexivity|done|reflexivity|done|].
  split_and!; [exact Hstart|exact Htodos|exact Hnext|].
  apply Hfile. reflexivity.
Defined.

Lemma AddCommand_outcomes_witness :
  cli.AddCommand Mock fresh noon [] = (fresh, cli.Returned cli.DescriptionRequired) ∧
  cli.AddCommand Mock fresh noon [""]
    = (fresh, cli.Returned (cli.FromService ErrEmptyDescription)) ∧
  (cli.AddCommand Mock fresh noon ["Buy"; "milk"]).2
    = cli.Printed ("Added todo #1: Buy milk" +:+ cli.line_break).
Proof.
  destruct (AddCommand_outcomes Mock fresh noon []) as (Hnone & _ & _).
  destruct (AddCommand_outcomes Mock fresh noon [""]) as (_ & Hempty & _).
  destruct (AddCommand_outcomes Mock fresh noon ["Buy"; "milk"])
    as (_ & _ & Hadd).
  split_and!.
  - by apply Hnone.
  - by apply Hempty.
  - destruct Hadd as [_ ->]; [done..|]. reflexivity.
Defined.

Lemma Complete_and_Incomplete_commands_witness :
  (cli.CompleteCommand Mock shopping one_pm ["2"]).2
    = cli.Printed ("Marked todo #2 as completed" +:+ cli.line_break) ∧
  (cli.IncompleteCommand Mock shopping ["2"; "now"]).2
    = cli.Returned (cli.FromService (ErrAlreadyIncomplete 2)) ∧
  cli.CompleteCommand Mock shopping one_pm ["2nd"]
    = (shopping, cli.Returned (cli.InvalidID "2nd")).
Proof.
  destruct (Complete_and_Incomplete_commands Mock shopping one_pm)
    as (Hnumber & Hother & _).
  destruct (Hnumber 2 []) as [Hcomplete _]; [compute_done|].
  destruct (Hnumber 2 ["now"]) as [_ Hincomplete]; [compute_done|].
  destruct (Hother "2nd" []) as [Hinvalid _].
  { right. exists "n"%char. split_and!; [|reflexivity|done..].
    apply elem_of_cons. right. apply elem_of_cons. by left. }
  split_and!.
  - change ["2"] with [strconv.Itoa 2]. rewrite Hcomplete. reflexivity.
  - change ["2"; "now"] with [strconv.Itoa 2; "now"]. rewrite Hincomplete.
    reflexivity.
  - exact Hinvalid.
Defined.

Lemma DeleteCommand_prints_witness :
  (cli.DeleteCommand Mock shopping ["1"]).2
    = cli.Printed ("Deleted todo #1: Pay bills" +:+ cli.line_break) ∧
  (cli.DeleteCommand Mock shopping ["2"]).2
    = cli.Printed ("Deleted todo #2: Pay bills" +:+ cli.line_break).
Proof.
  split.
  - change ["1"] with (strconv.Itoa 1 :: []).
    rewrite (DeleteCommand_prints Mock shopping 1 [] [] milk [bills]);
      [reflexivity|compute_done|reflexivity|reflexivity|compute_done].
  - change ["2"] with (strconv.Itoa 2 :: []).
    rewrite (DeleteCommand_prints Mock shopping 2 [] [milk] bills []);
      [reflexivity|compute_done|reflexivity|reflexivity|compute_done].
Defined.

Lemma global_flags_first_pair_witness :
  main.global_flags main.defaultFilename ["Buy"; "-file"; "x.json"; "milk"]
    = ("x.json", ["Buy"; "milk"]) ∧
  main.global_flags main.defaultFilename ["Buy"; "milk"; "-file"]
    = ("data/todos.json", ["Buy"; "milk"; "-file"]).
Proof.
  destruct (global_flags_first_pair main.defaultFilename
              ["Buy"; "-file"; "x.json"; "milk"]) as [Hfound _].
  destruct (global_flags_first_pair main.defaultFilename
              ["Buy"; "milk"; "-file"]) as [_ Hlast].
  split.
  - apply (Hfound ["Buy"] "x.json" ["milk"]); [reflexivity|compute_done].
  - apply Hlast. compute_done.
Defined.

Lemma calls_keep_the_items_witness :
  let s' := (run Mock shopping
               [(noon, CallAdd "Call mum"); (one_pm, CallComplete 2);
                (noon, CallDelete 1)]).1 in
  mkTodo 2 "Pay bills" true noon (Some one_pm) ∈ todos s' ∧
  ∃ todo, todo ∈ [milk; bills] ∧ ID todo = 2 ∧
          Description todo = "Pay bills" ∧ CreatedAt todo = noon.
Proof.
  destruct (calls_keep_the_items Mock shopping
              [(noon, CallAdd "Call mum"); (one_pm, CallComplete 2);
               (noon, CallDelete 1)]) as [_ Hkept]; [compute_done..|].
  split; [compute_done|].
  apply (Hkept (mkTodo 2 "Pay bills" true noon (Some one_pm))); compute_done.
Defined.

Lemma rejected_call_changes_nothing_witness :
  (exec (storage.Repository GoJSON.codec test_json)
        (mkService empty_array_file [milk; bills] 3) noon (CallComplete 1)).1
  = mkService empty_array_file [milk; bills] 3.
Proof.
  apply (rejected_call_changes_nothing GoJSON.codec test_json
           (mkService empty_array_file [milk; bills] 3) noon (CallComplete 1)
           (ErrAlreadyCompleted 1)); reflexivity.
Defined.
